(** * whitelodge: the Store, its history and subscribers, the global registry

    A shallow embedding of [src/index.js].  JavaScript objects live in a
    heap and are named by locations, so that what [clone] copies and what
    [Object.assign] updates in place can be told apart.  Store instances
    live in a table of their own and are named by their index there.
    Every operation is a function from the world before the call to an
    outcome (normal return or a thrown exception) and the world after.

    What is modelled of JavaScript: objects are plain, with own
    enumerable data properties only (no prototype chains, accessors or
    symbols); arrays are lists of values.  The key [__proto__] is no
    property like the others: an assignment to it, and [Object.assign]
    with it, go through the setter of the prototype.  Objects that have
    it as a key of their own, and stores named by it, are outside the
    model, and the properties that depend on it say so.  A function
    value is opaque.  What happens when a store calls one is taken in
    two ways: in the Store itself, as a callback that returns or throws
    without touching the store, the registry or the heap; and in [Live],
    as any code at all, which may call the store back while the
    notification loop is still going through its subscribers.  The
    packages the source imports (isobject, is-function, clone) and the
    built-ins it calls are modelled by what they are documented to do.
    The console and the calls made to subscribers are recorded in a
    trace; the timestamp of a log line is left out. *)

From Stdlib Require Import ZArith QArith Ascii List Lia.
From stdpp Require Import base option list gmap strings fin_maps.

Local Open Scope string_scope.
Local Open Scope list_scope.

#[local] Set Warnings "-register-all".

(** ** Numbers

    A JavaScript number is NaN, an infinity or a finite value.  Finite
    values are rationals here: every double is one, and the comparisons
    the source makes ([<], [>]) are exact on them. *)

Inductive num :=
| NaN
| PosInf
| NegInf
| Fin (q : Q).

Definition Qltb (a b : Q) : bool := negb (Qle_bool b a).

(** [a < b] of JavaScript: false as soon as one side is NaN. *)
Definition num_ltb (a b : num) : bool :=
  match a, b with
  | NaN, _ | _, NaN => false
  | PosInf, _ => false
  | _, NegInf => false
  | NegInf, _ => true
  | _, PosInf => true
  | Fin x, Fin y => Qltb x y
  end.

Definition isNaN (n : num) : bool :=
  match n with NaN => true | _ => false end.

Definition of_nat (n : nat) : num := Fin (inject_Z (Z.of_nat n)).

(** The mathematical integers among the numbers. *)
Definition is_integer (n : num) : Prop :=
  match n with
  | Fin q => exists z : Z, Qeq q (inject_Z z)
  | _ => False
  end.

(** ** Values, cells and the heap *)

Abbreviation loc := nat.

(** What calling a function value does, as far as a store can tell: it
    returns, or it throws. *)
Inductive behaviour := Returns | Throws.

Inductive val :=
| VUndef
| VNull
| VBool (b : bool)
| VNum (n : num)
| VStr (s : string)
| VRef (l : loc)
| VFun (f : nat) (b : behaviour).

#[global] Instance Q_eq_dec : EqDecision Q.
Proof. solve_decision. Defined.
#[global] Instance num_eq_dec : EqDecision num.
Proof. solve_decision. Defined.
#[global] Instance behaviour_eq_dec : EqDecision behaviour.
Proof. solve_decision. Defined.
#[global] Instance val_eq_dec : EqDecision val.
Proof. solve_decision. Defined.

(** A heap cell is a plain object (its own enumerable data properties)
    or an array. *)
Inductive cell :=
| CObj (props : gmap string val)
| CArr (elems : list val).

(** [isObject] of the isobject package: not null, [typeof] is ['object'],
    and not an array. *)
Definition isObject (h : list cell) (v : val) : bool :=
  match v with
  | VRef l => match h !! l with Some (CObj _) => true | _ => false end
  | _ => false
  end.

(** [isFunction] of the is-function package. *)
Definition isFunction (v : val) : bool :=
  match v with VFun _ _ => true | _ => false end.

(** [a === b]. *)
Definition strict_equal (a b : val) : bool :=
  match a, b with
  | VUndef, VUndef | VNull, VNull => true
  | VBool x, VBool y => Bool.eqb x y
  | VNum (Fin x), VNum (Fin y) => Qeq_bool x y
  | VNum PosInf, VNum PosInf | VNum NegInf, VNum NegInf => true
  | VStr x, VStr y => String.eqb x y
  | VRef x, VRef y => Nat.eqb x y
  | VFun x _, VFun y _ => Nat.eqb x y
  | _, _ => false
  end.

(** ** [clone]

    The clone package is a dependency, not part of the repository; it is
    modelled by its contract.  Primitives and functions are returned as
    they are.  An object or array is copied together with everything it
    reaches, sharing and cycles preserved, into fresh locations.  The copy
    is made by giving every cell of the heap a twin [length h] places
    further on; twins of cells the argument does not reach are not
    reachable from the result. *)

Definition shift_val (n : nat) (v : val) : val :=
  match v with
  | VRef l => VRef (n + l)
  | _ => v
  end.

Definition shift_cell (n : nat) (c : cell) : cell :=
  match c with
  | CObj props => CObj (shift_val n <$> props)
  | CArr elems => CArr (shift_val n <$> elems)
  end.

Definition clone (h : list cell) (v : val) : val * list cell :=
  match v with
  | VRef _ => (shift_val (length h) v, h ++ (shift_cell (length h) <$> h))
  | _ => (v, h)
  end.

(** ** Observing a value to a given depth *)

Inductive tree :=
| TCut
| TDangling
| TUndef
| TNull
| TBool (b : bool)
| TNum (n : num)
| TStr (s : string)
| TFun (f : nat) (b : behaviour)
| TObj (props : gmap string tree)
| TArr (elems : list tree).

Fixpoint reify (d : nat) (h : list cell) (v : val) : tree :=
  match d with
  | O => TCut
  | S d' =>
      match v with
      | VUndef => TUndef
      | VNull => TNull
      | VBool b => TBool b
      | VNum n => TNum n
      | VStr s => TStr s
      | VFun f b => TFun f b
      | VRef l =>
          match h !! l with
          | Some (CObj props) => TObj (reify d' h <$> props)
          | Some (CArr elems) => TArr (reify d' h <$> elems)
          | None => TDangling
          end
      end
  end.

(** Two values, each in its heap, that no read can tell apart. *)
Definition deep_equal (h1 : list cell) (v1 : val) (h2 : list cell) (v2 : val) : Prop :=
  forall d, reify d h1 v1 = reify d h2 v2.

(** The objects and arrays met when reading a value. *)
Inductive reaches (h : list cell) : val -> loc -> Prop :=
| reaches_here l : reaches h (VRef l) l
| reaches_property l props k v l' :
    h !! l = Some (CObj props) -> props !! k = Some v ->
    reaches h v l' -> reaches h (VRef l) l'
| reaches_element l elems i v l' :
    h !! l = Some (CArr elems) -> elems !! i = Some v ->
    reaches h v l' -> reaches h (VRef l) l'.

(** ** Stores, the world and the outcome of a call *)

Record Store := mkStore {
  name : string;
  state : loc;
  previousStates : list val;
  subscribers : list val;
  logStateToConsole : bool;
  numberOfPreviousStatesToKeep : num
}.

(** An argument that may be a Store instance, an array of such
    arguments, or any other value. *)
Inductive item :=
| Value (v : val)
| Instance (this : nat)
| ArrayOf (items : list item).

(** What [throwError] is given to print. *)
Inductive dump :=
| DItem (i : item)
| DNames (storeNames : list string)
| DRoot (whitelodge : option (gmap string nat)).

(** What the outside sees of a run, in order: the console, and every
    call of a subscriber's [setState] with the payload's single key, the
    instance under that key and the state object as it can be read at
    the time of the call. *)
Inductive event :=
| console_error (varToDump : dump)
| console_log (label : string) (logged : val)
| setState_call (subscriber : val) (key : string) (this : nat)
    (store : Store) (seen : option cell).

Record World := mkWorld {
  heap : list cell;
  instances : list Store;
  (** [root.whitelodge.stores], or [None] while [root.whitelodge] is not
      defined *)
  whitelodge : option (gmap string nat);
  (** the local state each mounted component was seeded with *)
  component_state : list (val * gmap string nat);
  trace : list event
}.

Definition set_heap (h : list cell) (w : World) : World :=
  mkWorld h (instances w) (whitelodge w) (component_state w) (trace w).
Definition set_instances (i : list Store) (w : World) : World :=
  mkWorld (heap w) i (whitelodge w) (component_state w) (trace w).
Definition set_whitelodge (r : option (gmap string nat)) (w : World) : World :=
  mkWorld (heap w) (instances w) r (component_state w) (trace w).
Definition set_component_state (c : list (val * gmap string nat)) (w : World) : World :=
  mkWorld (heap w) (instances w) (whitelodge w) c (trace w).
Definition emit (e : event) (w : World) : World :=
  mkWorld (heap w) (instances w) (whitelodge w) (component_state w) (trace w ++ [e]).

Inductive exn :=
| Error (message : string)
| TypeError
| Thrown (f : nat).

Inductive outcome (A : Type) :=
| Return (a : A)
| Throw (e : exn).
Arguments Return {A} a.
Arguments Throw {A} e.

(** A computation: the world goes in, an outcome and the world as the
    computation left it come out.  An exception keeps every effect made
    before it was thrown. *)
Definition M (A : Type) : Type := World -> outcome A * World.

Definition ret {A} (a : A) : M A := fun w => (Return a, w).
Definition throw {A} (e : exn) : M A := fun w => (Throw e, w).
Definition bind {A B} (m : M A) (k : A -> M B) : M B :=
  fun w => match m w with
           | (Return a, w') => k a w'
           | (Throw e, w') => (Throw e, w')
           end.
Definition gets {A} (f : World -> A) : M A := fun w => (Return (f w), w).
Definition modify (f : World -> World) : M unit := fun w => (Return tt, f w).

Declare Scope js_scope.
Delimit Scope js_scope with js.
Notation "x <- m ;; k" := (bind m (fun x => k))
  (at level 100, m at next level, right associativity) : js_scope.
Notation "m ;;; k" := (bind m (fun _ => k))
  (at level 100, right associativity) : js_scope.
Local Open Scope js_scope.

(** [Array.prototype.forEach], the callback being a computation. *)
Fixpoint forEach {A} (l : list A) (f : A -> M unit) : M unit :=
  match l with
  | [] => ret tt
  | x :: l' => f x ;;; forEach l' f
  end.

(** ** Validation utilities *)

Definition rootObjectName : string := "whitelodge".
Definition logPrefix : string := "whitelodge | ".

(** The default of [varToDump] replaces [undefined], and the sentinel is
    not printed. *)
Definition received (varToDump : dump) : bool :=
  match varToDump with
  | DItem (Value VUndef) => false
  | DItem (Value (VStr s)) => negb (String.eqb s "varToDumpNotReceived")
  | _ => true
  end.

Arguments received : simpl never.

Definition throwError {A} (message : string) (varToDump : dump) : M A :=
  (if received varToDump then modify (emit (console_error varToDump)) else ret tt) ;;;
  throw (Error (logPrefix +:+ message)).

Definition validateNewState (newState : val) : M unit :=
  h <- gets heap ;;
  if negb (isObject h newState)
  then throwError "State must be an object." (DItem (Value newState))
  else ret tt.

(** ** Built-in operations the Store uses *)

(** [Array.prototype.slice(0, end)]: [end] is truncated towards zero, a
    negative [end] counts from the back, and the result is clamped to the
    array. *)
Definition slice0 {A} (l : list A) (end_ : num) : list A :=
  match end_ with
  | NaN | NegInf => take 0 l
  | PosInf => l
  | Fin q =>
      let relativeEnd := Z.quot (Qnum q) (Zpos (Qden q)) in
      let len := Z.of_nat (length l) in
      let final := if (relativeEnd <? 0)%Z
                   then Z.max (len + relativeEnd) 0
                   else Z.min relativeEnd len in
      take (Z.to_nat final) l
  end.

(** What [v.k] reads, for a [v] that has properties: a property that is
    not there reads as [undefined]. *)
Definition property (h : list cell) (v : val) (k : string) : val :=
  match v with
  | VRef l =>
      match h !! l with
      | Some (CObj props) => default VUndef (props !! k)
      | _ => VUndef
      end
  | _ => VUndef
  end.

Arguments property : simpl never.

(** [v.k]: reading a property of [undefined] or [null] is a TypeError. *)
Definition get_property (v : val) (k : string) : M val :=
  match v with
  | VUndef | VNull => throw TypeError
  | _ => h <- gets heap ;; ret (property h v k)
  end.

(** The own enumerable properties [Object.assign] reads from a source
    that [validateNewState] has accepted. *)
Definition own_properties (h : list cell) (source : val) : gmap string val :=
  match source with
  | VRef l => match h !! l with Some (CObj props) => props | _ => ∅ end
  | _ => ∅
  end.

(** [Object.assign(target, source)]: every property of the source is
    written to the target, in place.  This is so for a source without a
    [__proto__] key of its own; a source that has one is outside the
    model. *)
Definition Object_assign (target : loc) (source : val) : M unit :=
  h <- gets heap ;;
  match h !! target with
  | Some (CObj props) =>
      modify (set_heap (<[target := CObj (own_properties h source ∪ props)]> h))
  | _ => throw TypeError
  end.

(** [{}]: a fresh empty object. *)
Definition new_object : M loc :=
  h <- gets heap ;;
  modify (set_heap (h ++ [CObj ∅])) ;;;
  ret (length h).

(** ** The Store *)

Definition set_previousStates (p : list val) (s : Store) : Store :=
  mkStore (name s) (state s) p (subscribers s) (logStateToConsole s)
          (numberOfPreviousStatesToKeep s).
Definition set_subscribers (u : list val) (s : Store) : Store :=
  mkStore (name s) (state s) (previousStates s) u (logStateToConsole s)
          (numberOfPreviousStatesToKeep s).

(** Reading and updating the fields of the instance [this]. *)
Definition read (this : nat) : M Store :=
  fun w => match instances w !! this with
           | Some s => (Return s, w)
           | None => (Throw TypeError, w)
           end.
Definition update (this : nat) (f : Store -> Store) : M unit :=
  modify (fun w => set_instances (alter f this (instances w)) w).

Definition doLogStateToConsole (this : nat) : M unit :=
  s <- read this ;;
  if logStateToConsole s
  then modify (emit (console_log (logPrefix +:+ name s +:+ " | ") (VRef (state s))))
  else ret tt.

Definition addCurrentStateToPreviousStates (this : nat) : M unit :=
  s <- read this ;;
  h <- gets heap ;;
  let (snapshot, h') := clone h (VRef (state s)) in
  modify (set_heap h') ;;;
  update this (fun s => set_previousStates (snapshot :: previousStates s) s) ;;;
  s <- read this ;;
  if num_ltb (numberOfPreviousStatesToKeep s) (of_nat (length (previousStates s)))
  then update this (fun s =>
         set_previousStates
           (slice0 (previousStates s) (numberOfPreviousStatesToKeep s)) s)
  else ret tt.

(** [subscriber.setState({[this.name]: this})], for a callback that only
    looks at what it is given and then returns or throws as its function
    value says.  Callbacks that run code are taken up in [Live], below. *)
Definition call_setState (this : nat) (subscriber : val) : M unit :=
  f <- get_property subscriber "setState" ;;
  s <- read this ;;
  match f with
  | VFun id b =>
      modify (fun w => emit (setState_call subscriber (name s) this s
                                           (heap w !! state s)) w) ;;;
      match b with
      | Returns => ret tt
      | Throws => throw (Thrown id)
      end
  | _ => throw TypeError
  end.

Definition setStoreState (this : nat) (newState : val) : M unit :=
  validateNewState newState ;;;
  addCurrentStateToPreviousStates this ;;;
  s <- read this ;;
  Object_assign (state s) newState ;;;
  s <- read this ;;
  forEach (subscribers s) (call_setState this) ;;;
  doLogStateToConsole this.

Definition dquote : string := String "034"%char EmptyString.

Definition subscribe (this : nat) (newSubscriber : val) : M unit :=
  f <- get_property newSubscriber "setState" ;;
  (if negb (isFunction f)
   then throwError
          "Store subscribers must be components with a setState function as a property."
          (DItem (Value newSubscriber))
   else ret tt) ;;;
  s <- read this ;;
  forEach (subscribers s) (fun subscriber =>
    if strict_equal subscriber newSubscriber
    then throwError
           ("Component is already subscribed to the store " +:+ dquote +:+ name s
              +:+ dquote +:+ ".")
           (DItem (Value newSubscriber))
    else ret tt) ;;;
  update this (fun s => set_subscribers (subscribers s ++ [newSubscriber]) s).

(** The index the loop of [unsubscribe] stops at. *)
Fixpoint first_index (unsubscriber : val) (l : list val) (i : nat) : option nat :=
  match l with
  | [] => None
  | x :: l' => if strict_equal x unsubscriber then Some i
               else first_index unsubscriber l' (S i)
  end.

Definition unsubscribe (this : nat) (unsubscriber : val) : M unit :=
  s <- read this ;;
  match first_index unsubscriber (subscribers s) 0 with
  | Some i => update this (fun s => set_subscribers (delete i (subscribers s)) s)
  | None => ret tt
  end.

(** ** Subscribers that run code

    What a subscriber's [setState] does when a store calls it is code of
    the program that uses the store, and it may call the store back.
    [run f subscriber this] is what the function [f] does when it is
    called on [subscriber] with the payload that holds the instance
    [this], before it returns or throws as its value says: any
    computation.  The loop of [setStoreState]
    goes through [this.subscribers] as [Array.prototype.forEach] does:
    the length is read once, before the first call, and at each index up
    to it the array is looked at as it then is, an index past its end
    being passed over.  [subscribe] and [unsubscribe] change that very
    array in place ([push], [splice]).

    [call_setState] and [setStoreState] above are these with callbacks
    that do nothing before they return or throw. *)
Module Live.
Section Callbacks.

Variable run : nat -> val -> nat -> M unit.

(** [subscriber.setState({[this.name]: this})]. *)
Definition call_setState (this : nat) (subscriber : val) : M unit :=
  f <- get_property subscriber "setState" ;;
  s <- read this ;;
  match f with
  | VFun id b =>
      modify (fun w => emit (setState_call subscriber (name s) this s
                                           (heap w !! state s)) w) ;;;
      run id subscriber this ;;;
      match b with
      | Returns => ret tt
      | Throws => throw (Thrown id)
      end
  | _ => throw TypeError
  end.

(** [this.subscribers.forEach(subscriber => ...)] from the index [k] on,
    [remaining] indices being left to visit. *)
Fixpoint notify (this : nat) (k remaining : nat) : M unit :=
  match remaining with
  | 0 => ret tt
  | S remaining =>
      s <- read this ;;
      match subscribers s !! k with
      | Some subscriber => call_setState this subscriber
      | None => ret tt
      end ;;;
      notify this (S k) remaining
  end.

Definition setStoreState (this : nat) (newState : val) : M unit :=
  validateNewState newState ;;;
  addCurrentStateToPreviousStates this ;;;
  s <- read this ;;
  Object_assign (state s) newState ;;;
  s <- read this ;;
  notify this 0 (length (subscribers s)) ;;;
  doLogStateToConsole this.

End Callbacks.
End Live.

(** ** Construction *)

Section Construction.

(** [Number(v)] on a string and on an object (through its [valueOf] or
    [toString]) is the language's; both are taken as given. *)
Variable StringToNumber : string -> num.
Variable ObjectToNumber : list cell -> loc -> num.

Definition Number (h : list cell) (v : val) : num :=
  match v with
  | VUndef => NaN
  | VNull => Fin 0
  | VBool true => Fin 1
  | VBool false => Fin 0
  | VNum n => n
  | VStr s => StringToNumber s
  | VRef l => ObjectToNumber h l
  | VFun _ _ => NaN
  end.

(** [typeof name !== 'string' || !name.length], negated. *)
Definition nonempty_string (v : val) : bool :=
  match v with
  | VStr s => negb (Nat.eqb (String.length s) 0)
  | _ => false
  end.

Definition is_boolean (v : val) : bool :=
  match v with VBool _ => true | _ => false end.

Definition validateArguments (name initialState logStateToConsole : val)
    (numberOfPreviousStatesToKeep : num) : M unit :=
  (if negb (nonempty_string name)
   then throwError "Store name should be a non-empty string." (DItem (Value name))
   else ret tt) ;;;
  validateNewState initialState ;;;
  (if negb (is_boolean logStateToConsole)
   then throwError
          "When indicating whether to log state to console you should pass a boolean value."
          (DItem (Value logStateToConsole))
   else ret tt) ;;;
  if isNaN numberOfPreviousStatesToKeep
     || num_ltb numberOfPreviousStatesToKeep (Fin 1)
  then throwError
         "When indicating how many previous versions of state to keep you should pass a number > 0."
         (DItem (Value (VNum numberOfPreviousStatesToKeep)))
  else ret tt.

(** A parameter left [undefined] takes its default. *)
Definition or_default (v d : val) : val :=
  match v with VUndef => d | _ => v end.

Definition string_of (v : val) : string :=
  match v with VStr s => s | _ => EmptyString end.
Definition bool_of (v : val) : bool :=
  match v with VBool b => b | _ => false end.

(** [new Store(name, initialState, logStateToConsole,
    numberOfPreviousStatesToKeep)]; the result is the new instance. *)
Definition new_Store (name initialState logStateToConsole
    numberOfPreviousStatesToKeep : val) : M nat :=
  initialState <- match initialState with
                  | VUndef => l <- new_object ;; ret (VRef l)
                  | _ => ret initialState
                  end ;;
  let logStateToConsole := or_default logStateToConsole (VBool false) in
  let numberOfPreviousStatesToKeep :=
    or_default numberOfPreviousStatesToKeep (VNum (Fin 15)) in
  h <- gets heap ;;
  let parsedNumberOfPreviousStatesToKeep := Number h numberOfPreviousStatesToKeep in
  validateArguments name initialState logStateToConsole
                    parsedNumberOfPreviousStatesToKeep ;;;
  st <- new_object ;;
  this <- gets (fun w => length (instances w)) ;;
  modify (fun w => set_instances
            (instances w ++ [mkStore (string_of name) st [] []
                                     (bool_of logStateToConsole)
                                     parsedNumberOfPreviousStatesToKeep]) w) ;;;
  setStoreState this initialState ;;;
  ret this.

End Construction.

(** ** The registry *)

(** The elements of the argument when [Array.isArray] holds of it. *)
Definition as_array (h : list cell) (a : item) : option (list item) :=
  match a with
  | ArrayOf items => Some items
  | Value (VRef l) =>
      match h !! l with
      | Some (CArr elems) => Some (Value <$> elems)
      | _ => None
      end
  | _ => None
  end.

Definition instance_of (i : item) : option nat :=
  match i with Instance this => Some this | _ => None end.

(** The callback of [stores.reduce], with [storeNames] threaded along.
    [storesObject[store.name] = store] makes a property for every name
    but [__proto__]; a store of that name is outside the model. *)
Fixpoint reduce_stores (stores : list nat) (storeNames : list string)
    (storesObject : gmap string nat) : M (gmap string nat) :=
  match stores with
  | [] => ret storesObject
  | store :: rest =>
      s <- read store ;;
      (if bool_decide (name s ∈ storeNames)
       then throwError ("There is already a store with the name " +:+ dquote
                          +:+ name s +:+ dquote
                          +:+ ". Store names must be unique.")
                       (DNames storeNames)
       else ret tt) ;;;
      reduce_stores rest (storeNames ++ [name s]) (<[name s := store]> storesObject)
  end.

Definition makeStoresGloballyAvailable (stores : item) : M unit :=
  h <- gets heap ;;
  match as_array h stores with
  | None => throwError "makeStoresGloballyAvailable expects an array of Store instances."
                       (DItem stores)
  | Some items =>
      forEach items (fun store =>
        match store with
        | Instance _ => ret tt
        | _ => throwError "Invalid Store intance passed to makeStoresGloballyAvailable."
                          (DItem store)
        end) ;;;
      modify (set_whitelodge None) ;;;
      storesObject <- reduce_stores (omap instance_of items) [] ∅ ;;
      modify (set_whitelodge (Some storesObject))
  end.

(** ** The component that [AddStoreSubscriptions] builds *)

Definition elements (h : list cell) (v : val) : option (list val) :=
  match v with
  | VRef l => match h !! l with Some (CArr elems) => Some elems | _ => None end
  | _ => None
  end.

(** [stores.hasOwnProperty(storeName)] and then [stores[storeName]], on
    the plain object [stores]: the method is [Object.prototype]'s unless a
    store of that very name shadows it, and a Store instance cannot be
    called. *)
Definition own_store (stores : gmap string nat) (storeName : string) : M (option nat) :=
  match stores !! "hasOwnProperty" with
  | Some _ => throw TypeError
  | None => ret (stores !! storeName)
  end.

(** The callback of [storeNames.forEach] in [subscribeToStores], with
    [initialState] threaded along. *)
Fixpoint subscribe_each (this : val) (storeNames : list val)
    (initialState : gmap string nat) : M (gmap string nat) :=
  match storeNames with
  | [] => ret initialState
  | storeName :: rest =>
      match storeName with
      | VStr storeName =>
          r <- gets whitelodge ;;
          match r with
          | None => throw TypeError
          | Some stores =>
              found <- own_store stores storeName ;;
              match found with
              | None => throwError ("There is not store called " +:+ dquote
                                      +:+ storeName +:+ dquote +:+ ".")
                                   (DRoot r)
              | Some store =>
                  subscribe store this ;;;
                  subscribe_each this rest (<[storeName := store]> initialState)
              end
          end
      | _ => throwError "Each store name passed to AddStoreSubscriptions should be a string."
                        (DItem (Value storeName))
      end
  end.

Definition subscribeToStores (this : val) (storeNames : val) : M unit :=
  h <- gets heap ;;
  match elements h storeNames with
  | None => throwError
              "The second argument passed to AddStoreSubscriptions should be an array of store names to which you want to subscribe."
              (DItem (Value storeNames))
  | Some names =>
      initialState <- subscribe_each this names ∅ ;;
      modify (fun w => set_component_state ((this, initialState) :: component_state w) w)
  end.

(** [root.whitelodge.stores.forEach(...)]: [stores] is the plain object
    that [makeStoresGloballyAvailable] built.  Its own property of that
    name, if it has one, is a Store instance; otherwise the lookup ends at
    [Object.prototype], which has no [forEach].  Neither can be called. *)
Definition componentWillUnmount (this : val) : M unit :=
  r <- gets whitelodge ;;
  match r with
  | None => throw TypeError
  | Some stores =>
      match stores !! "forEach" with
      | Some store => throw TypeError
      | None => throw TypeError
      end
  end.

(** * The vocabulary of the properties *)

(** ** Heaps *)

Definition val_in (P : loc -> Prop) (v : val) : Prop :=
  match v with VRef l => P l | _ => True end.

Definition cell_in (P : loc -> Prop) (c : cell) : Prop :=
  match c with
  | CObj props => map_Forall (fun _ v => val_in P v) props
  | CArr elems => Forall (val_in P) elems
  end.

#[local] Instance val_in_dec (P : loc -> Prop) `{forall l, Decision (P l)} v :
  Decision (val_in P v).
Proof. destruct v; simpl; apply _. Defined.

#[local] Instance cell_in_dec (P : loc -> Prop) `{forall l, Decision (P l)} c :
  Decision (cell_in P c).
Proof. destruct c; simpl; apply _. Defined.

(** A region of the heap: locations that hold a cell, whose references
    stay inside the region. *)
Definition region (P : loc -> Prop) (h : list cell) : Prop :=
  forall l, P l -> exists c, h !! l = Some c /\ cell_in P c.

(** No reference points outside the heap. *)
Definition heap_closed (h : list cell) : Prop :=
  region (fun l => l < length h) h.

(** ** The history and its depth *)

(** A depth that [validateArguments] lets through. *)
Definition depth_ok (n : num) : Prop :=
  isNaN n = false /\ num_ltb n (Fin 1) = false.

(** [length l <= n], with the comparison of the source. *)
Definition within (n : num) {A} (l : list A) : Prop :=
  num_ltb n (of_nat (length l)) = false.

(** [length l <= n] for a number [n], in the rationals. *)
Definition at_most {A} (l : list A) (n : num) : Prop :=
  match n with
  | PosInf => True
  | Fin q => (inject_Z (Z.of_nat (length l)) <= q)%Q
  | _ => False
  end.

(** What [addCurrentStateToPreviousStates] leaves of the history once
    the snapshot is at its front. *)
Definition keep {A} (n : num) (l : list A) : list A :=
  if num_ltb n (of_nat (length l)) then slice0 l n else l.

(** ** Subscribers and what they are told *)

(** A subscriber whose [setState] is a function that returns. *)
Definition responds (h : list cell) (subscriber : val) : Prop :=
  exists l props f,
    subscriber = VRef l /\ h !! l = Some (CObj props) /\
    props !! "setState" = Some (VFun f Returns).

(** A subscriber whose [setState] is a function that throws. *)
Definition throws (h : list cell) (subscriber : val) (f : nat) : Prop :=
  exists l props,
    subscriber = VRef l /\ h !! l = Some (CObj props) /\
    props !! "setState" = Some (VFun f Throws).

(** [v] has a callable [setState]; of [undefined] and [null] not even
    the property can be read. *)
Definition capable (h : list cell) (v : val) : bool :=
  match v with
  | VUndef | VNull => false
  | _ => isFunction (property h v "setState")
  end.

(** [v] is in the list, by [===]. *)
Definition present (v : val) (subs : list val) : bool :=
  existsb (fun subscriber => strict_equal subscriber v) subs.

(** The call a store [s], instance [this], makes to a subscriber. *)
Definition notification (this : nat) (s : Store) (h : list cell) (subscriber : val) : event :=
  setState_call subscriber (name s) this s (h !! state s).

(** What [doLogStateToConsole] prints for the store [s]. *)
Definition log_entry (s : Store) : list event :=
  if logStateToConsole s
  then [console_log (logPrefix +:+ name s +:+ " | ") (VRef (state s))]
  else [].

(** What a call shows of the payload: who was called, the key, the
    instance, the state it sees, and how the newest entry of the history
    reads in the heap [h]. *)
Definition seen_by (h : list cell) (e : event)
  : option (val * string * nat * option cell * option tree) :=
  match e with
  | setState_call subscriber key this store seen =>
      Some (subscriber, key, this, seen, reify 2 h <$> head (previousStates store))
  | _ => None
  end.

(** ** Worlds along a call *)

(** The world with [t] added to its trace. *)
Definition add_trace (t : list event) (w : World) : World :=
  mkWorld (heap w) (instances w) (whitelodge w) (component_state w) (trace w ++ t).

(** A throw of [throwError] leaves the heap, the stores and the registry
    as they were. *)
Definition same_but_trace (w w' : World) : Prop :=
  heap w' = heap w /\ instances w' = instances w /\ whitelodge w' = whitelodge w
  /\ component_state w' = component_state w.

(** The state of the world after the history push. *)
Definition pushed (this : nat) (s : Store) (w : World) : World :=
  let (snapshot, h') := clone (heap w) (VRef (state s)) in
  set_instances
    (<[this := set_previousStates
                 (keep (numberOfPreviousStatesToKeep s) (snapshot :: previousStates s)) s]>
       (instances w))
    (set_heap h' w).

(** The world once the history is pushed and [newState] merged, before
    any subscriber is called: the heap [h'] holds the snapshot, the state
    object holds [props], and the history of [this] is [history]. *)
Definition merged_world (w : World) (this : nat) (s : Store)
    (h' : list cell) (props : gmap string val) (history : list val) : World :=
  mkWorld (<[state s := CObj props]> h')
          (<[this := set_previousStates history s]> (instances w))
          (whitelodge w) (component_state w) (trace w).

(** ** Construction *)

(** The arguments once the defaults are in, and the world in which the
    constructor's body starts. *)
Definition with_default_state (initialState : val) (w : World) : val * World :=
  match initialState with
  | VUndef => (VRef (length (heap w)), set_heap (heap w ++ [CObj ∅]) w)
  | _ => (initialState, w)
  end.

(** The four checks of [validateArguments], in one. *)
Definition arguments_valid (h : list cell) (name initialState logStateToConsole : val)
    (n : num) : bool :=
  nonempty_string name && isObject h initialState && is_boolean logStateToConsole
  && negb (isNaN n || num_ltb n (Fin 1)).

(** The world in which the constructor calls [setStoreState]: the state
    object allocated, the instance in the table. *)
Definition constructed (w : World) (name logStateToConsole : val) (n : num) : World :=
  set_instances
    (instances w ++ [mkStore (string_of name) (length (heap w)) [] []
                             (bool_of logStateToConsole) n])
    (set_heap (heap w ++ [CObj ∅]) w).

(** ** A store in use

    A store is used by calling its three operations, each of which may
    return or throw, while its environment creates objects and writes to
    objects.  The environment writes only to what is its own: the cells
    it has created, and those of a set it starts with; the set comes
    along with the world.  An object stays an object and an array an
    array. *)

Definition same_kind (c c' : cell) : Prop :=
  match c, c' with
  | CObj _, CObj _ | CArr _, CArr _ => True
  | _, _ => False
  end.

Inductive step (this : nat) : World * (loc -> Prop) -> World * (loc -> Prop) -> Prop :=
| step_setStoreState w own newState :
    step this (w, own) ((setStoreState this newState w).2, own)
| step_subscribe w own v :
    step this (w, own) ((subscribe this v w).2, own)
| step_unsubscribe w own v :
    step this (w, own) ((unsubscribe this v w).2, own)
| step_allocate w (own : loc -> Prop) c :
    cell_in (fun l => l <= length (heap w)) c ->
    step this (w, own)
         (set_heap (heap w ++ [c]) w, fun l => own l \/ l = length (heap w))
| step_write w (own : loc -> Prop) l c c' :
    own l -> heap w !! l = Some c -> same_kind c c' ->
    cell_in (fun x => x < length (heap w)) c' ->
    step this (w, own) (set_heap (<[l := c']> (heap w)) w, own).

(** No operation of a store changes its name, its state object, its
    logging flag or its history depth. *)
Definition same_configuration (s s' : Store) : Prop :=
  name s' = name s /\ state s' = state s /\
  logStateToConsole s' = logStateToConsole s /\
  numberOfPreviousStatesToKeep s' = numberOfPreviousStatesToKeep s.

(** The store [s] is the instance [this] of [w], well formed. *)
Definition store_inv (this : nat) (w : World) (s : Store) : Prop :=
  instances w !! this = Some s /\
  (exists old, heap w !! state s = Some (CObj old)) /\
  heap_closed (heap w) /\
  depth_ok (numberOfPreviousStatesToKeep s) /\
  within (numberOfPreviousStatesToKeep s) (previousStates s).

(** The snapshots of [s] lie in the region [N], and the state object
    does not. *)
Definition apart (N : loc -> Prop) (w : World) (s : Store) : Prop :=
  region N (heap w) /\ ~ N (state s) /\ Forall (val_in N) (previousStates s).

(** Nothing of the region [N] is the environment's to write to. *)
Definition hidden (N own : loc -> Prop) (w : World) : Prop :=
  (forall x, N x -> ~ own x) /\ (forall x, own x -> x < length (heap w)).

(** What the environment may start with, for the store [this] of [w]:
    cells of the heap that no entry of the history reaches. *)
Definition outside_history (this : nat) (w : World) (own : loc -> Prop) : Prop :=
  forall x, own x ->
    x < length (heap w) /\
    forall s snapshot, instances w !! this = Some s -> snapshot ∈ previousStates s ->
                       ~ reaches (heap w) snapshot x.

(** ** The registry *)

(** The name each instance of the array has. *)
Definition names_of (w : World) (stores : list nat) : list string :=
  omap (fun store => name <$> instances w !! store) stores.

(** ** What a failed call reports *)

(** What [throwError] prints of the value [v] it is given to dump: [v],
    unless [v] is [undefined], for which the parameter's default stands
    in, or is the default's own string. *)
Definition dumped (v : val) : list event :=
  if bool_decide (v = VUndef \/ v = VStr "varToDumpNotReceived")
  then [] else [console_error (DItem (Value v))].

(** The complaint of the first check of [validateArguments] that fails,
    in the order the source makes them. *)
Definition complaint (h : list cell) (name initialState logStateToConsole : val)
    (n : num) : option (string * val) :=
  if negb (nonempty_string name)
  then Some ("Store name should be a non-empty string.", name)
  else if negb (isObject h initialState)
  then Some ("State must be an object.", initialState)
  else if negb (is_boolean logStateToConsole)
  then Some ("When indicating whether to log state to console you should pass a boolean value.",
             logStateToConsole)
  else if isNaN n || num_ltb n (Fin 1)
  then Some ("When indicating how many previous versions of state to keep you should pass a number > 0.",
             VNum n)
  else None.

(** How long a history of depth [n] is when [len] entries are offered
    to it: all of them, or as many as the integer part of [n]. *)
Definition capacity (n : num) (len : nat) : nat :=
  match n with
  | PosInf => len
  | Fin q => Nat.min len (Z.to_nat (Qnum q / Zpos (Qden q)))
  | _ => 0
  end.

(** The event is a call of [v]'s [setState]. *)
Definition calls (v : val) (e : event) : Prop :=
  match e with
  | setState_call subscriber _ _ _ _ => subscriber = v
  | _ => False
  end.

(** ** A component and the stores it is attached to *)

(** The world with [this] added at the end of the subscribers of every
    store of [targets]. *)
Definition attach (this : val) (targets : list nat) (w : World) : World :=
  set_instances
    (foldl (fun stores store =>
              alter (fun s => set_subscribers (subscribers s ++ [this]) s) store stores)
           (instances w) targets)
    w.

(** [this] can be attached to every store of [targets]: each is an
    instance, and [this] is not among its subscribers. *)
Definition attachable (this : val) (targets : list nat) (w : World) : Prop :=
  Forall (fun store => exists s, instances w !! store = Some s /\
                                 present this (subscribers s) = false) targets.

(** The registry [stores] leads from each of the names to the store at
    the same place in [targets]. *)
Definition named (stores : gmap string nat) (names : list string)
    (targets : list nat) : Prop :=
  Forall2 (fun storeName store => stores !! storeName = Some store) names targets.

(** ** Callbacks that leave the store alone *)

(** An object as an object literal makes it: [__proto__] is not a key of
    its own. (For that one key [Object.assign] and an assignment go
    through the setter of the prototype and make no property.) *)
Definition plain (props : gmap string val) : Prop := props !! "__proto__" = None.

(** The event is a call that the store [this] made. *)
Definition by_store (this : nat) (e : event) : bool :=
  match e with
  | setState_call _ _ store _ _ => Nat.eqb store this
  | _ => false
  end.

(** The calls that the store [this] made, in order. *)
Fixpoint own_calls (this : nat) (t : list event) : list event :=
  match t with
  | [] => []
  | e :: t => if by_store this e then e :: own_calls this t else own_calls this t
  end.

(** What the loop of [setStoreState] relies on: the [setState] of a
    subscriber of the store [this], run for that store, comes to its
    end, and leaves as they are the fields of the store, its state
    object and the objects of its subscribers; it adds to the trace
    only, and no call made by the store (it does not call
    [setStoreState] on it). *)
Definition undisturbed (run : nat -> val -> nat -> M unit) (this : nat) : Prop :=
  forall w s l props f b,
    instances w !! this = Some s ->
    VRef l ∈ subscribers s ->
    heap w !! l = Some (CObj props) ->
    props !! "setState" = Some (VFun f b) ->
    exists w' t,
      run f (VRef l) this w = (Return tt, w') /\
      instances w' !! this = Some s /\
      heap w' !! state s = heap w !! state s /\
      (forall l', VRef l' ∈ subscribers s -> heap w' !! l' = heap w !! l') /\
      trace w' = trace w ++ t /\
      own_calls this t = [].

(** The store record [s] of [this], the cell [c] of its state object
    and the cells of its subscribers as the heap [h0] has them are all
    in place in [w]. *)
Definition settled (this : nat) (s : Store) (c : cell) (h0 : list cell) (w : World) : Prop :=
  instances w !! this = Some s /\
  heap w !! state s = Some c /\
  forall l, VRef l ∈ subscribers s -> heap w !! l = h0 !! l.

(** Who a call is made to, and the state it is shown. *)
Definition told (e : event) : option (val * option cell) :=
  match e with
  | setState_call subscriber _ _ _ seen => Some (subscriber, seen)
  | _ => None
  end.

(** * Worlds to run the program in *)

(** Coercions to run the constructor with: no string and no object
    converts to a number. *)
Definition no_number : string -> num := fun _ => NaN.
Definition no_number_of_object : list cell -> loc -> num := fun _ _ => NaN.

(** ** A counter

    One store named "counter" whose state object is cell 0, two
    components (cells 1 and 2) subscribed to it, an object to merge
    (cell 3), a component whose [setState] throws (cell 4), and an empty
    object (cell 5). *)

Definition counter_heap : list cell :=
  [ CObj {[ "count" := VNum (Fin 0) ]};
    CObj {[ "setState" := VFun 1 Returns ]};
    CObj {[ "setState" := VFun 2 Returns ]};
    CObj {[ "count" := VNum (Fin 1) ]};
    CObj {[ "setState" := VFun 3 Throws ]};
    CObj ∅ ].

Definition counter_store : Store :=
  mkStore "counter" 0 [] [VRef 1; VRef 2] true (Fin 15).

Definition counter_world : World :=
  mkWorld counter_heap [counter_store] None [] [].

(** The same store with the throwing component subscribed second. *)
Definition interrupted_store : Store :=
  mkStore "counter" 0 [] [VRef 1; VRef 4; VRef 2] true (Fin 15).

Definition interrupted_world : World :=
  mkWorld counter_heap [interrupted_store] None [] [].

(** A second store, built by the constructor on cell 3 with the defaults,
    then set to cell 3 again, then to the empty object. *)
Definition counter_again : outcome nat * World :=
  new_Store no_number no_number_of_object (VStr "again") (VRef 3) VUndef VUndef
            counter_world.

Definition counter_again_updated : World :=
  (setStoreState 1 (VRef 3) counter_again.2).2.

Definition counter_again_later : World :=
  (setStoreState 1 (VRef 5) counter_again_updated).2.

Definition counter_again_store : Store :=
  default counter_store (instances counter_again_updated !! 1).

(** ** A nested state

    A store "profile" is built on [{user: {name: "ann"}}] (cells 0 and
    1), then set to [{user: {name: "bob"}}] (cells 2 and 3): the state
    object (cell 4) now shares cell 3 with the object it was given.  The
    environment then writes "eve" into cell 1 and into cell 3, and the
    state is set once more. *)
Definition profile_heap : list cell :=
  [ CObj {[ "user" := VRef 1 ]};
    CObj {[ "name" := VStr "ann" ]};
    CObj {[ "user" := VRef 3 ]};
    CObj {[ "name" := VStr "bob" ]} ].

Definition profile_world : World := mkWorld profile_heap [] None [] [].

Definition profile_built : outcome nat * World :=
  new_Store no_number no_number_of_object (VStr "profile") (VRef 0) VUndef VUndef
            profile_world.

Definition profile_updated : World :=
  (setStoreState 0 (VRef 2) profile_built.2).2.

Definition profile_renamed : World :=
  set_heap (<[1 := CObj {[ "name" := VStr "eve" ]}]> (heap profile_updated))
           profile_updated.

Definition profile_rewritten : World :=
  set_heap (<[3 := CObj {[ "name" := VStr "eve" ]}]> (heap profile_renamed))
           profile_renamed.

Definition profile_later : World :=
  (setStoreState 0 (VRef 2) profile_rewritten).2.

Definition profile_store : Store :=
  default counter_store (instances profile_updated !! 0).

(** ** Registries

    A registry is published; two stores have the same name "a". *)
Definition registry_world : World :=
  mkWorld [CObj ∅; CObj ∅]
          [mkStore "a" 0 [] [] false (Fin 15); mkStore "a" 1 [] [] false (Fin 15)]
          (Some {[ "a" := 0 ]}) [] [].

(** Two stores of different names, and a registry published before. *)
Definition two_stores_world : World :=
  mkWorld [CObj ∅; CObj ∅]
          [mkStore "a" 0 [] [] false (Fin 15); mkStore "b" 1 [] [] false (Fin 15)]
          (Some {[ "old" := 7 ]}) [] [].

(** ** A mounted component

    The store "testStore" with state [{counter: 0}] (cell 0) is
    registered; the component is cell 1 and the array of store names it
    was wrapped with is cell 2. *)
Definition test_world : World :=
  mkWorld [ CObj {[ "counter" := VNum (Fin 0) ]};
            CObj {[ "setState" := VFun 1 Returns ]};
            CArr [VStr "testStore"] ]
          [mkStore "testStore" 0 [] [] false (Fin 15)]
          (Some {[ "testStore" := 0 ]}) [] [].

Definition test_world_mounted : World :=
  (subscribeToStores (VRef 1) (VRef 2) test_world).2.

(** ** The counter, end to end

    A store "counter" is built on [{count: 0}] (cell 0); the component of
    cell 1 subscribes; the state is set to [{count: 1}] (cell 2) and then
    to [{count: 2}] (cell 3); the component unsubscribes; the state is
    set to [{count: 3}] (cell 4). *)

Definition scenario_world : World :=
  mkWorld [ CObj {[ "count" := VNum (Fin 0) ]};
            CObj {[ "setState" := VFun 1 Returns ]};
            CObj {[ "count" := VNum (Fin 1) ]};
            CObj {[ "count" := VNum (Fin 2) ]};
            CObj {[ "count" := VNum (Fin 3) ]} ]
          [] None [] [].

Definition scenario : M nat :=
  counter <- new_Store no_number no_number_of_object
                       (VStr "counter") (VRef 0) VUndef VUndef ;;
  subscribe counter (VRef 1) ;;;
  setStoreState counter (VRef 2) ;;;
  setStoreState counter (VRef 3) ;;;
  unsubscribe counter (VRef 1) ;;;
  setStoreState counter (VRef 4) ;;;
  ret counter.

(** ** A short history

    A store whose history depth is 1.5 and whose history holds one
    entry. *)
Definition half_world : World :=
  mkWorld counter_heap [mkStore "half" 0 [VRef 5] [] false (Fin (3 # 2))] None [] [].

(** ** A component and two stores

    The stores "a" and "b" (state objects: cells 0 and 1) are in the
    registry; the component is cell 2; cell 3 is the array
    [['a', 'c', 'b']], in which "c" names no store, and cell 4 the array
    [['a', 'b']]. *)
Definition listing_world : World :=
  mkWorld [ CObj ∅; CObj ∅;
            CObj {[ "setState" := VFun 1 Returns ]};
            CArr [VStr "a"; VStr "c"; VStr "b"];
            CArr [VStr "a"; VStr "b"] ]
          [mkStore "a" 0 [] [] false (Fin 15); mkStore "b" 1 [] [] false (Fin 15)]
          (Some {[ "a" := 0; "b" := 1 ]}) [] [].

(** ** One subscriber

    The counter store without logging, the component of cell 1 being
    its only subscriber. *)
Definition test_subscribed : World :=
  mkWorld counter_heap [mkStore "counter" 0 [] [VRef 1] false (Fin 15)] None [] [].

(** ** A name that comes twice

    Two stores both named "a", a registry published before, the
    component of cell 2 and the array [['a']] (cell 3). *)
Definition twice_world : World :=
  mkWorld [ CObj ∅; CObj ∅;
            CObj {[ "setState" := VFun 1 Returns ]};
            CArr [VStr "a"] ]
          [mkStore "a" 0 [] [] false (Fin 15); mkStore "a" 1 [] [] false (Fin 15)]
          (Some {[ "a" := 0 ]}) [] [].

(** ** Callbacks

    What the functions of the counter world may do when a store calls
    them. *)

(** Every function prints its number, and touches nothing. *)
Definition chatty : nat -> val -> nat -> M unit :=
  fun f subscriber this => modify (emit (console_log "called" (VNum (of_nat f)))).

(** Function 1 unsubscribes the component it is called on from the store
    that calls it; the other functions do nothing. *)
Definition leaving : nat -> val -> nat -> M unit :=
  fun f subscriber this => if Nat.eqb f 1 then unsubscribe this subscriber else ret tt.

(** Function 1 writes [count = 5] into the state object of the store
    that calls it; the other functions do nothing. *)
Definition scribbling : nat -> val -> nat -> M unit :=
  fun f subscriber this =>
    if Nat.eqb f 1
    then s <- read this ;;
         h <- gets heap ;;
         modify (set_heap (<[state s := CObj {[ "count" := VNum (Fin 5) ]}]> h))
    else ret tt.

(** Function 1 takes the [setState] of the component of cell 2 away;
    the other functions do nothing. *)
Definition disabling : nat -> val -> nat -> M unit :=
  fun f subscriber this =>
    if Nat.eqb f 1
    then h <- gets heap ;; modify (set_heap (<[2 := CObj ∅]> h))
    else ret tt.

(** ** A history that is full

    A second store, built by the constructor on cell 3 with a history
    depth of 2, then set to cell 3 again: the history is full. *)
Definition capped : outcome nat * World :=
  new_Store no_number no_number_of_object (VStr "capped") (VRef 3) VUndef (VNum (Fin 2))
            counter_world.

Definition capped_full : World :=
  (setStoreState 1 (VRef 3) capped.2).2.

(** * Properties *)

(** ** Heaps: regions, closedness, and what [clone] guarantees *)

Lemma reify_prim d h h' v :
  (forall l, v <> VRef l) -> reify d h v = reify d h' v.
Proof.
  intros Hv. destruct d as [|d]; [done|].
  destruct v; simpl; try done. by destruct (Hv l).
Qed.

(** Reading a value never leaves the region it starts in. *)
Lemma reify_frame P h h' d v :
  region P h ->
  (forall l, P l -> h' !! l = h !! l) ->
  val_in P v ->
  reify d h' v = reify d h v.
Proof.
  intros Hreg Hsame. revert v.
  induction d as [|d IH]; intros v Hv; [done|].
  destruct v as [| | | | |l|]; simpl; try done.
  simpl in Hv. rewrite (Hsame l Hv).
  destruct (Hreg l Hv) as (c & -> & Hc).
  destruct c as [props|elems]; simpl in Hc; f_equal.
  - apply map_fmap_ext. intros k v Hk. apply IH. by apply (Hc k).
  - apply Forall_fmap_ext. eapply Forall_impl; [exact Hc|]. intros v Hv'. by apply IH.
Qed.

Lemma region_weaken (P : loc -> Prop) h ext :
  region P h -> region P (h ++ ext).
Proof.
  intros Hreg l Hl. destruct (Hreg l Hl) as (c & Hc & Hin).
  exists c. split; [|done]. by apply lookup_app_l_Some.
Qed.

(** Reading a value meets only cells of the region it starts in. *)
Lemma reaches_region (N : loc -> Prop) h v l :
  region N h -> val_in N v -> reaches h v l -> N l.
Proof.
  intros Hreg Hv Hreach. induction Hreach as [l|l props k v l' Hl Hk _ IH|l elems i v l' Hl Hi _ IH].
  - done.
  - apply IH. destruct (Hreg l Hv) as (c & Hc & Hin).
    rewrite Hl in Hc. injection Hc as <-. by apply (Hin k).
  - apply IH. destruct (Hreg l Hv) as (c & Hc & Hin).
    rewrite Hl in Hc. injection Hc as <-. simpl in Hin.
    rewrite Forall_forall in Hin. apply Hin. by eapply list_elem_of_lookup_2.
Qed.

Lemma val_in_impl (P Q : loc -> Prop) v :
  (forall l, P l -> Q l) -> val_in P v -> val_in Q v.
Proof. destruct v; simpl; auto. Qed.

Lemma cell_in_impl (P Q : loc -> Prop) c :
  (forall l, P l -> Q l) -> cell_in P c -> cell_in Q c.
Proof.
  intros HPQ. destruct c as [props|elems]; simpl.
  - intros H k v Hk. eapply val_in_impl; [exact HPQ|]. by apply (H k).
  - intros H. eapply Forall_impl; [exact H|]. intros v. by apply val_in_impl.
Qed.

Lemma shift_val_in n (P : loc -> Prop) v :
  val_in P v -> val_in (fun l => exists l', l = n + l' /\ P l') (shift_val n v).
Proof. destruct v; simpl; eauto. Qed.

Lemma shift_cell_in n (P : loc -> Prop) c :
  cell_in P c -> cell_in (fun l => exists l', l = n + l' /\ P l') (shift_cell n c).
Proof.
  destruct c as [props|elems]; simpl.
  - intros H k v. rewrite lookup_fmap. intros Hk.
    destruct (props !! k) as [v0|] eqn:E; simplify_eq/=.
    apply shift_val_in. by apply (H k).
  - intros H. apply Forall_fmap. eapply Forall_impl; [exact H|].
    intros v. apply shift_val_in.
Qed.

Lemma twin_lookup (h : list cell) l :
  (h ++ (shift_cell (length h) <$> h)) !! (length h + l)
  = shift_cell (length h) <$> (h !! l).
Proof.
  rewrite lookup_app_r by lia.
  replace (length h + l - length h) with l by lia.
  apply list_lookup_fmap.
Qed.

(** The twins form a region of their own, apart from the cells that
    were there before. *)
Lemma twins_region h :
  heap_closed h ->
  region (fun l => length h <= l < length h + length h)
         (h ++ (shift_cell (length h) <$> h)).
Proof.
  intros Hc l [Hlo Hhi].
  replace l with (length h + (l - length h)) by lia.
  rewrite twin_lookup.
  destruct (Hc (l - length h) ltac:(simpl; lia)) as (c & -> & Hin).
  exists (shift_cell (length h) c). split; [done|].
  eapply cell_in_impl; [|by apply shift_cell_in].
  simpl. intros ? (l' & -> & ?). lia.
Qed.

Lemma twin_reify h d v :
  heap_closed h ->
  val_in (fun l => l < length h) v ->
  reify d (h ++ (shift_cell (length h) <$> h)) (shift_val (length h) v) = reify d h v.
Proof.
  intros Hc. revert v. induction d as [|d IH]; intros v Hv; [done|].
  destruct v as [| | | | |l|]; simpl; try done.
  simpl in Hv. rewrite twin_lookup.
  destruct (Hc l Hv) as (c & -> & Hin).
  destruct c as [props|elems]; simpl in *; f_equal.
  - rewrite <- map_fmap_compose. apply map_fmap_ext.
    intros k v Hk. apply IH. by apply (Hin k).
  - rewrite <- list_fmap_compose. apply Forall_fmap_ext.
    eapply Forall_impl; [exact Hin|]. intros v Hv'. by apply IH.
Qed.

(** What [clone] guarantees of an object in a closed heap: the heap only
    grows, the copy reads like the original, and the copy lies in a
    region made of new locations only. *)
Lemma clone_spec h l :
  heap_closed h -> l < length h ->
  exists l' ext,
    clone h (VRef l) = (VRef l', h ++ ext) /\
    deep_equal (h ++ ext) (VRef l') h (VRef l) /\
    heap_closed (h ++ ext) /\
    exists N : loc -> Prop,
      N l' /\ (forall x, N x -> length h <= x) /\ region N (h ++ ext).
Proof.
  intros Hc Hl.
  exists (length h + l), (shift_cell (length h) <$> h). split; [done|].
  split; [|split].
  - intros d. by apply (twin_reify h d (VRef l)).
  - intros x Hx. rewrite length_app, length_fmap in Hx.
    destruct (decide (x < length h)) as [Hlt|Hge].
    + destruct (Hc x Hlt) as (c & Hlk & Hin). exists c. split.
      * by apply lookup_app_l_Some.
      * eapply cell_in_impl; [|exact Hin]. simpl. intros.
        rewrite length_app, length_fmap. lia.
    + destruct (twins_region h Hc x) as (c & Hlk & Hin); [lia|].
      exists c. split; [done|].
      eapply cell_in_impl; [|exact Hin]. simpl. intros.
      rewrite length_app, length_fmap. lia.
  - exists (fun x => length h <= x < length h + length h).
    split; [lia|]. split; [lia|]. by apply twins_region.
Qed.

(** ** Numbers: what the validation of the history depth leaves *)

Lemma Qltb_inject q z :
  Qltb q (inject_Z z) = (Qnum q <? z * Zpos (Qden q))%Z.
Proof.
  unfold Qltb, Qle_bool. simpl. rewrite Z.mul_1_r.
  by rewrite Z.ltb_antisym.
Qed.

Lemma Qltb_1 q : Qltb q 1 = (Qnum q <? Zpos (Qden q))%Z.
Proof. change 1%Q with (inject_Z 1). rewrite Qltb_inject. by rewrite Z.mul_1_l. Qed.

Lemma quot_bounds a b :
  (0 < b)%Z -> (b <= a)%Z ->
  (1 <= Z.quot a b /\ Z.quot a b * b <= a < (Z.quot a b + 1) * b)%Z.
Proof.
  intros Hb Ha. rewrite Z.quot_div_nonneg by lia.
  pose proof (Z.mul_div_le a b Hb).
  pose proof (Z.mul_succ_div_gt a b Hb).
  assert (1 <= a / b)%Z by (apply Z.div_le_lower_bound; lia).
  lia.
Qed.

Lemma keep_take {A} n (l : list A) : exists k, keep n l = take k l.
Proof.
  unfold keep. destruct (num_ltb _ _).
  - destruct n; simpl; eauto. exists (length l). by rewrite firstn_all.
  - exists (length l). by rewrite firstn_all.
Qed.

Lemma keep_within {A} n (l : list A) : depth_ok n -> within n (keep n l).
Proof.
  intros [Hnan H1]. unfold keep, within.
  destruct (num_ltb n (of_nat (length l))) eqn:E; [|done].
  destruct n as [| | |q]; simpl in *; try done.
  rewrite Qltb_1 in H1. rewrite Qltb_inject in E |- *.
  apply Z.ltb_ge in H1. apply Z.ltb_lt in E. apply Z.ltb_ge.
  destruct (quot_bounds (Qnum q) (Zpos (Qden q))) as (Hq1 & Hq2 & Hq3); [lia..|].
  set (z := Z.quot (Qnum q) (Zpos (Qden q))) in *.
  destruct (z <? 0)%Z eqn:Hz; [lia|].
  rewrite length_take. nia.
Qed.

(** Nothing is dropped that fits. *)
Lemma keep_most {A} n (l : list A) :
  depth_ok n ->
  keep n l = l \/ num_ltb n (of_nat (S (length (keep n l)))) = true.
Proof.
  intros [Hnan H1]. unfold keep.
  destruct (num_ltb n (of_nat (length l))) eqn:E; [right|by left].
  destruct n as [| | |q]; simpl in *; try done.
  rewrite Qltb_1 in H1. rewrite Qltb_inject in E |- *.
  apply Z.ltb_ge in H1. apply Z.ltb_lt in E. apply Z.ltb_lt.
  destruct (quot_bounds (Qnum q) (Zpos (Qden q))) as (Hq1 & Hq2 & Hq3); [lia..|].
  set (z := Z.quot (Qnum q) (Zpos (Qden q))) in *.
  destruct (z <? 0)%Z eqn:Hz; [lia|].
  rewrite length_take. nia.
Qed.

(** The newest entry is never the one dropped. *)
Lemma keep_head {A} n (x : A) (l : list A) :
  depth_ok n -> exists l', keep n (x :: l) = x :: l'.
Proof.
  intros Hn. destruct (keep_take n (x :: l)) as [k Hk].
  destruct k as [|k]; [|rewrite Hk; simpl; eauto].
  destruct (keep_most n (x :: l) Hn) as [H|H]; [rewrite H; eauto|].
  rewrite Hk in H. simpl in H. destruct Hn as [Hnan H1].
  change (of_nat 1) with (Fin 1) in H. congruence.
Qed.

Lemma keep_one {A} n (x : A) : depth_ok n -> keep n [x] = [x].
Proof.
  intros Hn. destruct (keep_head n x [] Hn) as [l' Hl'].
  destruct (keep_take n [x]) as [k Hk]. rewrite Hl'. rewrite Hk in Hl'.
  destruct k; simpl in Hl'; [done|]. rewrite take_nil in Hl'. congruence.
Qed.

(** ** Running the operations *)

Lemma bind_return {A B} (m : M A) (k : A -> M B) w a w1 :
  m w = (Return a, w1) -> bind m k w = k a w1.
Proof. unfold bind. by intros ->. Qed.

Lemma bind_throw {A B} (m : M A) (k : A -> M B) w e w1 :
  m w = (Throw e, w1) -> bind m k w = (Throw e, w1).
Proof. unfold bind. by intros ->. Qed.

Lemma read_return w this s :
  instances w !! this = Some s -> read this w = (Return s, w).
Proof. unfold read. by intros ->. Qed.

Lemma alter_insert {A} (f : A -> A) (l : list A) i x :
  l !! i = Some x -> alter f i l = <[i := f x]> l.
Proof.
  intros Hi. apply list_eq. intros j.
  destruct (decide (i = j)) as [->|Hne].
  - rewrite list_lookup_alter_eq, Hi. simpl.
    by rewrite list_lookup_insert_eq by (by eapply lookup_lt_Some).
  - by rewrite list_lookup_alter_ne, list_lookup_insert_ne.
Qed.

Ltac step :=
  unfold bind, ret, gets, modify, throw; simpl.

Lemma addCurrentStateToPreviousStates_run w this s :
  instances w !! this = Some s ->
  addCurrentStateToPreviousStates this w = (Return tt, pushed this s w).
Proof.
  intros Hs. unfold addCurrentStateToPreviousStates, pushed.
  rewrite (bind_return _ _ _ _ _ (read_return _ _ _ Hs)).
  rewrite (bind_return _ _ w (heap w) w) by done.
  destruct (clone (heap w) (VRef (state s))) as [snapshot h'].
  assert (Hlt : this < length (instances w)) by (by eapply lookup_lt_Some).
  unfold update, keep, read. step.
  rewrite list_lookup_alter_eq, Hs. simpl.
  rewrite (alter_insert _ _ _ _ Hs).
  destruct (num_ltb _ _); step; [|done].
  unfold set_instances, set_heap. simpl. f_equal. f_equal.
  rewrite (alter_insert _ _ this (set_previousStates (snapshot :: previousStates s) s)).
  - by rewrite list_insert_insert_eq.
  - by rewrite list_lookup_insert_eq.
Qed.

Lemma add_trace_nil w : add_trace [] w = w.
Proof. destruct w. unfold add_trace. simpl. by rewrite app_nil_r. Qed.

Lemma add_trace_emit e t w : add_trace t (emit e w) = add_trace (e :: t) w.
Proof. unfold add_trace, emit. simpl. by rewrite <- app_assoc. Qed.

Lemma call_setState_returns w this s subscriber :
  instances w !! this = Some s ->
  responds (heap w) subscriber ->
  call_setState this subscriber w
  = (Return tt, emit (notification this s (heap w) subscriber) w).
Proof.
  intros Hs (l & props & f & -> & Hl & Hf).
  unfold call_setState, get_property, property, read. step. by rewrite Hl, Hf, Hs.
Qed.

(** When every subscriber responds, the loop calls each once, in the
    order of the list. *)
Lemma notify_all w this s subs :
  instances w !! this = Some s ->
  Forall (responds (heap w)) subs ->
  forEach subs (call_setState this) w
  = (Return tt, add_trace (notification this s (heap w) <$> subs) w).
Proof.
  intros Hs. revert w Hs. induction subs as [|x subs IH]; intros w Hs Hall.
  - simpl. by rewrite add_trace_nil.
  - inversion Hall as [|? ? Hx Hrest]; subst. simpl.
    rewrite (bind_return _ _ _ _ _ (call_setState_returns _ _ _ _ Hs Hx)).
    rewrite IH; [|done|done]. simpl. by rewrite add_trace_emit.
Qed.

Lemma validateNewState_accepts w newState :
  isObject (heap w) newState = true -> validateNewState newState w = (Return tt, w).
Proof. unfold validateNewState. step. by intros ->. Qed.

Lemma validateNewState_rejects w newState :
  isObject (heap w) newState = false ->
  validateNewState newState w
  = (Throw (Error "whitelodge | State must be an object."),
     if received (DItem (Value newState))
     then emit (console_error (DItem (Value newState))) w else w).
Proof.
  unfold validateNewState, throwError. step. intros ->. simpl.
  by destruct (received _).
Qed.

(** [setStoreState] up to the notification loop. *)
Lemma setStoreState_run w this s old l new snapshot ext :
  instances w !! this = Some s ->
  heap w !! state s = Some (CObj old) ->
  heap w !! l = Some (CObj new) ->
  clone (heap w) (VRef (state s)) = (snapshot, heap w ++ ext) ->
  setStoreState this (VRef l) w
  = (forEach (subscribers s) (call_setState this) ;;; doLogStateToConsole this)
      (merged_world w this s (heap w ++ ext) (new ∪ old)
         (keep (numberOfPreviousStatesToKeep s) (snapshot :: previousStates s))).
Proof.
  intros Hs Hst Hl Hclone.
  unfold setStoreState.
  assert (Hobj : isObject (heap w) (VRef l) = true) by (unfold isObject; by rewrite Hl).
  rewrite (bind_return _ _ _ _ _ (validateNewState_accepts _ _ Hobj)).
  rewrite (bind_return _ _ _ _ _ (addCurrentStateToPreviousStates_run _ _ _ Hs)).
  unfold pushed. rewrite Hclone.
  assert (Hthis : this < length (instances w)) by (by eapply lookup_lt_Some).
  unfold read at 1. step. rewrite list_lookup_insert_eq by done. simpl.
  unfold Object_assign. step.
  rewrite (lookup_app_l_Some _ _ _ _ Hst). simpl.
  rewrite (lookup_app_l_Some _ _ _ _ Hl).
  unfold read at 1. simpl. rewrite list_lookup_insert_eq by done. simpl.
  done.
Qed.

Lemma doLogStateToConsole_run w this s :
  instances w !! this = Some s ->
  doLogStateToConsole this w
  = (Return tt,
     add_trace (if logStateToConsole s
                then [console_log (logPrefix +:+ name s +:+ " | ") (VRef (state s))]
                else []) w).
Proof.
  intros Hs. unfold doLogStateToConsole.
  rewrite (bind_return _ _ _ _ _ (read_return _ _ _ Hs)).
  destruct (logStateToConsole s); step.
  - done.
  - by rewrite add_trace_nil.
Qed.

Lemma add_trace_add_trace t1 t2 w :
  add_trace t2 (add_trace t1 w) = add_trace (t1 ++ t2) w.
Proof. unfold add_trace. simpl. by rewrite app_assoc. Qed.

(** Writing to an old cell does not change what is read inside a region
    of new cells. *)
Lemma reify_new_region (N : loc -> Prop) (h h' : list cell) st c d v :
  region N h' -> (forall x, N x -> length h <= x) -> st < length h ->
  val_in N v ->
  reify d (<[st := c]> h') v = reify d h' v.
Proof.
  intros Hreg Hnew Hst Hv. apply (reify_frame N); [done| |done].
  intros x Hx. apply list_lookup_insert_ne. specialize (Hnew x Hx). lia.
Qed.

Lemma responds_app (h ext : list cell) st c subscriber :
  st < length h ->
  responds (<[st := c]> h) subscriber ->
  responds (<[st := c]> (h ++ ext)) subscriber.
Proof.
  intros Hst (l & props & f & -> & Hl & Hf). exists l, props, f.
  split; [done|]. split; [|done].
  rewrite insert_app_l by done. by apply lookup_app_l_Some.
Qed.

(** The whole of a [setStoreState] that every subscriber lets return. *)
Lemma setStoreState_returns w this s old l new :
  instances w !! this = Some s ->
  heap w !! state s = Some (CObj old) ->
  heap w !! l = Some (CObj new) ->
  heap_closed (heap w) ->
  Forall (responds (<[state s := CObj (new ∪ old)]> (heap w))) (subscribers s) ->
  exists l' ext (N : loc -> Prop),
    deep_equal (heap w ++ ext) (VRef l') (heap w) (VRef (state s)) /\
    heap_closed (heap w ++ ext) /\
    N l' /\ (forall x, N x -> length (heap w) <= x) /\ region N (heap w ++ ext) /\
    let history :=
      keep (numberOfPreviousStatesToKeep s) (VRef l' :: previousStates s) in
    let w2 := merged_world w this s (heap w ++ ext) (new ∪ old) history in
    setStoreState this (VRef l) w
    = (Return tt,
       add_trace ((notification this (set_previousStates history s) (heap w2)
                     <$> subscribers s) ++ log_entry s) w2).
Proof.
  intros Hs Hst Hl Hc Hsubs.
  assert (Hlt : state s < length (heap w)) by (by eapply lookup_lt_Some).
  assert (Hthis : this < length (instances w)) by (by eapply lookup_lt_Some).
  destruct (clone_spec _ _ Hc Hlt) as (l' & ext & Hclone & Heq & Hc' & N & HN & Hnew & Hreg).
  exists l', ext, N. do 5 (split; [done|]). intros history w2.
  rewrite (setStoreState_run _ _ _ _ _ _ _ _ Hs Hst Hl Hclone).
  fold history. fold w2.
  assert (Hs2 : instances w2 !! this = Some (set_previousStates history s)).
  { unfold w2, merged_world. simpl. by apply list_lookup_insert_eq. }
  assert (Hall : Forall (responds (heap w2)) (subscribers s)).
  { eapply Forall_impl; [exact Hsubs|]. intros x. by apply responds_app. }
  rewrite (bind_return _ _ _ _ _ (notify_all _ _ _ _ Hs2 Hall)).
  rewrite doLogStateToConsole_run with (s := set_previousStates history s) by done.
  by rewrite add_trace_add_trace.
Qed.

(** ** The loop of [setStoreState] when the callbacks run code *)

Lemma own_calls_app this t1 t2 :
  own_calls this (t1 ++ t2) = own_calls this t1 ++ own_calls this t2.
Proof.
  induction t1 as [|e t1 IH]; [done|]. simpl.
  destruct (by_store this e); simpl; by rewrite IH.
Qed.

Lemma own_calls_log this s : own_calls this (log_entry s) = [].
Proof. unfold log_entry. by destruct (logStateToConsole s). Qed.

Section LiveRun.

Variable run : nat -> val -> nat -> M unit.
Variable this : nat.
Hypothesis Hrun : undisturbed run this.
Variable s : Store.
Variable c : cell.
Variable h0 : list cell.

(** One call: it returns after exactly this call, or it throws, the call
    made or not; what is called is an object. *)
Lemma live_call_run w x :
  settled this s c h0 w ->
  x ∈ subscribers s ->
  exists r (made : bool) w' t,
    Live.call_setState run this x w = (r, w') /\
    settled this s c h0 w' /\
    trace w' = trace w ++ t /\
    own_calls this t
    = (if made then [setState_call x (name s) this s (Some c)] else []) /\
    (made = true -> exists l, x = VRef l) /\
    (r = Return tt -> made = true) /\
    (responds h0 x -> r = Return tt).
Proof.
  intros (Hs & Hst & Hsubs) Hx.
  assert (Hkeep : settled this s c h0 w) by done.
  unfold Live.call_setState.
  destruct x as [| | | | |l|].
  1,2: exists (Throw TypeError), false, w, []; rewrite app_nil_r;
       do 6 (split; [done|]); by intros (? & ? & ? & ? & _).
  1,2,3,5: unfold get_property, property, read; step; rewrite Hs; simpl;
       exists (Throw TypeError), false, w, []; rewrite app_nil_r;
       do 6 (split; [done|]); by intros (? & ? & ? & ? & _).
  unfold get_property, property, read. step. rewrite (Hsubs l Hx), Hs. simpl.
  destruct (h0 !! l) as [[props|]|] eqn:Hl; simpl.
  2,3: exists (Throw TypeError), false, w, []; rewrite app_nil_r;
       do 6 (split; [done|]);
       intros (? & ? & ? & [= <-] & Hl' & _); by rewrite Hl in Hl'.
  destruct (props !! "setState") as [[| | | | | |f b]|] eqn:Hf; simpl.
  1,2,3,4,5,6,8: exists (Throw TypeError), false, w, []; rewrite app_nil_r;
       do 6 (split; [done|]);
       intros (? & ? & ? & [= <-] & Hl' & Hf'); rewrite Hl in Hl';
       injection Hl' as <-; by rewrite Hf in Hf'.
  set (e := setState_call (VRef l) (name s) this s (heap w !! state s)).
  assert (Hl1 : heap (emit e w) !! l = Some (CObj props)).
  { simpl. by rewrite (Hsubs l Hx). }
  destruct (Hrun (emit e w) s l props f b Hs Hx Hl1 Hf)
    as (w1 & t & Hcall & Hs1 & Hst1 & Hsubs1 & Htrace & Hown).
  rewrite Hcall. simpl in Hst1, Htrace.
  assert (Hsettled : settled this s c h0 w1).
  { split; [done|]. split; [by rewrite Hst1|].
    intros l' Hl'. rewrite (Hsubs1 l' Hl'). simpl. by apply Hsubs. }
  assert (Hcalls : own_calls this ([e] ++ t) = [setState_call (VRef l) (name s) this s (Some c)]).
  { rewrite own_calls_app, Hown. simpl. rewrite Nat.eqb_refl. unfold e. by rewrite Hst. }
  destruct b.
  - exists (Return tt), true, w1, ([e] ++ t). split; [done|]. split; [done|].
    split; [by rewrite Htrace, <- app_assoc|]. split; [done|].
    split; [by eexists|done].
  - exists (Throw (Thrown f)), true, w1, ([e] ++ t). split; [done|]. split; [done|].
    split; [by rewrite Htrace, <- app_assoc|]. split; [done|].
    split; [by eexists|]. split; [done|].
    intros (? & ? & ? & [= <-] & Hl' & Hf'). rewrite Hl in Hl'.
    injection Hl' as <-. by rewrite Hf in Hf'.
Qed.

(** The loop: the subscribers from the index [k] on are called one
    after the other, as many as the loop gets to; all that it is left
    to visit when each of them returns. *)
Lemma live_notify_run remaining : forall k w,
  settled this s c h0 w ->
  exists r j w' t,
    Live.notify run this k remaining w = (r, w') /\
    settled this s c h0 w' /\
    trace w' = trace w ++ t /\
    own_calls this t
    = (fun x => setState_call x (name s) this s (Some c))
        <$> take j (drop k (subscribers s)) /\
    Forall (fun x => exists l, x = VRef l) (take j (drop k (subscribers s))) /\
    (Forall (responds h0) (subscribers s) -> r = Return tt /\ j = remaining).
Proof.
  induction remaining as [|remaining IH]; intros k w Hw.
  - exists (Return tt), 0, w, []. rewrite app_nil_r. split; [done|]. split; [done|].
    rewrite take_0. by repeat split.
  - simpl. destruct Hw as (Hs & Hst & Hsubs).
    assert (Hw : settled this s c h0 w) by done.
    rewrite (bind_return _ _ _ _ _ (read_return _ _ _ Hs)).
    destruct (subscribers s !! k) as [x|] eqn:Hk.
    + assert (Hx : x ∈ subscribers s) by (by eapply list_elem_of_lookup_2).
      destruct (live_call_run w x Hw Hx)
        as (r1 & made & w1 & t1 & Hcall & Hw1 & Htrace1 & Hown1 & Href & Hmade & Hresp).
      assert (Hdrop : drop k (subscribers s) = x :: drop (S k) (subscribers s)).
      { by apply drop_S. }
      destruct r1 as [[]|e].
      * rewrite (bind_return _ _ _ _ _ Hcall).
        rewrite (Hmade eq_refl) in Hown1.
        destruct (IH (S k) w1 Hw1)
          as (r & j & w' & t & Hloop & Hw' & Htrace & Hown & Hrefs & Hall).
        exists r, (S j), w', (t1 ++ t). split; [done|]. split; [done|].
        split; [by rewrite Htrace, Htrace1, <- app_assoc|]. split.
        { by rewrite own_calls_app, Hown1, Hown, Hdrop. }
        split.
        { rewrite Hdrop. simpl. constructor; [|done]. by apply Href, Hmade. }
        intros Hresp'. destruct (Hall Hresp') as [-> ->]. done.
      * rewrite (bind_throw _ _ _ _ _ Hcall).
        exists (Throw e), (if made then 1 else 0), w1, t1.
        split; [done|]. split; [done|]. split; [done|]. split.
        { rewrite Hown1, Hdrop. by destruct made. }
        split.
        { rewrite Hdrop. destruct made; simpl; [|done].
          rewrite take_0. constructor; [|done]. by apply Href. }
        intros Hresp'. exfalso.
        assert (Hr : responds h0 x).
        { rewrite Forall_forall in Hresp'. by apply Hresp'. }
        by specialize (Hresp Hr).
    + rewrite (bind_return _ _ w tt w) by done.
      destruct (IH (S k) w Hw)
        as (r & j & w' & t & Hloop & Hw' & Htrace & Hown & Hrefs & Hall).
      assert (Hnil : forall i, drop i (subscribers s) = [] \/ i < k).
      { intros i. destruct (decide (i < k)) as [|Hge]; [by right|left].
        apply drop_ge. apply lookup_ge_None in Hk. lia. }
      exists r, (S j), w', t. split; [done|]. split; [done|]. split; [done|].
      destruct (Hnil k) as [Hk0|]; [|lia].
      destruct (Hnil (S k)) as [Hk1|]; [|lia].
      split; [by rewrite Hown, Hk0, Hk1, !take_nil|].
      split; [by rewrite Hk0, take_nil|].
      intros Hresp'. by destruct (Hall Hresp') as [-> ->].
Qed.

(** The loop and the log line after it, from the world in which the
    history is pushed and the state merged. *)
Lemma live_notify_all w :
  settled this s c h0 w ->
  Forall (responds h0) (subscribers s) ->
  exists w' t,
    (Live.notify run this 0 (length (subscribers s)) ;;; doLogStateToConsole this) w
    = (Return tt, w') /\
    settled this s c h0 w' /\
    trace w' = trace w ++ t ++ log_entry s /\
    own_calls this t
    = (fun x => setState_call x (name s) this s (Some c)) <$> subscribers s.
Proof.
  intros Hw Hall.
  destruct (live_notify_run (length (subscribers s)) 0 w Hw)
    as (r & j & w1 & t & Hloop & Hw1 & Htrace & Hown & _ & Hret).
  destruct (Hret Hall) as [-> ->].
  rewrite (bind_return _ _ _ _ _ Hloop).
  destruct Hw1 as (Hs1 & Hst1 & Hsubs1).
  rewrite (doLogStateToConsole_run _ _ _ Hs1).
  eexists _, t. split; [done|]. split; [done|]. split.
  - simpl. rewrite Htrace, <- app_assoc. done.
  - rewrite Hown. by rewrite drop_0, firstn_all.
Qed.

(** Whatever the subscribers do, the store calls none but them, and
    those only that are objects. *)
Lemma live_notify_any w :
  settled this s c h0 w ->
  exists r w' t j,
    (Live.notify run this 0 (length (subscribers s)) ;;; doLogStateToConsole this) w
    = (r, w') /\
    settled this s c h0 w' /\
    trace w' = trace w ++ t /\
    own_calls this t
    = (fun x => setState_call x (name s) this s (Some c)) <$> take j (subscribers s) /\
    Forall (fun x => exists l, x = VRef l) (take j (subscribers s)).
Proof.
  intros Hw.
  destruct (live_notify_run (length (subscribers s)) 0 w Hw)
    as (r & j & w1 & t & Hloop & Hw1 & Htrace & Hown & Hrefs & _).
  rewrite drop_0 in Hown, Hrefs.
  destruct r as [[]|e].
  - rewrite (bind_return _ _ _ _ _ Hloop).
    pose proof Hw1 as (Hs1 & Hst1 & Hsubs1).
    rewrite (doLogStateToConsole_run _ _ _ Hs1).
    eexists _, _, (t ++ log_entry s), j. split; [done|]. split; [done|]. split.
    + simpl. by rewrite Htrace, <- app_assoc.
    + split; [|done]. by rewrite own_calls_app, own_calls_log, app_nil_r.
  - rewrite (bind_throw _ _ _ _ _ Hloop).
    exists (Throw e), w1, t, j. split; [done|]. split; [done|]. split; [done|]. by split.
Qed.

End LiveRun.

(** [setStoreState] up to the notification loop, whatever the callbacks
    are. *)
Lemma live_setStoreState_run run w this s old l new snapshot ext :
  instances w !! this = Some s ->
  heap w !! state s = Some (CObj old) ->
  heap w !! l = Some (CObj new) ->
  clone (heap w) (VRef (state s)) = (snapshot, heap w ++ ext) ->
  Live.setStoreState run this (VRef l) w
  = (Live.notify run this 0 (length (subscribers s)) ;;; doLogStateToConsole this)
      (merged_world w this s (heap w ++ ext) (new ∪ old)
         (keep (numberOfPreviousStatesToKeep s) (snapshot :: previousStates s))).
Proof.
  intros Hs Hst Hl Hclone.
  unfold Live.setStoreState.
  assert (Hobj : isObject (heap w) (VRef l) = true) by (unfold isObject; by rewrite Hl).
  rewrite (bind_return _ _ _ _ _ (validateNewState_accepts _ _ Hobj)).
  rewrite (bind_return _ _ _ _ _ (addCurrentStateToPreviousStates_run _ _ _ Hs)).
  unfold pushed. rewrite Hclone.
  assert (Hthis : this < length (instances w)) by (by eapply lookup_lt_Some).
  unfold read at 1. step. rewrite list_lookup_insert_eq by done. simpl.
  unfold Object_assign. step.
  rewrite (lookup_app_l_Some _ _ _ _ Hst). simpl.
  rewrite (lookup_app_l_Some _ _ _ _ Hl).
  unfold read at 1. simpl. rewrite list_lookup_insert_eq by done. simpl.
  done.
Qed.

(** The world in which the history is pushed and the state merged is
    settled for the loop. *)
Lemma merged_world_settled w this s h' props history :
  this < length (instances w) ->
  state s < length h' ->
  settled this (set_previousStates history s) (CObj props)
          (<[state s := CObj props]> h')
          (merged_world w this s h' props history).
Proof.
  intros Hthis Hst. unfold merged_world. split; [|split].
  - simpl. by apply list_lookup_insert_eq.
  - simpl. by apply list_lookup_insert_eq.
  - done.
Qed.

(** With callbacks that do nothing before they return or throw, the
    loop over the live array is the loop over the array as it was. *)
Lemma notify_quiet this s : forall subs k w,
  instances w !! this = Some s ->
  drop k (subscribers s) = subs ->
  Live.notify (fun _ _ _ => ret tt) this k (length subs) w
  = forEach subs (call_setState this) w.
Proof.
  induction subs as [|x subs IH]; intros k w Hs Hdrop; [done|].
  simpl. rewrite (bind_return _ _ _ _ _ (read_return _ _ _ Hs)).
  assert (Hk : subscribers s !! k = Some x).
  { rewrite <- (Nat.add_0_r k), <- lookup_drop, Hdrop. done. }
  rewrite Hk.
  assert (Hnext : drop (S k) (subscribers s) = subs).
  { by rewrite (drop_S _ _ _ Hk) in Hdrop; injection Hdrop. }
  assert (Hsame : Live.call_setState (fun _ _ _ => ret tt) this x w = call_setState this x w).
  { unfold Live.call_setState, call_setState, bind.
    destruct (get_property x "setState" w) as [[f|e] w1]; [|done].
    destruct (read this w1) as [[s1|e] w2]; [|done].
    destruct f as [| | | | | |f b]; try done. }
  unfold bind at 1. rewrite Hsame. unfold bind.
  destruct (call_setState this x w) as [[[]|e] w1] eqn:Hcall; [|done].
  apply IH; [|done].
  assert (Hinst : instances w1 = instances w); [|by rewrite Hinst].
  revert Hcall. unfold call_setState, get_property, property, read. step.
  destruct x as [| | | | |l|]; simpl; rewrite ?Hs; simpl; try by intros [= <-].
  destruct (heap w !! l) as [[props|]|]; simpl; try by intros [= <-].
  destruct (props !! "setState") as [[| | | | | |f []]|]; simpl; by intros [= <-].
Qed.

Lemma setStoreState_quiet this newState w :
  Live.setStoreState (fun _ _ _ => ret tt) this newState w = setStoreState this newState w.
Proof.
  unfold Live.setStoreState, setStoreState, bind.
  destruct (validateNewState newState w) as [[[]|e] w1]; [|done].
  destruct (addCurrentStateToPreviousStates this w1) as [[[]|e] w2]; [|done].
  destruct (read this w2) as [[s1|e] w3]; [|done].
  destruct (Object_assign (state s1) newState w3) as [[[]|e] w4]; [|done].
  destruct (read this w4) as [[s2|e] w5] eqn:Hread; [|done].
  assert (Hs : instances w5 !! this = Some s2).
  { revert Hread. unfold read. destruct (instances w4 !! this) eqn:E; intros [= <- <-]; done. }
  by rewrite (notify_quiet this s2 (subscribers s2) 0 w5 Hs (drop_0 _)).
Qed.

(** The callbacks that only print leave every store alone. *)
Lemma chatty_undisturbed this : undisturbed chatty this.
Proof.
  intros w s l props f b Hs Hl Hcell Hf.
  eexists _, [_]. split; [done|]. by repeat split.
Qed.

(** The whole of a [setStoreState] whose callbacks leave the store
    alone and return. *)
Lemma live_setStoreState_returns run w this s old l new snapshot ext :
  undisturbed run this ->
  instances w !! this = Some s ->
  heap w !! state s = Some (CObj old) ->
  heap w !! l = Some (CObj new) ->
  clone (heap w) (VRef (state s)) = (snapshot, heap w ++ ext) ->
  Forall (responds (<[state s := CObj (new ∪ old)]> (heap w))) (subscribers s) ->
  let s' := set_previousStates
              (keep (numberOfPreviousStatesToKeep s) (snapshot :: previousStates s)) s in
  exists w' t,
    Live.setStoreState run this (VRef l) w = (Return tt, w') /\
    instances w' !! this = Some s' /\
    heap w' !! state s = Some (CObj (new ∪ old)) /\
    trace w' = trace w ++ t ++ log_entry s /\
    own_calls this t
    = (fun subscriber =>
         setState_call subscriber (name s) this s' (Some (CObj (new ∪ old))))
        <$> subscribers s.
Proof.
  intros Hrun Hs Hst Hl Hclone Hsubs s'.
  assert (Hlt : state s < length (heap w)) by (by eapply lookup_lt_Some).
  assert (Hthis : this < length (instances w)) by (by eapply lookup_lt_Some).
  rewrite (live_setStoreState_run run _ _ _ _ _ _ _ _ Hs Hst Hl Hclone).
  assert (Hlt' : state s < length (heap w ++ ext)) by (rewrite length_app; lia).
  pose proof (merged_world_settled w this s (heap w ++ ext) (new ∪ old)
                (keep (numberOfPreviousStatesToKeep s) (snapshot :: previousStates s))
                Hthis Hlt') as Hsettled.
  fold s' in Hsettled.
  assert (Hall : Forall (responds (<[state s := CObj (new ∪ old)]> (heap w ++ ext)))
                        (subscribers s')).
  { eapply Forall_impl; [exact Hsubs|]. intros x. by apply responds_app. }
  destruct (live_notify_all run this Hrun s' _ _ _ Hsettled Hall)
    as (w' & t & Hloop & (Hs' & Hst' & _) & Htrace & Hown).
  exists w', t. split; [exact Hloop|]. split; [done|]. split; [done|].
  split; [done|]. exact Hown.
Qed.

(** ** [setStoreState], step by step *)

Lemma merge_lookup (new old : gmap string val) k :
  (new ∪ old) !! k = match new !! k with Some v => Some v | None => old !! k end.
Proof. rewrite lookup_union. by destruct (new !! k), (old !! k). Qed.

Lemma isObject_true h v :
  isObject h v = true ->
  exists l props, v = VRef l /\ h !! l = Some (CObj props) /\ own_properties h v = props.
Proof.
  destruct v as [| | | | |l|]; simpl; try done.
  destruct (h !! l) as [[props|]|] eqn:E; try done.
  intros _. exists l, props. simpl. by rewrite E.
Qed.



(** *** In the counter world *)

Lemma heap_closed_Forall (h : list cell) :
  Forall (cell_in (fun l => l < length h)) h -> heap_closed h.
Proof.
  intros Hall l Hl. destruct (lookup_lt_is_Some_2 h l Hl) as [c Hc].
  exists c. split; [done|]. by eapply Forall_lookup_1.
Qed.

Lemma counter_heap_closed : heap_closed counter_heap.
Proof. apply heap_closed_Forall. apply (bool_decide_unpack _). by vm_compute. Qed.

Lemma depth_15 : depth_ok (Fin 15).
Proof. by split. Qed.

Lemma counter_responds h :
  h !! 1 = Some (CObj {[ "setState" := VFun 1 Returns ]}) ->
  h !! 2 = Some (CObj {[ "setState" := VFun 2 Returns ]}) ->
  Forall (responds h) [VRef 1; VRef 2].
Proof.
  intros H1 H2. repeat constructor.
  - by exists 1, {[ "setState" := VFun 1 Returns ]}, 1.
  - by exists 2, {[ "setState" := VFun 2 Returns ]}, 2.
Qed.

Lemma counter_merged :
  ({[ "count" := VNum (Fin 1) ]} : gmap string val) ∪ {[ "count" := VNum (Fin 0) ]}
  = {[ "count" := VNum (Fin 1) ]}.
Proof. by vm_compute. Qed.


(** ** Construction, run *)

Lemma heap_closed_alloc h c :
  heap_closed h -> cell_in (fun l => l <= length h) c -> heap_closed (h ++ [c]).
Proof.
  intros Hc Hin l Hl. rewrite length_app in Hl. simpl in Hl.
  destruct (decide (l < length h)) as [Hlt|Hge].
  - destruct (Hc l Hlt) as (c' & Hlk & Hin'). exists c'. split.
    + by apply lookup_app_l_Some.
    + eapply cell_in_impl; [|exact Hin']. simpl. intros. rewrite length_app. lia.
  - assert (l = length h) as -> by lia. exists c. split.
    + rewrite lookup_app_r by lia. by rewrite Nat.sub_diag.
    + eapply cell_in_impl; [|exact Hin]. simpl. intros. rewrite length_app. simpl. lia.
Qed.

Lemma cell_in_empty (P : loc -> Prop) : cell_in P (CObj ∅).
Proof. simpl. apply map_Forall_empty. Qed.

Lemma with_default_state_closed initialState w :
  heap_closed (heap w) -> heap_closed (heap (with_default_state initialState w).2).
Proof.
  intros Hc. destruct initialState; simpl; try done.
  apply heap_closed_alloc; [done|apply cell_in_empty].
Qed.

Lemma throwError_run {A} message varToDump w :
  @throwError A message varToDump w
  = (Throw (Error (logPrefix +:+ message)),
     if received varToDump then emit (console_error varToDump) w else w).
Proof. unfold throwError. step. by destruct (received _). Qed.

Lemma same_but_trace_received d w :
  same_but_trace w (if received d then emit (console_error d) w else w).
Proof. by destruct (received d). Qed.

Lemma validateArguments_run w name initialState logStateToConsole n :
  if arguments_valid (heap w) name initialState logStateToConsole n
  then validateArguments name initialState logStateToConsole n w = (Return tt, w)
  else exists message w',
      validateArguments name initialState logStateToConsole n w
      = (Throw (Error message), w') /\ same_but_trace w w'.
Proof.
  unfold arguments_valid, validateArguments.
  destruct (nonempty_string name); cbn [negb andb].
  2: { rewrite (bind_throw _ _ _ _ _ (throwError_run _ _ _)).
       eexists _, _. split; [done|]. apply same_but_trace_received. }
  rewrite (bind_return _ _ w tt w) by done.
  destruct (isObject (heap w) initialState) eqn:Hobj; cbn [negb andb].
  2: { rewrite (bind_throw _ _ _ _ _ (validateNewState_rejects _ _ Hobj)).
       eexists _, _. split; [done|]. apply same_but_trace_received. }
  rewrite (bind_return _ _ _ _ _ (validateNewState_accepts _ _ Hobj)).
  destruct (is_boolean logStateToConsole); cbn [negb andb].
  2: { rewrite (bind_throw _ _ _ _ _ (throwError_run _ _ _)).
       eexists _, _. split; [done|]. apply same_but_trace_received. }
  rewrite (bind_return _ _ w tt w) by done.
  destruct (isNaN n || num_ltb n (Fin 1)); cbn [negb]; [|done].
  rewrite throwError_run. eexists _, _. split; [done|]. apply same_but_trace_received.
Qed.

Lemma new_Store_run S2N O2N name initialState logStateToConsole n w :
  let initialState' := (with_default_state initialState w).1 in
  let wd := (with_default_state initialState w).2 in
  let logStateToConsole' := or_default logStateToConsole (VBool false) in
  let parsed := Number S2N O2N (heap wd) (or_default n (VNum (Fin 15))) in
  if arguments_valid (heap wd) name initialState' logStateToConsole' parsed
  then new_Store S2N O2N name initialState logStateToConsole n w
       = (setStoreState (length (instances w)) initialState' ;;;
          ret (length (instances w)))
           (constructed wd name logStateToConsole' parsed)
  else exists message w',
      new_Store S2N O2N name initialState logStateToConsole n w
      = (Throw (Error message), w') /\
      instances w' = instances w /\ whitelodge w' = whitelodge w.
Proof.
  intros initialState' wd logStateToConsole' parsed.
  assert (Hstart : new_Store S2N O2N name initialState logStateToConsole n w
          = (validateArguments name initialState' logStateToConsole' parsed ;;;
             st <- new_object ;;
             this <- gets (fun w => length (instances w)) ;;
             modify (fun w => set_instances
               (instances w ++ [mkStore (string_of name) st [] []
                                        (bool_of logStateToConsole') parsed]) w) ;;;
             setStoreState this initialState' ;;;
             ret this) wd).
  { unfold new_Store, initialState', wd, parsed, logStateToConsole'.
    destruct initialState; try done. }
  assert (Hinst : instances wd = instances w).
  { unfold wd. by destruct initialState. }
  assert (Hreg : whitelodge wd = whitelodge w).
  { unfold wd. by destruct initialState. }
  rewrite Hstart.
  pose proof (validateArguments_run wd name initialState' logStateToConsole' parsed) as Hv.
  destruct (arguments_valid _ _ _ _ _).
  - rewrite (bind_return _ _ _ _ _ Hv). unfold new_object. step.
    unfold constructed. by rewrite Hinst.
  - destruct Hv as (message & w' & Hv & Hh & Hi & Hr & _).
    rewrite (bind_throw _ _ _ _ _ Hv). exists message, w'.
    split; [done|]. split; congruence.
Qed.

Lemma arguments_valid_depth h name initialState logStateToConsole n :
  arguments_valid h name initialState logStateToConsole n = true -> depth_ok n.
Proof.
  unfold arguments_valid, depth_ok. intros H.
  apply andb_prop in H as [_ H]. apply negb_true_iff, orb_false_elim in H. done.
Qed.

Lemma arguments_valid_object h name initialState logStateToConsole n :
  arguments_valid h name initialState logStateToConsole n = true ->
  isObject h initialState = true.
Proof.
  unfold arguments_valid. intros H.
  apply andb_prop in H as [H _]. apply andb_prop in H as [H _].
  by apply andb_prop in H as [_ H].
Qed.

(** A construction that passes validation: where it ends. *)
Lemma new_Store_returns S2N O2N name initialState logStateToConsole n w :
  let initialState' := (with_default_state initialState w).1 in
  let wd := (with_default_state initialState w).2 in
  let logStateToConsole' := or_default logStateToConsole (VBool false) in
  let parsed := Number S2N O2N (heap wd) (or_default n (VNum (Fin 15))) in
  let this := length (instances w) in
  let st := length (heap wd) in
  let s := mkStore (string_of name) st [] [] (bool_of logStateToConsole') parsed in
  heap_closed (heap w) ->
  arguments_valid (heap wd) name initialState' logStateToConsole' parsed = true ->
  exists l' ext (N : loc -> Prop),
    deep_equal (heap wd ++ [CObj ∅] ++ ext) (VRef l') (heap wd ++ [CObj ∅]) (VRef st) /\
    heap_closed (heap wd ++ [CObj ∅] ++ ext) /\
    N l' /\ (forall x, N x -> st < x) /\ region N (heap wd ++ [CObj ∅] ++ ext) /\
    new_Store S2N O2N name initialState logStateToConsole n w
    = (Return this,
       mkWorld (<[st := CObj (own_properties (heap wd) initialState')]>
                  (heap wd ++ [CObj ∅] ++ ext))
               (instances w ++ [set_previousStates [VRef l'] s])
               (whitelodge w) (component_state w)
               (trace wd ++ log_entry s)).
Proof.
  intros initialState' wd logStateToConsole' parsed this st s Hc Hvalid.
  pose proof (new_Store_run S2N O2N name initialState logStateToConsole n w) as Hrun.
  simpl in Hrun. fold initialState' wd logStateToConsole' parsed this in Hrun.
  rewrite Hvalid in Hrun.
  assert (Hcd : heap_closed (heap wd)) by (by apply with_default_state_closed).
  assert (Hinst : instances wd = instances w) by (unfold wd; by destruct initialState).
  assert (Hreg : whitelodge wd = whitelodge w) by (unfold wd; by destruct initialState).
  assert (Hcomp : component_state wd = component_state w)
    by (unfold wd; by destruct initialState).
  destruct (isObject_true _ _ (arguments_valid_object _ _ _ _ _ Hvalid))
    as (l & new & Hinit & Hl & Hprops).
  set (wc := constructed wd name logStateToConsole' parsed) in *.
  assert (Hs : instances wc !! this = Some s).
  { unfold wc, constructed, this. simpl. rewrite <- Hinst.
    rewrite lookup_app_r by lia. by rewrite Nat.sub_diag. }
  assert (Hst : heap wc !! state s = Some (CObj ∅)).
  { unfold wc, constructed. simpl. rewrite lookup_app_r by lia.
    by rewrite Nat.sub_diag. }
  assert (Hl' : heap wc !! l = Some (CObj new)).
  { unfold wc, constructed. simpl. by apply lookup_app_l_Some. }
  assert (Hcc : heap_closed (heap wc)).
  { unfold wc, constructed. simpl. apply heap_closed_alloc; [done|apply cell_in_empty]. }
  destruct (setStoreState_returns wc this s ∅ l new Hs Hst Hl' Hcc ltac:(constructor))
    as (l' & ext & N & Heq & Hc' & HN & Hnew & Hregion & Hset).
  simpl in Hset.
  rewrite (keep_one parsed (VRef l') (arguments_valid_depth _ _ _ _ _ Hvalid)) in Hset.
  exists l', ext, N.
  assert (Hheap : heap wc = heap wd ++ [CObj ∅]) by done.
  rewrite Hheap in *. rewrite <- !app_assoc in *.
  split; [done|]. split; [done|]. split; [done|].
  split. { intros x Hx. specialize (Hnew x Hx). rewrite length_app in Hnew. simpl in Hnew. lia. }
  split; [done|].
  rewrite Hrun, Hprops, Hinit.
  rewrite (bind_return _ _ _ _ _ Hset). unfold ret. f_equal.
  unfold add_trace, merged_world. simpl.
  rewrite map_union_empty. f_equal; try done.
  unfold this. rewrite <- Hinst.
  rewrite insert_app_r_alt by lia. by rewrite Nat.sub_diag.
Qed.

(** A construction that returns has passed validation. *)
Lemma new_Store_valid S2N O2N name initialState logStateToConsole n w this w' :
  new_Store S2N O2N name initialState logStateToConsole n w = (Return this, w') ->
  arguments_valid (heap (with_default_state initialState w).2) name
    (with_default_state initialState w).1
    (or_default logStateToConsole (VBool false))
    (Number S2N O2N (heap (with_default_state initialState w).2)
       (or_default n (VNum (Fin 15)))) = true.
Proof.
  intros Hnew.
  pose proof (new_Store_run S2N O2N name initialState logStateToConsole n w) as Hrun.
  simpl in Hrun. destruct (arguments_valid _ _ _ _ _); [done|].
  destruct Hrun as (message & w'' & Hrun & _). congruence.
Qed.

Lemma snapshot_of_empty (h h1 : list cell) l' st :
  deep_equal h (VRef l') h1 (VRef st) -> h1 !! st = Some (CObj ∅) ->
  h !! l' = Some (CObj ∅).
Proof.
  intros Heq Hst. specialize (Heq 1). simpl in Heq. rewrite Hst in Heq.
  rewrite fmap_empty in Heq.
  destruct (h !! l') as [[p|]|]; try done.
  injection Heq as Heq. apply fmap_empty_inv in Heq. by subst.
Qed.

(** A store without subscribers calls no one: whatever the callbacks
    are, its [setStoreState] is the one above. *)
Lemma setStoreState_no_subscriber run w this s newState :
  instances w !! this = Some s ->
  subscribers s = [] ->
  Live.setStoreState run this newState w = setStoreState this newState w.
Proof.
  intros Hs Hnone. unfold Live.setStoreState, setStoreState.
  destruct (isObject (heap w) newState) eqn:Hobj.
  - rewrite !(bind_return _ _ _ _ _ (validateNewState_accepts _ _ Hobj)).
    rewrite !(bind_return _ _ _ _ _ (addCurrentStateToPreviousStates_run _ _ _ Hs)).
    assert (Hthis : this < length (instances w)) by (by eapply lookup_lt_Some).
    unfold pushed. destruct (clone (heap w) (VRef (state s))) as [snapshot h'].
    unfold read, Object_assign. step. rewrite list_lookup_insert_eq by done. simpl.
    destruct (h' !! state s) as [[props|]|]; simpl; try done.
    rewrite list_lookup_insert_eq by done. simpl. by rewrite Hnone.
  - by rewrite !(bind_throw _ _ _ _ _ (validateNewState_rejects _ _ Hobj)).
Qed.


(** ** Subscribers that throw *)

Lemma call_setState_throws w this s subscriber f :
  instances w !! this = Some s ->
  throws (heap w) subscriber f ->
  call_setState this subscriber w
  = (Throw (Thrown f), emit (notification this s (heap w) subscriber) w).
Proof.
  intros Hs (l & props & -> & Hl & Hf).
  unfold call_setState, get_property, property, read. step. by rewrite Hl, Hf, Hs.
Qed.

(** The loop stops at the first subscriber that throws. *)
Lemma notify_abort w this s before subscriber f after :
  instances w !! this = Some s ->
  Forall (responds (heap w)) before ->
  throws (heap w) subscriber f ->
  forEach (before ++ subscriber :: after) (call_setState this) w
  = (Throw (Thrown f),
     add_trace (notification this s (heap w) <$> (before ++ [subscriber])) w).
Proof.
  intros Hs. revert w Hs. induction before as [|x before IH]; intros w Hs Hall Hthrows.
  - simpl. by rewrite (bind_throw _ _ _ _ _ (call_setState_throws _ _ _ _ _ Hs Hthrows)).
  - inversion Hall as [|? ? Hx Hrest]; subst. simpl.
    rewrite (bind_return _ _ _ _ _ (call_setState_returns _ _ _ _ Hs Hx)).
    rewrite IH; [|done|done|done]. simpl. by rewrite add_trace_emit.
Qed.

(** Whatever the subscribers do, the loop and the log only add to the
    trace. *)
Lemma call_setState_any w this subscriber :
  exists r t, call_setState this subscriber w = (r, add_trace t w).
Proof.
  assert (Hthrow : forall e, exists (r : outcome unit) t, (Throw e, w) = (r, add_trace t w)).
  { intros e. exists (Throw e), []. by rewrite add_trace_nil. }
  unfold call_setState, get_property, read.
  destruct subscriber as [| | | | |l|]; step; try apply Hthrow;
    destruct (instances w !! this) as [store|]; try apply Hthrow.
  destruct (property (heap w) (VRef l) "setState") as [| | | | | |f b];
    simpl; try apply Hthrow.
  destruct b; eexists _, [_]; reflexivity.
Qed.

Lemma notify_any w this subs :
  exists r t, forEach subs (call_setState this) w = (r, add_trace t w).
Proof.
  revert w. induction subs as [|x subs IH]; intros w.
  - exists (Return tt), []. simpl. by rewrite add_trace_nil.
  - simpl. destruct (call_setState_any w this x) as (r & t & Hx).
    destruct r as [[]|e].
    + rewrite (bind_return _ _ _ _ _ Hx).
      destruct (IH (add_trace t w)) as (r' & t' & ->).
      exists r', (t ++ t'). by rewrite add_trace_add_trace.
    + rewrite (bind_throw _ _ _ _ _ Hx). by exists (Throw e), t.
Qed.

(** ** Subscribing and unsubscribing *)

Lemma duplicate_check_run (subs : list val) (v : val) message d w :
  forEach subs (fun subscriber =>
    if strict_equal subscriber v then throwError message d else ret tt) w
  = if existsb (fun subscriber => strict_equal subscriber v) subs
    then (Throw (Error (logPrefix +:+ message)),
          if received d then emit (console_error d) w else w)
    else (Return tt, w).
Proof.
  induction subs as [|x subs IH]; [done|]. simpl.
  destruct (strict_equal x v); simpl.
  - by rewrite (bind_throw _ _ _ _ _ (throwError_run _ _ _)).
  - by rewrite (bind_return _ _ w tt w).
Qed.

Lemma capable_ref h v : capable h v = true -> exists l, v = VRef l.
Proof.
  destruct v as [| | | | |l|]; try done; eauto.
Qed.

Lemma strict_equal_ref l v : strict_equal v (VRef l) = true -> v = VRef l.
Proof.
  destruct v as [| | |[]| |l'|]; simpl; try done.
  intros H. apply Nat.eqb_eq in H. by subst.
Qed.

Lemma present_elem_of l subs : present (VRef l) subs = true <-> VRef l ∈ subs.
Proof.
  unfold present. rewrite existsb_exists. split.
  - intros (x & Hin & Heq). apply strict_equal_ref in Heq. subst.
    by apply list_elem_of_In.
  - intros Hin. exists (VRef l). split; [by apply list_elem_of_In|].
    simpl. apply Nat.eqb_refl.
Qed.

Lemma subscribe_run w this s v :
  instances w !! this = Some s ->
  subscribe this v w
  = match v with
    | VUndef | VNull => (Throw TypeError, w)
    | _ =>
        if isFunction (property (heap w) v "setState")
        then
          if present v (subscribers s)
          then (Throw (Error (logPrefix +:+ "Component is already subscribed to the store "
                                +:+ dquote +:+ name s +:+ dquote +:+ ".")),
                if received (DItem (Value v))
                then emit (console_error (DItem (Value v))) w else w)
          else (Return tt,
                set_instances
                  (<[this := set_subscribers (subscribers s ++ [v]) s]> (instances w)) w)
        else (Throw (Error (logPrefix +:+
                "Store subscribers must be components with a setState function as a property.")),
              if received (DItem (Value v))
              then emit (console_error (DItem (Value v))) w else w)
    end.
Proof.
  intros Hs. unfold subscribe.
  assert (Hgo : forall f : val,
    ((if negb (isFunction f)
      then throwError
             "Store subscribers must be components with a setState function as a property."
             (DItem (Value v))
      else ret tt) ;;;
     s <- read this ;;
     forEach (subscribers s) (fun subscriber =>
       if strict_equal subscriber v
       then throwError ("Component is already subscribed to the store " +:+ dquote
                          +:+ name s +:+ dquote +:+ ".") (DItem (Value v))
       else ret tt) ;;;
     update this (fun s => set_subscribers (subscribers s ++ [v]) s)) w
    = if isFunction f
      then
        if present v (subscribers s)
        then (Throw (Error (logPrefix +:+ "Component is already subscribed to the store "
                              +:+ dquote +:+ name s +:+ dquote +:+ ".")),
              if received (DItem (Value v))
              then emit (console_error (DItem (Value v))) w else w)
        else (Return tt,
              set_instances
                (<[this := set_subscribers (subscribers s ++ [v]) s]> (instances w)) w)
      else (Throw (Error (logPrefix +:+
              "Store subscribers must be components with a setState function as a property.")),
            if received (DItem (Value v))
            then emit (console_error (DItem (Value v))) w else w)).
  { intros f. destruct (isFunction f); cbn [negb].
    - rewrite (bind_return _ _ w tt w) by done.
      rewrite (bind_return _ _ _ _ _ (read_return _ _ _ Hs)).
      pose proof (duplicate_check_run (subscribers s) v
        ("Component is already subscribed to the store " +:+ dquote
           +:+ name s +:+ dquote +:+ ".") (DItem (Value v)) w) as Hdup.
      unfold present. destruct (existsb _ _).
      + by rewrite (bind_throw _ _ _ _ _ Hdup).
      + rewrite (bind_return _ _ _ _ _ Hdup). unfold update. step.
        by rewrite (alter_insert _ _ _ _ Hs).
    - by rewrite (bind_throw _ _ _ _ _ (throwError_run _ _ _)). }
  destruct v; try done; unfold get_property;
    rewrite (bind_return _ _ w _ w) by done; apply Hgo.
Qed.

Lemma unsubscribe_run w this s v :
  instances w !! this = Some s ->
  unsubscribe this v w
  = (Return tt,
     match first_index v (subscribers s) 0 with
     | Some i =>
         set_instances
           (<[this := set_subscribers (delete i (subscribers s)) s]> (instances w)) w
     | None => w
     end).
Proof.
  intros Hs. unfold unsubscribe.
  rewrite (bind_return _ _ _ _ _ (read_return _ _ _ Hs)).
  destruct (first_index _ _ _); [|done].
  unfold update. step. by rewrite (alter_insert _ _ _ _ Hs).
Qed.



(** ** [setStoreState], whatever the subscribers do *)

Lemma clone_extends h l : exists l' ext, clone h (VRef l) = (VRef l', h ++ ext).
Proof. by eexists _, _. Qed.

(** Either [newState] is rejected and only the trace has grown, or the
    history is pushed and the state merged, and then only the trace
    grows. *)
Lemma setStoreState_any w this s old newState :
  instances w !! this = Some s ->
  heap w !! state s = Some (CObj old) ->
  exists r t,
    (isObject (heap w) newState = false /\
     setStoreState this newState w = (r, add_trace t w)) \/
    (exists l new l' ext,
        newState = VRef l /\ heap w !! l = Some (CObj new) /\
        clone (heap w) (VRef (state s)) = (VRef l', heap w ++ ext) /\
        setStoreState this newState w
        = (r, add_trace t
                (merged_world w this s (heap w ++ ext) (new ∪ old)
                   (keep (numberOfPreviousStatesToKeep s)
                         (VRef l' :: previousStates s))))).
Proof.
  intros Hs Hst. destruct (isObject (heap w) newState) eqn:Hobj.
  - destruct (isObject_true _ _ Hobj) as (l & new & -> & Hl & _).
    destruct (clone_extends (heap w) (state s)) as (l' & ext & Hclone).
    rewrite (setStoreState_run _ _ _ _ _ _ _ _ Hs Hst Hl Hclone).
    set (w2 := merged_world _ _ _ _ _ _).
    assert (Hs2 : instances w2 !! this
                  = Some (set_previousStates
                            (keep (numberOfPreviousStatesToKeep s)
                                  (VRef l' :: previousStates s)) s)).
    { unfold w2, merged_world. simpl. apply list_lookup_insert_eq.
      by eapply lookup_lt_Some. }
    destruct (notify_any w2 this (subscribers s)) as (r & t & Hn).
    destruct r as [[]|e].
    + rewrite (bind_return _ _ _ _ _ Hn).
      rewrite doLogStateToConsole_run
        with (s := set_previousStates
                     (keep (numberOfPreviousStatesToKeep s)
                           (VRef l' :: previousStates s)) s) by done.
      rewrite add_trace_add_trace. eexists _, _. right. by exists l, new, l', ext.
    + rewrite (bind_throw _ _ _ _ _ Hn). eexists _, _. right. by exists l, new, l', ext.
  - unfold setStoreState.
    rewrite (bind_throw _ _ _ _ _ (validateNewState_rejects _ _ Hobj)).
    destruct (received _).
    + eexists _, [_]. left. split; [done|]. reflexivity.
    + eexists _, []. left. split; [done|]. by rewrite add_trace_nil.
Qed.

Lemma setStoreState_configuration w this s old newState :
  instances w !! this = Some s ->
  heap w !! state s = Some (CObj old) ->
  exists s', instances (setStoreState this newState w).2 !! this = Some s' /\
             same_configuration s s' /\ subscribers s' = subscribers s.
Proof.
  intros Hs Hst.
  destruct (setStoreState_any w this s old newState Hs Hst)
    as (r & t & [[_ ->]|(l & new & l' & ext & _ & _ & _ & ->)]); simpl.
  - by exists s.
  - eexists. split; [apply list_lookup_insert_eq; by eapply lookup_lt_Some|done].
Qed.

Lemma subscribe_configuration w this s v :
  instances w !! this = Some s ->
  exists s', instances (subscribe this v w).2 !! this = Some s' /\
             same_configuration s s' /\ previousStates s' = previousStates s /\
             heap (subscribe this v w).2 = heap w.
Proof.
  intros Hs. rewrite (subscribe_run _ _ _ _ Hs).
  assert (Hthrow : forall d (r : outcome unit),
    exists s',
      instances (r, if received d then emit (console_error d) w else w).2 !! this
      = Some s' /\
      same_configuration s s' /\ previousStates s' = previousStates s /\
      heap (r, if received d then emit (console_error d) w else w).2 = heap w).
  { intros d r. exists s. simpl. by destruct (received d). }
  assert (Hlt : this < length (instances w)) by (by eapply lookup_lt_Some).
  destruct v as [| |b|n|str|l|f b]; try (by exists s);
    (destruct (isFunction _); [destruct (present _ _)|]; try apply Hthrow;
     eexists; (split; [by apply list_lookup_insert_eq|done])).
Qed.

Lemma unsubscribe_configuration w this s v :
  instances w !! this = Some s ->
  exists s', instances (unsubscribe this v w).2 !! this = Some s' /\
             same_configuration s s' /\ previousStates s' = previousStates s /\
             heap (unsubscribe this v w).2 = heap w.
Proof.
  intros Hs. rewrite (unsubscribe_run _ _ _ _ Hs). simpl.
  destruct (first_index _ _ _); [|by exists s].
  eexists. split; [apply list_lookup_insert_eq; by eapply lookup_lt_Some|done].
Qed.

(** ** The history depth *)

Lemma depth_ok_spec n :
  depth_ok n <-> n = PosInf \/ exists q, n = Fin q /\ (1 <= q)%Q.
Proof.
  unfold depth_ok. destruct n as [| | |q]; simpl.
  - split; [by intros [? _]|]. intros [?|(q & ? & _)]; done.
  - split; [by left|done].
  - split; [by intros [_ ?]|]. intros [?|(q & ? & _)]; done.
  - unfold Qltb. rewrite negb_false_iff, Qle_bool_iff. split.
    + intros [_ H]. right. by exists q.
    + intros [?|(q' & [= <-] & H)]; done.
Qed.

Lemma three_halves_not_integer : ~ is_integer (Fin (3 # 2)).
Proof. intros [z Hz]. unfold Qeq in Hz. simpl in Hz. lia. Qed.

Lemma counter_again_returns : counter_again = (Return 1, counter_again.2).
Proof. by vm_compute. Qed.


Lemma throws_app (h ext : list cell) st c subscriber f :
  st < length h ->
  throws (<[st := c]> h) subscriber f ->
  throws (<[st := c]> (h ++ ext)) subscriber f.
Proof.
  intros Hst (l & props & -> & Hl & Hf). exists l, props.
  split; [done|]. split; [|done].
  rewrite insert_app_l by done. by apply lookup_app_l_Some.
Qed.




(** ** What stays true of a store in use *)

Lemma cell_in_union (P : loc -> Prop) (m1 m2 : gmap string val) :
  cell_in P (CObj m1) -> cell_in P (CObj m2) -> cell_in P (CObj (m1 ∪ m2)).
Proof.
  simpl. intros H1 H2 k v Hk. apply lookup_union_Some_raw in Hk as [Hk|[_ Hk]].
  - by apply (H1 k).
  - by apply (H2 k).
Qed.

Lemma heap_closed_insert (h : list cell) st c :
  heap_closed h -> cell_in (fun l => l < length h) c -> heap_closed (<[st := c]> h).
Proof.
  intros Hc Hin l Hl. rewrite length_insert in *.
  destruct (decide (st = l)) as [->|Hne].
  - exists c. split; [by apply list_lookup_insert_eq|done].
  - rewrite list_lookup_insert_ne by done. by apply Hc.
Qed.

Lemma heap_closed_lookup (h : list cell) l c :
  heap_closed h -> h !! l = Some c -> cell_in (fun x => x < length h) c.
Proof.
  intros Hc Hl. destruct (Hc l) as (c' & Hl' & Hin); [by eapply lookup_lt_Some|].
  congruence.
Qed.

Lemma region_lt (N : loc -> Prop) (h : list cell) x : region N h -> N x -> x < length h.
Proof. intros Hreg Hx. destruct (Hreg x Hx) as (c & Hc & _). by eapply lookup_lt_Some. Qed.

Lemma deep_equal_trans h1 v1 h2 v2 h3 v3 :
  deep_equal h1 v1 h2 v2 -> deep_equal h2 v2 h3 v3 -> deep_equal h1 v1 h3 v3.
Proof. intros H12 H23 d. by rewrite H12. Qed.

(** The world after push and merge keeps the store well formed and its
    snapshots apart, and reads the same inside the old region. *)
Lemma merged_preserves this w s old l new l' ext N t :
  store_inv this w s -> apart N w s ->
  heap w !! state s = Some (CObj old) ->
  heap w !! l = Some (CObj new) ->
  clone (heap w) (VRef (state s)) = (VRef l', heap w ++ ext) ->
  let history :=
    keep (numberOfPreviousStatesToKeep s) (VRef l' :: previousStates s) in
  let w' := add_trace t (merged_world w this s (heap w ++ ext) (new ∪ old) history) in
  exists N' : loc -> Prop,
    store_inv this w' (set_previousStates history s) /\
    apart N' w' (set_previousStates history s) /\
    (forall x, N x -> N' x) /\ N' l' /\
    (forall v, val_in N v -> deep_equal (heap w') v (heap w) v) /\
    deep_equal (heap w') (VRef l') (heap w) (VRef (state s)) /\
    (forall x, reaches (heap w') (VRef l') x -> length (heap w) <= x) /\
    (forall x, N' x -> N x \/ length (heap w) <= x).
Proof.
  intros (Hs & _ & Hc & Hdepth & _) (Hreg & Hst & Hsnaps) Hold Hl Hclone history w'.
  assert (Hlt : state s < length (heap w)) by (by eapply lookup_lt_Some).
  assert (Hthis : this < length (instances w)) by (by eapply lookup_lt_Some).
  destruct (clone_spec _ _ Hc Hlt)
    as (l'' & ext' & Hclone' & Heq & Hc' & Nc & HNc & Hnew & Hregc).
  rewrite Hclone in Hclone'. injection Hclone' as <- Hext.
  apply app_inv_head in Hext. subst ext'.
  exists (fun x => N x \/ Nc x).
  assert (Hregion : region (fun x => N x \/ Nc x)
                           (<[state s := CObj (new ∪ old)]> (heap w ++ ext))).
  { intros x [Hx|Hx].
    - destruct (Hreg x Hx) as (c & Hxc & Hin). exists c. split.
      + rewrite list_lookup_insert_ne by (intros Hsx; apply Hst; by rewrite Hsx).
        by apply lookup_app_l_Some.
      + eapply cell_in_impl; [|exact Hin]. simpl. auto.
    - destruct (Hregc x Hx) as (c & Hxc & Hin). exists c. split.
      + rewrite list_lookup_insert_ne; [done|]. specialize (Hnew x Hx). lia.
      + eapply cell_in_impl; [|exact Hin]. simpl. auto. }
  split; [|split; [|split; [|split; [|split; [|split; [|split]]]]]].
  - split; [by apply list_lookup_insert_eq|].
    split. { eexists. apply list_lookup_insert_eq. rewrite length_app. lia. }
    split.
    { simpl. apply heap_closed_insert; [done|].
      apply cell_in_union.
      - eapply cell_in_impl; [|exact (heap_closed_lookup _ _ _ Hc Hl)].
        simpl. intros. rewrite length_app. lia.
      - eapply cell_in_impl; [|exact (heap_closed_lookup _ _ _ Hc Hold)].
        simpl. intros. rewrite length_app. lia. }
    split; [done|]. by apply keep_within.
  - split; [done|]. split.
    { simpl. intros [HN|HN]; [done|]. specialize (Hnew _ HN). lia. }
    simpl. unfold history.
    destruct (keep_take (numberOfPreviousStatesToKeep s) (VRef l' :: previousStates s))
      as [k ->].
    apply Forall_take. constructor; [by right|].
    eapply Forall_impl; [exact Hsnaps|]. intros v. apply val_in_impl. auto.
  - auto.
  - by right.
  - intros v Hv d. simpl. apply (reify_frame N); [done| |done].
    intros x Hx. rewrite list_lookup_insert_ne by (intros Hsx; apply Hst; by rewrite Hsx).
    apply lookup_app_l. by eapply region_lt.
  - intros d. simpl. rewrite <- (Heq d). by apply (reify_new_region Nc (heap w)).
  - intros x Hx. apply Hnew.
    assert (Hregc' : region Nc (heap w')).
    { intros y Hy. destruct (Hregc y Hy) as (c & Hyc & Hin). exists c. split; [|done].
      simpl. rewrite list_lookup_insert_ne; [done|]. specialize (Hnew y Hy). lia. }
    exact (reaches_region Nc _ (VRef l') _ Hregc' HNc Hx).
  - intros x [Hx|Hx]; [by left|right; by apply Hnew].
Qed.

Lemma store_inv_same_heap this w w' s s' :
  store_inv this w s ->
  instances w' !! this = Some s' -> heap w' = heap w ->
  same_configuration s s' -> previousStates s' = previousStates s ->
  store_inv this w' s'.
Proof.
  intros (_ & Hst & Hc & Hd & Hw) Hs' Hh (_ & Hstate & _ & Hn) Hp.
  unfold store_inv. by rewrite Hh, Hstate, Hn, Hp.
Qed.

Lemma apart_same_heap N w w' s s' :
  apart N w s -> heap w' = heap w ->
  state s' = state s -> previousStates s' = previousStates s ->
  apart N w' s'.
Proof. intros (Hr & Hst & Hp) Hh Hstate Hps. unfold apart. by rewrite Hh, Hstate, Hps. Qed.

Lemma deep_equal_same_heap h h' v : h' = h -> deep_equal h' v h v.
Proof. by intros ->. Qed.

Lemma hidden_same_heap N own w w' :
  hidden N own w -> heap w' = heap w -> hidden N own w'.
Proof. intros Hh Heq. unfold hidden. by rewrite Heq. Qed.

Lemma reaches_trans h v x y :
  reaches h v x -> reaches h (VRef x) y -> reaches h v y.
Proof.
  intros Hreach Hstep.
  induction Hreach as [l|l props k u l' Hl Hk _ IH|l elems i u l' Hl Hi _ IH].
  - done.
  - eapply reaches_property; [done..|]. by apply IH.
  - eapply reaches_element; [done..|]. by apply IH.
Qed.

(** A cell holds only what is reached from it. *)
Lemma cell_in_reaches h x c : h !! x = Some c -> cell_in (reaches h (VRef x)) c.
Proof.
  intros Hx. destruct c as [props|elems]; simpl.
  - intros k u Hk. destruct u as [| | | | |l|]; simpl; try done.
    eapply reaches_property; [done..|constructor].
  - apply Forall_forall. intros u Hu. apply list_elem_of_lookup in Hu as [i Hi].
    destruct u as [| | | | |l|]; simpl; try done.
    eapply reaches_element; [done..|constructor].
Qed.

(** The cells the history reaches are a region the snapshots lie in. *)
Lemma apart_reached N w s :
  apart N w s ->
  apart (fun x => exists snapshot, snapshot ∈ previousStates s /\ reaches (heap w) snapshot x)
        w s.
Proof.
  intros (Hreg & Hst & Hsnaps). rewrite Forall_forall in Hsnaps.
  split; [|split].
  - intros x (snapshot & Hin & Hreach).
    pose proof (reaches_region N _ _ _ Hreg (Hsnaps _ Hin) Hreach) as Hx.
    destruct (Hreg x Hx) as (c & Hc & _). exists c. split; [done|].
    eapply cell_in_impl; [|exact (cell_in_reaches _ _ _ Hc)].
    simpl. intros y Hy. exists snapshot. split; [done|]. by eapply reaches_trans.
  - intros (snapshot & Hin & Hreach).
    apply Hst. exact (reaches_region N _ _ _ Hreg (Hsnaps _ Hin) Hreach).
  - apply Forall_forall. intros snapshot Hin.
    destruct snapshot as [| | | | |l|]; simpl; try done.
    exists (VRef l). split; [done|constructor].
Qed.

(** What lies outside the history is hidden from the region the history
    reaches. *)
Lemma outside_history_hidden this w s own :
  instances w !! this = Some s -> outside_history this w own ->
  hidden (fun x => exists snapshot, snapshot ∈ previousStates s /\ reaches (heap w) snapshot x)
         own w.
Proof.
  intros Hs Hout. split.
  - intros x (snapshot & Hin & Hreach) Hown.
    destruct (Hout x Hown) as [_ Hno]. by apply (Hno s snapshot).
  - intros x Hown. by destruct (Hout x Hown).
Qed.

(** One step keeps the store well formed, its configuration, the
    snapshots out of the environment's reach, and what every value of
    the snapshots' region reads as. *)
Lemma step_preserves this w own w' own' s N :
  store_inv this w s -> apart N w s -> hidden N own w ->
  step this (w, own) (w', own') ->
  exists s' (N' : loc -> Prop),
    store_inv this w' s' /\ apart N' w' s' /\ hidden N' own' w' /\
    same_configuration s s' /\
    (forall x, N x -> N' x) /\
    (forall v, val_in N v -> deep_equal (heap w') v (heap w) v).
Proof.
  intros Hinv Hapart Hhid Hstep.
  pose proof Hinv as (Hs & [old Hold] & Hc & Hdepth & Hwithin).
  inversion Hstep as [? ? newState|? ? v|? ? v|? ? c Hcell|? ? l c c' Hown Hl Hkind Hcell];
    subst; clear Hstep.
  - destruct (setStoreState_any w this s old newState Hs Hold)
      as (r & t & [[_ ->]|(l & new & l' & ext & -> & Hl & Hclone & ->)]); simpl.
    + exists s, N. split; [by eapply store_inv_same_heap|].
      split; [by eapply apart_same_heap|]. split; [by eapply hidden_same_heap|].
      split; [done|]. split; [done|].
      intros v _. by apply deep_equal_same_heap.
    + destruct (merged_preserves this w s old l new l' ext N t Hinv Hapart Hold Hl Hclone)
        as (N' & Hinv' & Hapart' & Hsub & _ & Hread & _ & _ & Hwhere).
      eexists _, N'. split; [exact Hinv'|]. split; [exact Hapart'|].
      split.
      { destruct Hhid as [Hno Hlt]. split.
        - intros x Hx Hown. destruct (Hwhere x Hx) as [HN|Hge]; [by eapply Hno|].
          specialize (Hlt x Hown). lia.
        - intros x Hown. specialize (Hlt x Hown). simpl.
          rewrite length_insert, length_app. lia. }
      split; [done|]. split; [done|]. exact Hread.
  - destruct (subscribe_configuration w this s v Hs) as (s' & Hs' & Hconf & Hp & Hh).
    exists s', N. split; [by eapply store_inv_same_heap|].
    split; [eapply apart_same_heap; [done..|apply Hconf|done]|].
    split; [by eapply hidden_same_heap|].
    split; [done|]. split; [done|]. intros x _. by apply deep_equal_same_heap.
  - destruct (unsubscribe_configuration w this s v Hs) as (s' & Hs' & Hconf & Hp & Hh).
    exists s', N. split; [by eapply store_inv_same_heap|].
    split; [eapply apart_same_heap; [done..|apply Hconf|done]|].
    split; [by eapply hidden_same_heap|].
    split; [done|]. split; [done|]. intros x _. by apply deep_equal_same_heap.
  - exists s, N. destruct Hapart as (Hreg & Hst & Hsnaps).
    unfold store_inv, apart. simpl.
    split.
    { split; [done|]. split; [exists old; by apply lookup_app_l_Some|].
      split; [by apply heap_closed_alloc|done]. }
    split. { split; [by apply region_weaken|done]. }
    split.
    { destruct Hhid as [Hno Hlt]. split.
      - intros x Hx [Hown| ->]; [by eapply Hno|].
        pose proof (region_lt _ _ _ Hreg Hx). lia.
      - intros x [Hown| ->]; simpl; rewrite length_app; simpl; [|lia].
        specialize (Hlt x Hown). lia. }
    split; [done|]. split; [done|].
    intros v Hv d. apply (reify_frame N); [done| |done].
    intros x Hx. apply lookup_app_l. exact (region_lt _ _ _ Hreg Hx).
  - exists s, N. destruct Hapart as (Hreg & Hst & Hsnaps).
    destruct Hhid as [Hno Hlt].
    assert (Hsame : forall x, N x -> <[l := c']> (heap w) !! x = heap w !! x).
    { intros x Hx. apply list_lookup_insert_ne. intros <-. by eapply Hno. }
    unfold store_inv, apart. simpl.
    split.
    { split; [done|]. split.
      { destruct (decide (l = state s)) as [->|Hne].
        - rewrite Hold in Hl. injection Hl as <-.
          destruct c' as [props|elems]; [|done].
          exists props. apply list_lookup_insert_eq. by eapply lookup_lt_Some.
        - exists old. by rewrite list_lookup_insert_ne. }
      split; [by apply heap_closed_insert|done]. }
    split.
    { split; [|done]. intros x Hx. rewrite (Hsame x Hx). by apply Hreg. }
    split.
    { split; [done|]. intros x Hx. simpl. rewrite length_insert. by apply Hlt. }
    split; [done|]. split; [done|].
    intros v Hv d. by apply (reify_frame N).
Qed.

Lemma steps_preserve this w own w' own' s N :
  rtc (step this) (w, own) (w', own') ->
  store_inv this w s -> apart N w s -> hidden N own w ->
  exists s' (N' : loc -> Prop),
    store_inv this w' s' /\ apart N' w' s' /\ hidden N' own' w' /\
    same_configuration s s' /\
    (forall x, N x -> N' x) /\
    (forall v, val_in N v -> deep_equal (heap w') v (heap w) v).
Proof.
  intros Hsteps.
  remember (w, own) as a eqn:Ha. remember (w', own') as b eqn:Hb.
  revert w own s N Ha.
  induction Hsteps as [a|a [w1 own1] b Hstep Hsteps IH];
    intros w own s N -> Hinv Hapart Hhid.
  - injection Hb as -> ->.
    exists s, N. do 5 (split; [done|]). intros v _. by apply deep_equal_same_heap.
  - destruct (step_preserves this w own w1 own1 s N Hinv Hapart Hhid Hstep)
      as (s1 & N1 & Hinv1 & Hapart1 & Hhid1 & Hconf1 & Hsub1 & Hread1).
    destruct (IH Hb w1 own1 s1 N1 eq_refl Hinv1 Hapart1 Hhid1)
      as (s' & N' & Hinv' & Hapart' & Hhid' & Hconf' & Hsub' & Hread').
    exists s', N'. split; [done|]. split; [done|]. split; [done|].
    split.
    { destruct Hconf1 as (? & ? & ? & ?), Hconf' as (? & ? & ? & ?).
      unfold same_configuration. split; [congruence|]. split; [congruence|].
      split; congruence. }
    split; [auto|].
    intros v Hv. eapply deep_equal_trans; [apply Hread'|apply Hread1; done].
    eapply val_in_impl; [exact Hsub1|done].
Qed.

(** A construction that returns leaves a well-formed store whose only
    snapshot is apart from its state. *)
Lemma new_Store_inv S2N O2N name initialState logStateToConsole n w this w' :
  heap_closed (heap w) ->
  new_Store S2N O2N name initialState logStateToConsole n w = (Return this, w') ->
  exists s (N : loc -> Prop) l',
    store_inv this w' s /\ apart N w' s /\
    previousStates s = [VRef l'] /\ heap w' !! l' = Some (CObj ∅) /\
    length (heap w) <= l' /\ l' < length (heap w').
Proof.
  intros Hc Hnew.
  pose proof (new_Store_valid _ _ _ _ _ _ _ _ _ Hnew) as Hvalid.
  destruct (new_Store_returns S2N O2N name initialState logStateToConsole n w Hc Hvalid)
    as (l' & ext & N & Heq & Hc' & HN & Hnew' & Hreg & Hret).
  rewrite Hnew in Hret. injection Hret as -> ->.
  set (wd := (with_default_state initialState w).2) in *.
  set (initialState' := (with_default_state initialState w).1) in *.
  assert (Hcd : heap_closed (heap wd)) by (by apply with_default_state_closed).
  assert (Hlen : length (heap wd) < length (heap wd ++ [CObj ∅] ++ ext)).
  { rewrite length_app. simpl. lia. }
  destruct (isObject_true _ _ (arguments_valid_object _ _ _ _ _ Hvalid))
    as (l & new & Hinit & Hl & Hprops).
  assert (Hgrows : length (heap w) <= length (heap wd)).
  { unfold wd. destruct initialState; simpl; try done. rewrite length_app. lia. }
  assert (Hempty : <[length (heap wd) := CObj (own_properties (heap wd) initialState')]>
                     (heap wd ++ [CObj ∅] ++ ext) !! l' = Some (CObj ∅)).
  { specialize (Hnew' l' HN). rewrite list_lookup_insert_ne by lia.
    apply (snapshot_of_empty _ (heap wd ++ [CObj ∅]) _ (length (heap wd))); [done|].
    rewrite lookup_app_r by lia. by rewrite Nat.sub_diag. }
  eexists _, N, l'. split; [|split; [|split; [|split; [|split]]]].
  - split. { simpl. rewrite lookup_app_r by lia. by rewrite Nat.sub_diag. }
    simpl. split. { eexists. by apply list_lookup_insert_eq. }
    split.
    { apply heap_closed_insert; [done|]. rewrite Hprops.
      eapply cell_in_impl; [|exact (heap_closed_lookup _ _ _ Hcd Hl)].
      simpl. intros. rewrite length_app. lia. }
    split; [by eapply arguments_valid_depth|].
    rewrite <- (keep_one _ (VRef l') (arguments_valid_depth _ _ _ _ _ Hvalid)).
    apply keep_within. by eapply arguments_valid_depth.
  - split.
    { simpl. intros x Hx. destruct (Hreg x Hx) as (c & Hxc & Hin).
      exists c. split; [|done]. rewrite list_lookup_insert_ne; [done|].
      specialize (Hnew' x Hx). lia. }
    simpl. split. { intros HNst. specialize (Hnew' _ HNst). lia. }
    by repeat constructor.
  - done.
  - exact Hempty.
  - specialize (Hnew' l' HN). lia.
  - simpl. by eapply lookup_lt_Some.
Qed.

(** What existed before a construction is outside the history of the
    store it returns. *)
Lemma construction_outside S2N O2N name initialState logStateToConsole n w this w' :
  heap_closed (heap w) ->
  new_Store S2N O2N name initialState logStateToConsole n w = (Return this, w') ->
  outside_history this w' (fun x => x < length (heap w)).
Proof.
  intros Hc Hnew x Hx.
  destruct (new_Store_inv _ _ _ _ _ _ _ _ _ Hc Hnew)
    as (s & N & l' & Hinv & _ & Hp & Hl' & Hge & Hlt).
  split; [lia|]. intros s0 snapshot Hs0 Hin Hreach.
  destruct Hinv as [Hs _]. rewrite Hs in Hs0. injection Hs0 as <-.
  rewrite Hp in Hin. apply list_elem_of_singleton in Hin. subst snapshot.
  inversion Hreach as [|? props k v ? Hl Hk|? elems i v ? Hl]; subst.
  - lia.
  - rewrite Hl' in Hl. injection Hl as <-. by rewrite lookup_empty in Hk.
  - by rewrite Hl' in Hl.
Qed.

(** A [setStoreState] with a mapping object, from a well-formed store:
    the snapshot it puts at the front of the history reads as the state
    did before the call. *)
Lemma capture this w own s N newState :
  store_inv this w s -> apart N w s -> hidden N own w ->
  isObject (heap w) newState = true ->
  exists s' l' rest (N' : loc -> Prop),
    instances (setStoreState this newState w).2 !! this = Some s' /\
    previousStates s' = VRef l' :: rest /\
    (exists k, rest = take k (previousStates s)) /\
    store_inv this (setStoreState this newState w).2 s' /\
    apart N' (setStoreState this newState w).2 s' /\
    hidden N' own (setStoreState this newState w).2 /\
    same_configuration s s' /\
    deep_equal (heap (setStoreState this newState w).2) (VRef l')
               (heap w) (VRef (state s)) /\
    (forall x, reaches (heap (setStoreState this newState w).2) (VRef l') x ->
               length (heap w) <= x).
Proof.
  intros Hinv Hapart Hhid Hobj.
  pose proof Hinv as (Hs & [old Hold] & Hc & Hdepth & Hwithin).
  destruct (setStoreState_any w this s old newState Hs Hold)
    as (r & t & [[Hno _]|(l & new & l' & ext & -> & Hl & Hclone & ->)]);
    [congruence|].
  destruct (merged_preserves this w s old l new l' ext N t Hinv Hapart Hold Hl Hclone)
    as (N' & Hinv' & Hapart' & _ & _ & _ & Hsnap & Hfresh & Hwhere).
  destruct (keep_head (numberOfPreviousStatesToKeep s) (VRef l') (previousStates s)
              Hdepth) as [rest Hrest].
  simpl in *. rewrite Hrest in *.
  exists (set_previousStates (VRef l' :: rest) s), l', rest, N'.
  split; [apply Hinv'|]. split; [done|].
  split.
  { destruct (keep_take (numberOfPreviousStatesToKeep s) (VRef l' :: previousStates s))
      as [k Hk]. rewrite Hrest in Hk. destruct k as [|k]; [done|].
    simpl in Hk. exists k. congruence. }
  split; [done|]. split; [done|].
  split.
  { destruct Hhid as [Hno Hlt]. split.
    - intros x Hx Hown. destruct (Hwhere x Hx) as [HN|Hge]; [by eapply Hno|].
      specialize (Hlt x Hown). lia.
    - intros x Hown. specialize (Hlt x Hown). simpl.
      rewrite length_insert, length_app. lia. }
  done.
Qed.

Lemma within_at_most {A} (l : list A) n : depth_ok n -> within n l -> at_most l n.
Proof.
  unfold depth_ok, within, at_most. destruct n as [| | |q]; simpl; try done.
  - by intros [? _].
  - intros _. unfold Qltb. rewrite negb_false_iff. apply Qle_bool_iff.
Qed.

(** The history of a constructed store, and what the environment owns,
    as the run of the store begins. *)
Lemma run_begins S2N O2N name initialState logStateToConsole n w this w1 own1 :
  heap_closed (heap w) ->
  new_Store S2N O2N name initialState logStateToConsole n w = (Return this, w1) ->
  outside_history this w1 own1 ->
  exists s1 (N : loc -> Prop) l',
    store_inv this w1 s1 /\ apart N w1 s1 /\ hidden N own1 w1 /\
    previousStates s1 = [VRef l'] /\ heap w1 !! l' = Some (CObj ∅).
Proof.
  intros Hc Hnew Hout.
  destruct (new_Store_inv _ _ _ _ _ _ _ _ _ Hc Hnew)
    as (s1 & N & l' & Hinv1 & Hapart1 & Hp1 & Hl' & _).
  eexists s1, _, l'. split; [done|].
  split; [exact (apart_reached _ _ _ Hapart1)|].
  split; [|done]. apply (outside_history_hidden this); [apply Hinv1|done].
Qed.

(** C2.  Let [this] be the store a construction returned, in a closed
    heap, and let the world go on by any calls of its operations,
    returning or not, any allocations, and any writes of the environment
    to objects that are its own, none of them reached by the history.
    (i) Right after the construction the history is one empty object, the
    state before the initial one.  (ii) At every time the history is no
    longer than the stored depth.  (iii) From any such time, a
    [setStoreState] with a mapping object leaves a history that starts
    with a snapshot reading as the state read just before the call,
    followed by a prefix of the former history (the oldest entries are
    the ones dropped), and still no longer than the depth. *)
Theorem history_bounded S2N O2N name initialState logStateToConsole n
    w this w1 own1 w2 own2 :
  heap_closed (heap w) ->
  new_Store S2N O2N name initialState logStateToConsole n w = (Return this, w1) ->
  outside_history this w1 own1 ->
  rtc (step this) (w1, own1) (w2, own2) ->
  (exists s1 l', instances w1 !! this = Some s1 /\
                 previousStates s1 = [VRef l'] /\ heap w1 !! l' = Some (CObj ∅)) /\
  exists s2,
    instances w2 !! this = Some s2 /\
    at_most (previousStates s2) (numberOfPreviousStatesToKeep s2) /\
    forall newState,
      isObject (heap w2) newState = true ->
      exists s3 snapshot rest,
        instances (setStoreState this newState w2).2 !! this = Some s3 /\
        numberOfPreviousStatesToKeep s3 = numberOfPreviousStatesToKeep s2 /\
        previousStates s3 = snapshot :: rest /\
        (exists k, rest = take k (previousStates s2)) /\
        at_most (previousStates s3) (numberOfPreviousStatesToKeep s3) /\
        deep_equal (heap (setStoreState this newState w2).2) snapshot
                   (heap w2) (VRef (state s2)).
Proof.
  intros Hc Hnew Hout Hsteps.
  destruct (run_begins _ _ _ _ _ _ _ _ _ _ Hc Hnew Hout)
    as (s1 & N & l' & Hinv1 & Hapart1 & Hhid1 & Hp1 & Hl').
  split. { exists s1, l'. split; [apply Hinv1|done]. }
  destruct (steps_preserve this w1 own1 w2 own2 s1 N Hsteps Hinv1 Hapart1 Hhid1)
    as (s2 & N2 & Hinv2 & Hapart2 & Hhid2 & _).
  pose proof Hinv2 as (Hs2 & _ & _ & Hdepth2 & Hwithin2).
  exists s2. split; [done|]. split; [by apply within_at_most|].
  intros newState Hobj.
  destruct (capture this w2 own2 s2 N2 newState Hinv2 Hapart2 Hhid2 Hobj)
    as (s3 & l3 & rest & N3 & Hs3 & Hp3 & Hk & Hinv3 & _ & _ & Hconf & Hsnap & _).
  destruct Hinv3 as (_ & _ & _ & Hdepth3 & Hwithin3).
  exists s3, (VRef l3), rest. split; [done|].
  split; [apply Hconf|]. split; [done|]. split; [done|].
  split; [by apply within_at_most|]. exact Hsnap.
Qed.

(** C3.  Let [this] be the store a construction returned, in a closed
    heap, and let the world go on by any calls of its operations,
    returning or not, any allocations, and any writes of the environment
    to objects that are its own, none of them reached by the history:
    the objects it passes as new states are among them, and so are the
    nested objects that the state shares with them after a merge.
    (i) Whatever is an entry of the history at some time reads the same
    at every later time: to any depth, as the same tree of properties and
    values.  (ii) The snapshot a [setStoreState] takes is made of objects
    that did not exist before the call, none shared with the state or
    with anything else, and it reads, at every later time, as the state
    did just before that call. *)
Theorem snapshots_independent S2N O2N name initialState logStateToConsole n
    w this w1 own1 w2 own2 s2 :
  heap_closed (heap w) ->
  new_Store S2N O2N name initialState logStateToConsole n w = (Return this, w1) ->
  outside_history this w1 own1 ->
  rtc (step this) (w1, own1) (w2, own2) ->
  instances w2 !! this = Some s2 ->
  (forall snapshot w3 own3,
      snapshot ∈ previousStates s2 ->
      rtc (step this) (w2, own2) (w3, own3) ->
      forall d, reify d (heap w3) snapshot = reify d (heap w2) snapshot) /\
  (forall newState,
      isObject (heap w2) newState = true ->
      exists s' snapshot rest,
        instances (setStoreState this newState w2).2 !! this = Some s' /\
        previousStates s' = snapshot :: rest /\
        (forall x, reaches (heap (setStoreState this newState w2).2) snapshot x ->
                   length (heap w2) <= x) /\
        forall w3 own3,
          rtc (step this) ((setStoreState this newState w2).2, own2) (w3, own3) ->
          forall d, reify d (heap w3) snapshot = reify d (heap w2) (VRef (state s2))).
Proof.
  intros Hc Hnew Hout Hsteps Hs2.
  destruct (run_begins _ _ _ _ _ _ _ _ _ _ Hc Hnew Hout)
    as (s1 & N & l' & Hinv1 & Hapart1 & Hhid1 & _).
  destruct (steps_preserve this w1 own1 w2 own2 s1 N Hsteps Hinv1 Hapart1 Hhid1)
    as (s2' & N2 & Hinv2 & Hapart2 & Hhid2 & _).
  assert (s2' = s2) as -> by (destruct Hinv2 as [Hs2' _]; congruence).
  split.
  - intros snapshot w3 own3 Hin Hlater.
    destruct (steps_preserve this w2 own2 w3 own3 s2 N2 Hlater Hinv2 Hapart2 Hhid2)
      as (s3 & N3 & _ & _ & _ & _ & _ & Hread).
    apply Hread. destruct Hapart2 as (_ & _ & Hsnaps).
    rewrite Forall_forall in Hsnaps. by apply Hsnaps.
  - intros newState Hobj.
    destruct (capture this w2 own2 s2 N2 newState Hinv2 Hapart2 Hhid2 Hobj)
      as (s3 & l3 & rest & N3 & Hs3 & Hp3 & _ & Hinv3 & Hapart3 & Hhid3 & _ & Hsnap & Hfresh).
    exists s3, (VRef l3), rest. split; [done|]. split; [done|]. split; [done|].
    intros w3 own3 Hlater.
    destruct (steps_preserve this _ own2 w3 own3 s3 N3 Hlater Hinv3 Hapart3 Hhid3)
      as (s4 & N4 & _ & _ & _ & _ & _ & Hread).
    eapply deep_equal_trans; [|exact Hsnap].
    apply Hread. destruct Hapart3 as (_ & _ & Hsnaps).
    rewrite Hp3 in Hsnaps. by inversion Hsnaps.
Qed.

(** *** The history depth, stored and kept *)

(** C7, as stated, fails, in two places.  A history depth of 1.5 passes
    validation and is stored as it is, and 1.5 is not an integer.  And a
    construction with the empty name fails although its fourth argument,
    2, is a valid number that is not less than 1. *)
Lemma depth_neither_integer_nor_sole_failure :
  (exists w' s,
      new_Store no_number no_number_of_object
                (VStr "counter") (VRef 3) VUndef (VNum (Fin (3 # 2))) counter_world
      = (Return 1, w') /\
      instances w' !! 1 = Some s /\
      numberOfPreviousStatesToKeep s = Fin (3 # 2) /\
      ~ is_integer (numberOfPreviousStatesToKeep s)) /\
  (exists message w',
      new_Store no_number no_number_of_object
                (VStr "") (VRef 3) VUndef (VNum (Fin 2)) counter_world
      = (Throw (Error message), w') /\
      Number no_number no_number_of_object (heap counter_world) (VNum (Fin 2)) = Fin 2 /\
      isNaN (Fin 2) || num_ltb (Fin 2) (Fin 1) = false).
Proof.
  split.
  - eexists _, _. split; [by vm_compute|]. split; [reflexivity|].
    split; [reflexivity|]. apply three_halves_not_integer.
  - eexists _, _. split; [by vm_compute|]. by split.
Qed.

(** C7, amended.  In a closed heap: when a construction returns, the
    stored history depth is the fourth argument as [Number] coerces it
    (15 when it is left out), and it is a number that is at least 1,
    integer or not, possibly Infinity.  Whenever that number is NaN or
    less than 1 the construction throws an error; and when the first
    three arguments are valid, it throws only then.  And the stored
    depth is immutable: however the world goes on from a construction
    that returned, by any calls of the store's operations, returning or
    not, any allocations and any writes of the environment to objects
    that are its own, the store has the depth the constructor stored. *)
Theorem depth_stored S2N O2N name initialState logStateToConsole n w :
  heap_closed (heap w) ->
  let initialState' := (with_default_state initialState w).1 in
  let wd := (with_default_state initialState w).2 in
  let logStateToConsole' := or_default logStateToConsole (VBool false) in
  let parsed := Number S2N O2N (heap wd) (or_default n (VNum (Fin 15))) in
  (forall this w',
      new_Store S2N O2N name initialState logStateToConsole n w = (Return this, w') ->
      exists s, instances w' !! this = Some s /\
                numberOfPreviousStatesToKeep s = parsed /\
                (parsed = PosInf \/ exists q, parsed = Fin q /\ (1 <= q)%Q)) /\
  (n = VUndef -> parsed = Fin 15) /\
  (isNaN parsed || num_ltb parsed (Fin 1) = true ->
   exists message w',
     new_Store S2N O2N name initialState logStateToConsole n w
     = (Throw (Error message), w')) /\
  (nonempty_string name = true ->
   isObject (heap wd) initialState' = true ->
   is_boolean logStateToConsole' = true ->
   (exists e w', new_Store S2N O2N name initialState logStateToConsole n w
                 = (Throw e, w')) ->
   isNaN parsed || num_ltb parsed (Fin 1) = true) /\
  (forall this w1 own1 w2 own2,
      new_Store S2N O2N name initialState logStateToConsole n w = (Return this, w1) ->
      outside_history this w1 own1 ->
      rtc (step this) (w1, own1) (w2, own2) ->
      exists s2, instances w2 !! this = Some s2 /\
                 numberOfPreviousStatesToKeep s2 = parsed).
Proof.
  intros Hc initialState' wd logStateToConsole' parsed.
  assert (Hstored : forall this w',
    new_Store S2N O2N name initialState logStateToConsole n w = (Return this, w') ->
    exists s, instances w' !! this = Some s /\
              numberOfPreviousStatesToKeep s = parsed /\
              (parsed = PosInf \/ exists q, parsed = Fin q /\ (1 <= q)%Q)).
  { intros this w' Hnew.
    pose proof (new_Store_valid _ _ _ _ _ _ _ _ _ Hnew) as Hvalid.
    destruct (new_Store_returns S2N O2N name initialState logStateToConsole n w Hc Hvalid)
      as (l' & ext & N & _ & _ & _ & _ & _ & Hret).
    rewrite Hnew in Hret. injection Hret as -> ->. simpl.
    assert (Hinst : instances wd = instances w) by (unfold wd; by destruct initialState).
    eexists. split.
    { rewrite lookup_app_r by lia. by rewrite Nat.sub_diag. }
    split; [done|]. apply depth_ok_spec.
    by eapply arguments_valid_depth. }
  pose proof (new_Store_run S2N O2N name initialState logStateToConsole n w) as Hrun.
  simpl in Hrun. fold initialState' wd logStateToConsole' parsed in Hrun.
  split; [exact Hstored|]. split; [|split; [|split]].
  - intros ->. done.
  - intros Hbad.
    assert (Hvalid : arguments_valid (heap wd) name initialState' logStateToConsole' parsed
                     = false).
    { unfold arguments_valid. rewrite Hbad. simpl. by rewrite andb_false_r. }
    rewrite Hvalid in Hrun. destruct Hrun as (message & w' & Hthrow & _).
    by exists message, w'.
  - intros Hname Hobj Hbool (e & w' & Hthrow).
    destruct (arguments_valid (heap wd) name initialState' logStateToConsole' parsed)
      eqn:Hvalid.
    + destruct (new_Store_returns S2N O2N name initialState logStateToConsole n w
                  Hc Hvalid) as (l' & ext & N & _ & _ & _ & _ & _ & Hret).
      congruence.
    + unfold arguments_valid in Hvalid. rewrite Hname, Hobj, Hbool in Hvalid.
      simpl in Hvalid. by apply negb_false_iff in Hvalid.
  - intros this w1 own1 w2 own2 Hnew Hout Hsteps.
    destruct (Hstored this w1 Hnew) as (s & Hs & Hn & _).
    destruct (run_begins _ _ _ _ _ _ _ _ _ _ Hc Hnew Hout)
      as (s1 & N & l' & Hinv1 & Hapart1 & Hhid1 & _).
    destruct (steps_preserve this w1 own1 w2 own2 s1 N Hsteps Hinv1 Hapart1 Hhid1)
      as (s2 & N2 & (Hs2 & _) & _ & _ & (_ & _ & _ & Hdepth) & _).
    exists s2. split; [done|]. rewrite Hdepth, <- Hn.
    destruct Hinv1 as [Hs1 _]. congruence.
Qed.

(** *** In the counter world *)

Lemma responds_1 h props :
  h !! 1 = Some (CObj props) -> props !! "setState" = Some (VFun 1 Returns) ->
  responds h (VRef 1).
Proof. intros Hl Hf. by exists 1, props, 1. Qed.



Lemma counter_again_steps :
  rtc (step 1) (counter_again.2, fun x => x < length (heap counter_world))
               (counter_again_updated, fun x => x < length (heap counter_world)).
Proof. eapply rtc_l; [apply step_setStoreState|apply rtc_refl]. Qed.

Lemma depth_stored_witness :
  exists s s2,
    instances counter_again.2 !! 1 = Some s /\
    numberOfPreviousStatesToKeep s = Fin 15 /\
    instances counter_again_updated !! 1 = Some s2 /\
    numberOfPreviousStatesToKeep s2 = Fin 15.
Proof.
  destruct (depth_stored no_number no_number_of_object
              (VStr "again") (VRef 3) VUndef VUndef counter_world counter_heap_closed)
    as (Hstored & Hdefault & _ & _ & Hkept).
  destruct (Hstored 1 counter_again.2 counter_again_returns) as (s & Hs & Hn & _).
  destruct (Hkept 1 counter_again.2 (fun x => x < length (heap counter_world))
              counter_again_updated (fun x => x < length (heap counter_world))
              counter_again_returns
              (construction_outside no_number no_number_of_object
                 (VStr "again") (VRef 3) VUndef VUndef counter_world 1 counter_again.2
                 counter_heap_closed counter_again_returns)
              counter_again_steps)
    as (s2 & Hs2 & Hn2).
  exists s, s2. split; [done|]. split; [by rewrite Hn; apply Hdefault|].
  split; [done|]. rewrite Hn2. by apply Hdefault.
Defined.

Lemma capped_returns : capped = (Return 1, capped.2).
Proof. by vm_compute. Qed.

Lemma capped_steps :
  rtc (step 1) (capped.2, fun x => x < length (heap counter_world))
               (capped_full, fun x => x < length (heap counter_world)).
Proof. eapply rtc_l; [apply step_setStoreState|apply rtc_refl]. Qed.

Lemma history_bounded_witness :
  exists s2 s3 snapshot,
    instances capped_full !! 1 = Some s2 /\
    numberOfPreviousStatesToKeep s2 = Fin 2 /\
    length (previousStates s2) = 2 /\
    at_most (previousStates s2) (numberOfPreviousStatesToKeep s2) /\
    instances (setStoreState 1 (VRef 5) capped_full).2 !! 1 = Some s3 /\
    previousStates s3 = snapshot :: take 1 (previousStates s2) /\
    at_most (previousStates s3) (numberOfPreviousStatesToKeep s3) /\
    deep_equal (heap (setStoreState 1 (VRef 5) capped_full).2) snapshot
               (heap capped_full) (VRef (state s2)) /\
    heap capped_full !! state s2 = Some (CObj {[ "count" := VNum (Fin 1) ]}) /\
    reify 2 (heap (setStoreState 1 (VRef 5) capped_full).2) snapshot
    = TObj {[ "count" := TNum (Fin 1) ]}.
Proof.
  destruct (history_bounded no_number no_number_of_object
              (VStr "capped") (VRef 3) VUndef (VNum (Fin 2)) counter_world 1
              capped.2 (fun x => x < length (heap counter_world))
              capped_full (fun x => x < length (heap counter_world))
              counter_heap_closed capped_returns
              (construction_outside no_number no_number_of_object
                 (VStr "capped") (VRef 3) VUndef (VNum (Fin 2)) counter_world 1 capped.2
                 counter_heap_closed capped_returns)
              capped_steps)
    as (_ & s2 & Hs2 & Hbound & Hnext).
  destruct (Hnext (VRef 5) eq_refl)
    as (s3 & snapshot & rest & Hs3 & Hn & Hp & _ & Hbound3 & Hsnap).
  exists s2, s3, snapshot.
  assert (Hs2' : instances capped_full !! 1
                 = Some (mkStore "capped" 6 [VRef 20; VRef 13] [] false (Fin 2)))
    by (by vm_compute).
  assert (Hs3' : instances (setStoreState 1 (VRef 5) capped_full).2 !! 1
                 = Some (mkStore "capped" 6 [VRef 34; VRef 20] [] false (Fin 2)))
    by (by vm_compute).
  rewrite Hs2' in Hs2. injection Hs2 as <-.
  rewrite Hs3' in Hs3. injection Hs3 as <-.
  injection Hp as <- <-.
  split; [exact Hs2'|]. split; [done|]. split; [done|]. split; [exact Hbound|].
  split; [exact Hs3'|]. split; [done|]. split; [exact Hbound3|].
  split; [exact Hsnap|]. split; [by vm_compute|].
  rewrite (Hsnap 2). by vm_compute.
Defined.

(** *** In the profile world *)

Lemma profile_heap_closed : heap_closed profile_heap.
Proof. apply heap_closed_Forall. apply (bool_decide_unpack _). by vm_compute. Qed.

Lemma profile_built_returns : profile_built = (Return 0, profile_built.2).
Proof. by vm_compute. Qed.

Lemma profile_steps :
  rtc (step 0) (profile_built.2, fun x => x < length (heap profile_world))
               (profile_updated, fun x => x < length (heap profile_world)).
Proof. eapply rtc_l; [apply step_setStoreState|apply rtc_refl]. Qed.

Lemma profile_later_steps :
  rtc (step 0) (profile_updated, fun x => x < length (heap profile_world))
               (profile_later, fun x => x < length (heap profile_world)).
Proof.
  eapply rtc_l.
  { apply (step_write 0 profile_updated _ 1 (CObj {[ "name" := VStr "ann" ]})
                      (CObj {[ "name" := VStr "eve" ]})).
    - simpl. lia.
    - by vm_compute.
    - done.
    - simpl. by apply map_Forall_singleton. }
  eapply rtc_l.
  { apply (step_write 0 profile_renamed _ 3 (CObj {[ "name" := VStr "bob" ]})
                      (CObj {[ "name" := VStr "eve" ]})).
    - simpl. lia.
    - by vm_compute.
    - done.
    - simpl. by apply map_Forall_singleton. }
  eapply rtc_l; [apply step_setStoreState|apply rtc_refl].
Qed.

Lemma profile_store_lookup : instances profile_updated !! 0 = Some profile_store.
Proof. by vm_compute. Qed.

Lemma snapshots_independent_witness :
  length (previousStates profile_store) = 2 /\
  state profile_store = 4 /\
  reify 3 (heap profile_updated) (VRef 4) <> reify 3 (heap profile_rewritten) (VRef 4) /\
  Forall (fun snapshot =>
            reify 3 (heap profile_later) snapshot
            = reify 3 (heap profile_updated) snapshot)
         (previousStates profile_store).
Proof.
  split; [by vm_compute|]. split; [by vm_compute|]. split; [by vm_compute|].
  apply Forall_forall. intros snapshot Hin.
  destruct (snapshots_independent no_number no_number_of_object
              (VStr "profile") (VRef 0) VUndef VUndef profile_world 0
              profile_built.2 (fun x => x < length (heap profile_world))
              profile_updated (fun x => x < length (heap profile_world))
              profile_store
              profile_heap_closed profile_built_returns
              (construction_outside no_number no_number_of_object
                 (VStr "profile") (VRef 0) VUndef VUndef profile_world 0 profile_built.2
                 profile_heap_closed profile_built_returns)
              profile_steps profile_store_lookup) as [Hkept _].
  exact (Hkept snapshot profile_later _ Hin profile_later_steps 3).
Defined.

(** ** The registry *)

(** The callback throws at the first store whose name has been seen, and
    only the trace changes. *)
Lemma reduce_stores_duplicate w before store s after storeNames storesObject :
  Forall (fun store => is_Some (instances w !! store)) before ->
  NoDup (storeNames ++ names_of w before) ->
  instances w !! store = Some s ->
  name s ∈ storeNames ++ names_of w before ->
  reduce_stores (before ++ store :: after) storeNames storesObject w
  = (Throw (Error (logPrefix +:+ "There is already a store with the name " +:+ dquote
                     +:+ name s +:+ dquote +:+ ". Store names must be unique.")),
     emit (console_error (DNames (storeNames ++ names_of w before))) w).
Proof.
  intros Hall. revert storeNames storesObject.
  induction Hall as [|x before [sx Hx] Hall IH]; intros storeNames storesObject Hnd Hs Hin.
  - simpl in *. rewrite app_nil_r in *.
    rewrite (bind_return _ _ _ _ _ (read_return _ _ _ Hs)).
    rewrite bool_decide_eq_true_2 by done.
    by rewrite (bind_throw _ _ _ _ _ (throwError_run _ _ _)).
  - simpl. unfold names_of in *. simpl in *. rewrite Hx in *. simpl in *.
    rewrite (bind_return _ _ _ _ _ (read_return _ _ _ Hx)).
    assert (Hfresh : name sx ∉ storeNames).
    { apply NoDup_app in Hnd as (_ & Hdisj & _). intros Hin'.
      apply (Hdisj _ Hin'). left. }
    rewrite bool_decide_eq_false_2 by done.
    rewrite (bind_return _ _ w tt w) by done.
    rewrite IH.
    + by rewrite <- app_assoc.
    + by rewrite <- app_assoc.
    + done.
    + by rewrite <- app_assoc.
Qed.

Lemma omap_instance_of (l : list nat) : omap instance_of (Instance <$> l) = l.
Proof.
  induction l as [|x l IH]; [done|].
  change (x :: omap instance_of (Instance <$> l) = x :: l). by rewrite IH.
Qed.

Lemma instances_pass_check (l : list nat) w :
  forEach (Instance <$> l) (fun store =>
    match store with
    | Instance _ => ret tt
    | _ => throwError "Invalid Store intance passed to makeStoresGloballyAvailable."
                      (DItem store)
    end) w = (Return tt, w).
Proof.
  induction l as [|x l IH]; [done|]. simpl.
  by rewrite (bind_return _ _ w tt w).
Qed.

(** Whatever registry was published before, an array of stores in which
    a name comes twice makes [makeStoresGloballyAvailable] throw at the
    first store that repeats a name, with [root.whitelodge] deleted. *)
Lemma makeStoresGloballyAvailable_duplicate w before store s after :
  Forall (fun store => is_Some (instances w !! store)) before ->
  NoDup (names_of w before) ->
  instances w !! store = Some s ->
  name s ∈ names_of w before ->
  makeStoresGloballyAvailable (ArrayOf (Instance <$> (before ++ store :: after))) w
  = (Throw (Error (logPrefix +:+ "There is already a store with the name " +:+ dquote
                     +:+ name s +:+ dquote +:+ ". Store names must be unique.")),
     emit (console_error (DNames (names_of w before))) (set_whitelodge None w)).
Proof.
  intros Hall Hnd Hs Hin. unfold makeStoresGloballyAvailable.
  rewrite (bind_return _ _ w (heap w) w) by done. cbn [as_array].
  rewrite (bind_return _ _ _ _ _ (instances_pass_check _ _)).
  rewrite (bind_return _ _ w tt (set_whitelodge None w)) by done.
  rewrite omap_instance_of.
  by rewrite (bind_throw _ _ _ _ _
    (reduce_stores_duplicate (set_whitelodge None w) before store s after [] ∅
       Hall Hnd Hs Hin)).
Qed.

(** The two checks made before the deletion leave the registry as it
    was: an argument that is not an array, and an element that is not a
    Store instance. *)
Lemma makeStoresGloballyAvailable_not_array w stores :
  as_array (heap w) stores = None ->
  exists w',
    makeStoresGloballyAvailable stores w
    = (Throw (Error "whitelodge | makeStoresGloballyAvailable expects an array of Store instances."),
       w') /\
    whitelodge w' = whitelodge w.
Proof.
  intros Hno. unfold makeStoresGloballyAvailable.
  rewrite (bind_return _ _ w (heap w) w) by done. rewrite Hno, throwError_run.
  eexists. split; [done|]. by destruct (received _).
Qed.

Lemma makeStoresGloballyAvailable_not_instance w (before : list nat) x after :
  instance_of x = None ->
  exists w',
    makeStoresGloballyAvailable (ArrayOf ((Instance <$> before) ++ x :: after)) w
    = (Throw (Error "whitelodge | Invalid Store intance passed to makeStoresGloballyAvailable."),
       w') /\
    whitelodge w' = whitelodge w.
Proof.
  intros Hx. unfold makeStoresGloballyAvailable.
  rewrite (bind_return _ _ w (heap w) w) by done. cbn [as_array].
  assert (Hcheck : forEach ((Instance <$> before) ++ x :: after) (fun store =>
    match store with
    | Instance _ => ret tt
    | _ => throwError "Invalid Store intance passed to makeStoresGloballyAvailable."
                      (DItem store)
    end) w
    = (Throw (Error "whitelodge | Invalid Store intance passed to makeStoresGloballyAvailable."),
       if received (DItem x) then emit (console_error (DItem x)) w else w)).
  { induction before as [|b before IH]; simpl.
    - destruct x; try done;
        by rewrite (bind_throw _ _ _ _ _ (throwError_run _ _ _)).
    - by rewrite (bind_return _ _ w tt w). }
  rewrite (bind_throw _ _ _ _ _ Hcheck).
  eexists. split; [done|]. by destruct (received _).
Qed.

(** C4, at a failing input.  With a registry published, registering two
    stores both named "a" throws the duplicate-name error for the second
    of them, and the registry that was published is gone. *)
Theorem duplicate_name_unpublishes :
  whitelodge registry_world = Some {[ "a" := 0 ]} /\
  exists w',
    makeStoresGloballyAvailable (ArrayOf [Instance 0; Instance 1]) registry_world
    = (Throw (Error ("whitelodge | There is already a store with the name " +:+ dquote
                       +:+ "a" +:+ dquote +:+ ". Store names must be unique.")),
       w') /\
    whitelodge w' = None.
Proof.
  split; [done|]. eexists. split.
  - apply (makeStoresGloballyAvailable_duplicate registry_world [0] 1
             (mkStore "a" 1 [] [] false (Fin 15)) []).
    + repeat constructor. by eexists.
    + apply NoDup_singleton.
    + done.
    + apply list_elem_of_singleton. done.
  - done.
Qed.

(** ** Detaching a component *)

(** [componentWillUnmount] throws a TypeError in every world, and
    nothing has been unsubscribed. *)
Lemma componentWillUnmount_throws this w :
  componentWillUnmount this w = (Throw TypeError, w).
Proof.
  unfold componentWillUnmount. rewrite (bind_return _ _ w (whitelodge w) w) by done.
  destruct (whitelodge w) as [stores|]; [|done]. by destruct (stores !! "forEach").
Qed.

(** C9, at a failing input.  The component attaches to "testStore" and
    is then a subscriber of it.  Detaching it throws a TypeError, and the
    component is still a subscriber of the store. *)
Theorem detachment_fails :
  subscribeToStores (VRef 1) (VRef 2) test_world = (Return tt, test_world_mounted) /\
  (subscribers <$> instances test_world_mounted !! 0) = Some [VRef 1] /\
  exists w',
    componentWillUnmount (VRef 1) test_world_mounted = (Throw TypeError, w') /\
    (subscribers <$> instances w' !! 0) = Some [VRef 1].
Proof.
  split; [by vm_compute|]. split; [by vm_compute|].
  eexists. split; [apply componentWillUnmount_throws|]. by vm_compute.
Qed.

(** ** Unsubscribing *)

Lemma first_index_spec v subs i0 :
  match first_index v subs i0 with
  | Some i =>
      exists before x after,
        subs = before ++ x :: after /\ i = i0 + length before /\
        strict_equal x v = true /\ present v before = false
  | None => present v subs = false
  end.
Proof.
  revert i0. induction subs as [|y subs IH]; intros i0; simpl; [done|].
  destruct (strict_equal y v) eqn:Hy.
  - exists [], y, subs. simpl. split; [done|]. split; [lia|done].
  - specialize (IH (S i0)). destruct (first_index v subs (S i0)) as [i|].
    + destruct IH as (before & x & after & -> & -> & Hx & Hb).
      exists (y :: before), x, after. simpl. split; [done|]. split; [lia|].
      split; [done|]. unfold present in *. cbn [existsb]. by rewrite Hy.
    + done.
Qed.

(** X1.  [unsubscribe(v)] never throws.  When [v] is not among the
    subscribers (by [===]) the world is left as it was; otherwise the
    first occurrence of [v], and nothing else, is removed. *)
Theorem unsubscribe_effect w this s v :
  instances w !! this = Some s ->
  exists w',
    unsubscribe this v w = (Return tt, w') /\
    (present v (subscribers s) = false -> w' = w) /\
    (present v (subscribers s) = true ->
     exists before x after,
       subscribers s = before ++ x :: after /\
       strict_equal x v = true /\ present v before = false /\
       w' = set_instances
              (<[this := set_subscribers (before ++ after) s]> (instances w)) w).
Proof.
  intros Hs. rewrite (unsubscribe_run _ _ _ _ Hs). eexists. split; [done|].
  pose proof (first_index_spec v (subscribers s) 0) as Hfirst.
  destruct (first_index v (subscribers s) 0) as [i|].
  - destruct Hfirst as (before & x & after & Hsubs & -> & Hx & Hb).
    split.
    { intros Hno. rewrite Hsubs in Hno. unfold present in Hno.
      rewrite existsb_app in Hno. simpl in Hno. rewrite Hx in Hno.
      by rewrite orb_true_r in Hno. }
    intros _. exists before, x, after. split; [done|]. split; [done|]. split; [done|].
    rewrite Hsubs. simpl.
    assert (delete (length before) (before ++ x :: after) = before ++ after) as ->; [|done].
    clear. induction before as [|b before IH]; [done|]. simpl. by rewrite IH.
  - split; [done|]. congruence.
Qed.

Lemma unsubscribe_effect_witness :
  unsubscribe 0 (VRef 1) counter_world
  = (Return tt, set_instances [set_subscribers [VRef 2] counter_store] counter_world).
Proof.
  destruct (unsubscribe_effect counter_world 0 counter_store (VRef 1) eq_refl)
    as (w' & Hrun & _ & Hremoved).
  destruct (Hremoved eq_refl) as (before & x & after & Hsubs & Hx & Hb & ->).
  rewrite Hrun. f_equal. f_equal. f_equal. f_equal.
  apply strict_equal_ref in Hx. subst x.
  change (subscribers counter_store) with [VRef 1; VRef 2] in Hsubs.
  destruct before as [|b before].
  - simpl in Hsubs. by injection Hsubs as <-.
  - simpl in Hsubs. injection Hsubs as <- Hrest.
    unfold present in Hb. simpl in Hb. done.
Defined.

(** ** Publishing a registry *)

Lemma names_of_cons w store s stores :
  instances w !! store = Some s -> names_of w (store :: stores) = name s :: names_of w stores.
Proof. intros Hs. unfold names_of. simpl. by rewrite Hs. Qed.

Lemma elem_of_names_of w stores store s :
  store ∈ stores -> instances w !! store = Some s -> name s ∈ names_of w stores.
Proof.
  intros Hin Hs. unfold names_of. apply list_elem_of_omap.
  exists store. split; [done|]. by rewrite Hs.
Qed.

Lemma reduce_stores_distinct w stores storeNames storesObject :
  Forall (fun store => is_Some (instances w !! store)) stores ->
  NoDup (storeNames ++ names_of w stores) ->
  exists published,
    reduce_stores stores storeNames storesObject w = (Return published, w) /\
    (forall store s, store ∈ stores -> instances w !! store = Some s ->
                     published !! name s = Some store) /\
    (forall k, k ∉ names_of w stores -> published !! k = storesObject !! k) /\
    (forall k store, published !! k = Some store ->
                     storesObject !! k = Some store \/
                     (store ∈ stores /\
                      exists s, instances w !! store = Some s /\ name s = k)).
Proof.
  intros Hall. revert storeNames storesObject.
  induction Hall as [|x stores [sx Hx] Hall IH]; intros storeNames storesObject Hnd.
  - exists storesObject. split; [done|]. split; [by intros ? ? ?%elem_of_nil|].
    split; [done|]. auto.
  - rewrite (names_of_cons _ _ _ _ Hx) in Hnd.
    assert (Hfresh : name sx ∉ storeNames).
    { apply NoDup_app in Hnd as (_ & Hdisj & _). intros Hin'.
      apply (Hdisj _ Hin'). left. }
    assert (Hlater : name sx ∉ names_of w stores).
    { apply NoDup_app in Hnd as (_ & _ & Hnd). by apply NoDup_cons in Hnd as [? _]. }
    destruct (IH (storeNames ++ [name sx]) (<[name sx := x]> storesObject))
      as (published & Hrun & Hfound & Hother & Hback).
    { by rewrite <- app_assoc. }
    exists published. split.
    { simpl. rewrite (bind_return _ _ _ _ _ (read_return _ _ _ Hx)).
      rewrite bool_decide_eq_false_2 by done.
      by rewrite (bind_return _ _ w tt w). }
    split.
    { intros store s Hin Hs. apply elem_of_cons in Hin as [->|Hin].
      - assert (s = sx) as -> by congruence.
        rewrite (Hother _ Hlater). apply lookup_insert_eq.
      - by apply Hfound. }
    split.
    { intros k Hk. rewrite (names_of_cons _ _ _ _ Hx) in Hk.
      apply not_elem_of_cons in Hk as [Hne Hk].
      rewrite (Hother _ Hk). by apply lookup_insert_ne. }
    intros k store Hk. destruct (Hback k store Hk) as [Hins|(Hin & s & Hs & Hname)].
    + apply lookup_insert_Some in Hins as [[<- <-]|[_ Hold]]; [|by left].
      right. split; [left|]. by exists sx.
    + right. split; [by right|]. by exists s.
Qed.

(** X2.  Registering stores whose names are all different, none of them
    "__proto__" (an assignment to that key of the registry makes no
    property), returns and publishes, in place of whatever was published
    before, a registry in which each name leads to its store and to
    nothing else. *)
Theorem registry_published w stores :
  Forall (fun store => is_Some (instances w !! store)) stores ->
  NoDup (names_of w stores) ->
  "__proto__" ∉ names_of w stores ->
  exists published,
    makeStoresGloballyAvailable (ArrayOf (Instance <$> stores)) w
    = (Return tt, set_whitelodge (Some published) w) /\
    (forall store s, store ∈ stores -> instances w !! store = Some s ->
                     published !! name s = Some store) /\
    (forall k store, published !! k = Some store ->
                     store ∈ stores /\
                     exists s, instances w !! store = Some s /\ name s = k).
Proof.
  intros Hall Hnd _.
  destruct (reduce_stores_distinct (set_whitelodge None w) stores [] ∅ Hall Hnd)
    as (published & Hrun & Hfound & _ & Hback).
  exists published. split; [|split; [exact Hfound|]].
  - unfold makeStoresGloballyAvailable.
    rewrite (bind_return _ _ w (heap w) w) by done. cbn [as_array].
    rewrite (bind_return _ _ _ _ _ (instances_pass_check _ _)).
    rewrite (bind_return _ _ w tt (set_whitelodge None w)) by done.
    rewrite omap_instance_of.
    by rewrite (bind_return _ _ _ _ _ Hrun).
  - intros k store Hk. destruct (Hback k store Hk) as [Hempty|H]; [|done].
    by rewrite lookup_empty in Hempty.
Qed.

Lemma registry_published_witness :
  exists published,
    makeStoresGloballyAvailable (ArrayOf [Instance 0; Instance 1]) two_stores_world
    = (Return tt, set_whitelodge (Some published) two_stores_world) /\
    published !! "a" = Some 0 /\ published !! "b" = Some 1 /\ published !! "old" = None.
Proof.
  destruct (registry_published two_stores_world [0; 1])
    as (published & Hrun & Hfound & Hback).
  { repeat constructor; by eexists. }
  { apply (bool_decide_unpack _). by vm_compute. }
  { apply (bool_decide_unpack _). by vm_compute. }
  exists published. split; [exact Hrun|].
  split; [by apply (Hfound 0 (mkStore "a" 0 [] [] false (Fin 15))); [left|]|].
  split; [by apply (Hfound 1 (mkStore "b" 1 [] [] false (Fin 15))); [right; left|]|].
  destruct (published !! "old") as [store|] eqn:Hold; [|done].
  destruct (Hback _ _ Hold) as (Hin & s & Hs & Hname).
  repeat (apply elem_of_cons in Hin as [->|Hin]); try by apply elem_of_nil in Hin.
  - injection Hs as <-. done.
  - injection Hs as <-. done.
Defined.

(** ** What a rejected argument leaves behind *)

Lemma received_dumped v w :
  (if received (DItem (Value v)) then emit (console_error (DItem (Value v))) w else w)
  = add_trace (dumped v) w.
Proof.
  unfold received, dumped. case_bool_decide as Hd.
  - destruct Hd as [->| ->]; by rewrite add_trace_nil.
  - destruct v as [| |b|n|s|l|f b]; try done.
    + exfalso. apply Hd. by left.
    + destruct (String.eqb_spec s "varToDumpNotReceived") as [->|Hne]; [|done].
      exfalso. apply Hd. by right.
Qed.

(** X3.  [setStoreState] with an argument that is not a mapping object
    throws "State must be an object." before it reads anything of the
    store, and the only thing it has done is to print the argument with
    [console.error]; it prints nothing when the argument is [undefined]
    or the string 'varToDumpNotReceived'. *)
Theorem rejected_state_report w this newState :
  isObject (heap w) newState = false ->
  setStoreState this newState w
  = (Throw (Error "whitelodge | State must be an object."),
     add_trace (dumped newState) w).
Proof.
  intros Hobj. unfold setStoreState.
  rewrite (bind_throw _ _ _ _ _ (validateNewState_rejects _ _ Hobj)).
  by rewrite received_dumped.
Qed.

Lemma rejected_state_report_witness :
  setStoreState 0 VUndef counter_world
  = (Throw (Error "whitelodge | State must be an object."), counter_world) /\
  setStoreState 0 (VNum (Fin 1)) counter_world
  = (Throw (Error "whitelodge | State must be an object."),
     emit (console_error (DItem (Value (VNum (Fin 1))))) counter_world).
Proof.
  split.
  - exact (rejected_state_report counter_world 0 VUndef eq_refl).
  - exact (rejected_state_report counter_world 0 (VNum (Fin 1)) eq_refl).
Defined.

(** X4.  [subscribe(v)] with a [v] that has no callable [setState]
    fails before it reads anything of the store: with a TypeError and
    nothing printed when [v] is [undefined] or [null], and otherwise
    with the error of the library, [v] having been printed (unless it is
    the string 'varToDumpNotReceived'). *)
Theorem rejected_subscriber_report w this v :
  capable (heap w) v = false ->
  subscribe this v w
  = if bool_decide (v = VUndef \/ v = VNull)
    then (Throw TypeError, w)
    else (Throw (Error "whitelodge | Store subscribers must be components with a setState function as a property."),
          add_trace (dumped v) w).
Proof.
  intros Hcap.
  assert (Hgo : v <> VUndef -> v <> VNull ->
                get_property v "setState" w = (Return (property (heap w) v "setState"), w) ->
                isFunction (property (heap w) v "setState") = false ->
                subscribe this v w
                = (Throw (Error "whitelodge | Store subscribers must be components with a setState function as a property."),
                   add_trace (dumped v) w)).
  { intros _ _ Hget Hno. unfold subscribe.
    rewrite (bind_return _ _ _ _ _ Hget). rewrite Hno. cbn [negb].
    rewrite (bind_throw _ _ _ _ _ (throwError_run _ _ _)).
    by rewrite received_dumped. }
  destruct v as [| |b|n|s|l|f b];
    try (rewrite bool_decide_eq_true_2 by (by left + by right); reflexivity);
    (rewrite bool_decide_eq_false_2 by (intros [?|?]; done));
    apply Hgo; done.
Qed.

Lemma rejected_subscriber_report_witness :
  subscribe 0 VNull counter_world = (Throw TypeError, counter_world) /\
  subscribe 0 (VRef 3) counter_world
  = (Throw (Error "whitelodge | Store subscribers must be components with a setState function as a property."),
     emit (console_error (DItem (Value (VRef 3)))) counter_world).
Proof.
  split.
  - exact (rejected_subscriber_report counter_world 0 VNull eq_refl).
  - exact (rejected_subscriber_report counter_world 0 (VRef 3) eq_refl).
Defined.

(** ** A construction that fails *)

Lemma validateArguments_complaint w name initialState logStateToConsole n message v :
  complaint (heap w) name initialState logStateToConsole n = Some (message, v) ->
  validateArguments name initialState logStateToConsole n w
  = (Throw (Error (logPrefix +:+ message)), add_trace (dumped v) w).
Proof.
  unfold complaint, validateArguments.
  destruct (nonempty_string name); cbn [negb].
  2: { intros [= <- <-]. rewrite (bind_throw _ _ _ _ _ (throwError_run _ _ _)).
       by rewrite received_dumped. }
  rewrite (bind_return _ _ w tt w) by done.
  destruct (isObject (heap w) initialState) eqn:Hobj; cbn [negb].
  2: { intros [= <- <-].
       rewrite (bind_throw _ _ _ _ _ (validateNewState_rejects _ _ Hobj)).
       by rewrite received_dumped. }
  rewrite (bind_return _ _ _ _ _ (validateNewState_accepts _ _ Hobj)).
  destruct (is_boolean logStateToConsole); cbn [negb].
  2: { intros [= <- <-]. rewrite (bind_throw _ _ _ _ _ (throwError_run _ _ _)).
       by rewrite received_dumped. }
  rewrite (bind_return _ _ w tt w) by done.
  destruct (isNaN n || num_ltb n (Fin 1)); [|done].
  intros [= <- <-]. rewrite throwError_run. by rewrite received_dumped.
Qed.

(** X5.  A construction whose arguments do not pass [validateArguments]
    throws the complaint of the first check that fails, in the order
    name, initial state, logging flag, history depth, having printed the
    offending argument (nothing when it is [undefined]).  No store has
    been created: the table of
    instances, the registry and every object that existed are as they
    were; the heap holds at most one new object, the empty default of a
    missing initial state. *)
Theorem failed_construction S2N O2N name initialState logStateToConsole n w message v :
  let initialState' := (with_default_state initialState w).1 in
  let wd := (with_default_state initialState w).2 in
  let logStateToConsole' := or_default logStateToConsole (VBool false) in
  let parsed := Number S2N O2N (heap wd) (or_default n (VNum (Fin 15))) in
  complaint (heap wd) name initialState' logStateToConsole' parsed = Some (message, v) ->
  new_Store S2N O2N name initialState logStateToConsole n w
  = (Throw (Error (logPrefix +:+ message)), add_trace (dumped v) wd) /\
  instances wd = instances w /\ whitelodge wd = whitelodge w /\
  component_state wd = component_state w /\
  (heap wd = heap w \/ initialState = VUndef /\ heap wd = heap w ++ [CObj ∅]).
Proof.
  intros initialState' wd logStateToConsole' parsed Hcomplaint.
  split.
  - assert (Hstart : new_Store S2N O2N name initialState logStateToConsole n w
            = (validateArguments name initialState' logStateToConsole' parsed ;;;
               st <- new_object ;;
               this <- gets (fun w => length (instances w)) ;;
               modify (fun w => set_instances
                 (instances w ++ [mkStore (string_of name) st [] []
                                          (bool_of logStateToConsole') parsed]) w) ;;;
               setStoreState this initialState' ;;;
               ret this) wd).
    { unfold new_Store, initialState', wd, parsed, logStateToConsole'.
      destruct initialState; try done. }
    rewrite Hstart.
    by rewrite (bind_throw _ _ _ _ _ (validateArguments_complaint _ _ _ _ _ _ _ Hcomplaint)).
  - unfold wd. destruct initialState; simpl; do 3 (split; [done|]);
      (by left) || (by right).
Qed.

Lemma failed_construction_witness :
  new_Store no_number no_number_of_object (VStr "") VNull (VNum (Fin 3)) VNull counter_world
  = (Throw (Error "whitelodge | Store name should be a non-empty string."),
     emit (console_error (DItem (Value (VStr "")))) counter_world).
Proof.
  exact (proj1 (failed_construction no_number no_number_of_object
                  (VStr "") VNull (VNum (Fin 3)) VNull counter_world _ _ eq_refl)).
Defined.

(** ** How the history fills *)

Lemma keep_length {A} n (l : list A) :
  depth_ok n -> length (keep n l) = capacity n (length l).
Proof.
  intros [Hnan H1]. unfold keep, capacity.
  destruct n as [| | |q]; simpl in *; try done.
  rewrite Qltb_1 in H1. apply Z.ltb_ge in H1.
  destruct (quot_bounds (Qnum q) (Zpos (Qden q))) as (Hq1 & Hq2 & Hq3); [lia..|].
  rewrite <- (Z.quot_div_nonneg (Qnum q) (Zpos (Qden q))) by lia.
  set (z := Z.quot (Qnum q) (Zpos (Qden q))) in *.
  rewrite Qltb_inject.
  destruct (Qnum q <? Z.of_nat (length l) * Zpos (Qden q))%Z eqn:E.
  - apply Z.ltb_lt in E. destruct (z <? 0)%Z eqn:Hz; [lia|].
    rewrite length_take. nia.
  - apply Z.ltb_ge in E. nia.
Qed.

(** X6.  The history push that every [setStoreState] with a mapping
    object begins with, before any subscriber is called, returns and
    leaves a history one entry longer than before, up to the integer
    part of the history depth: with a depth of 1.5 the history holds
    one entry, and with a depth of Infinity nothing is ever dropped. *)
Theorem history_length w this s :
  instances w !! this = Some s ->
  depth_ok (numberOfPreviousStatesToKeep s) ->
  exists w' s',
    addCurrentStateToPreviousStates this w = (Return tt, w') /\
    instances w' !! this = Some s' /\
    length (previousStates s')
    = capacity (numberOfPreviousStatesToKeep s) (S (length (previousStates s))).
Proof.
  intros Hs Hdepth.
  rewrite (addCurrentStateToPreviousStates_run _ _ _ Hs). unfold pushed.
  destruct (clone (heap w) (VRef (state s))) as [snapshot h'].
  eexists _, _. split; [done|]. split.
  { simpl. apply list_lookup_insert_eq. by eapply lookup_lt_Some. }
  simpl. by rewrite keep_length.
Qed.

Lemma history_length_witness :
  exists w' s',
    addCurrentStateToPreviousStates 0 half_world = (Return tt, w') /\
    instances w' !! 0 = Some s' /\
    length (previousStates s') = 1.
Proof.
  exact (history_length half_world 0 (mkStore "half" 0 [VRef 5] [] false (Fin (3 # 2)))
           eq_refl (conj eq_refl eq_refl)).
Defined.

(** ** One store at a time *)

(** X7.  A [subscribe] or an [unsubscribe] on a store, whatever its
    outcome, leaves every other store as it was, and with it the
    registry, the components' local state and every object of the
    heap. *)
Theorem other_stores_untouched w this s v w2 :
  instances w !! this = Some s ->
  w2 ∈ [(subscribe this v w).2; (unsubscribe this v w).2] ->
  (forall that, that <> this -> instances w2 !! that = instances w !! that) /\
  length (instances w2) = length (instances w) /\
  whitelodge w2 = whitelodge w /\ component_state w2 = component_state w /\
  heap w2 = heap w.
Proof.
  intros Hs Hin.
  assert (Hsame : forall t, let w2 := add_trace t w in
    (forall that, that <> this -> instances w2 !! that = instances w !! that) /\
    length (instances w2) = length (instances w) /\
    whitelodge w2 = whitelodge w /\ component_state w2 = component_state w /\
    heap w2 = heap w).
  { intros t. simpl. auto. }
  assert (Hfield : forall s', let w2 := set_instances (<[this := s']> (instances w)) w in
    (forall that, that <> this -> instances w2 !! that = instances w !! that) /\
    length (instances w2) = length (instances w) /\
    whitelodge w2 = whitelodge w /\ component_state w2 = component_state w /\
    heap w2 = heap w).
  { intros s'. simpl. split; [|by rewrite length_insert].
    intros that Hne. by rewrite list_lookup_insert_ne. }
  repeat (apply elem_of_cons in Hin as [->|Hin]).
  - rewrite (subscribe_run _ _ _ _ Hs).
    assert (Hthrow : forall d (r : outcome unit),
      let w2 := (r, if received d then emit (console_error d) w else w).2 in
      (forall that, that <> this -> instances w2 !! that = instances w !! that) /\
      length (instances w2) = length (instances w) /\
      whitelodge w2 = whitelodge w /\ component_state w2 = component_state w /\
      heap w2 = heap w).
    { intros d r. simpl. by destruct (received d). }
    destruct v as [| |b|n|str|l|f b]; try (by apply (Hsame []));
      (destruct (isFunction _); [destruct (present _ _)|]; try apply Hthrow;
       apply Hfield).
  - rewrite (unsubscribe_run _ _ _ _ Hs). simpl.
    destruct (first_index _ _ _); [apply Hfield|]. by apply (Hsame []).
  - by apply elem_of_nil in Hin.
Qed.

Lemma other_stores_untouched_witness :
  instances (subscribe 0 (VRef 1) two_stores_world).2 !! 1
  = Some (mkStore "b" 1 [] [] false (Fin 15)) /\
  heap (subscribe 0 (VRef 1) two_stores_world).2 = heap two_stores_world.
Proof.
  destruct (other_stores_untouched two_stores_world 0 (mkStore "a" 0 [] [] false (Fin 15))
              (VRef 1) (subscribe 0 (VRef 1) two_stores_world).2 eq_refl)
    as (Hother & _ & _ & _ & Hheap).
  { left. }
  split; [|exact Hheap]. by rewrite (Hother 1) by done.
Defined.

(** ** Subscribing and then unsubscribing *)

Lemma first_index_last v subs i0 :
  present v subs = false -> strict_equal v v = true ->
  first_index v (subs ++ [v]) i0 = Some (i0 + length subs).
Proof.
  revert i0. induction subs as [|x subs IH]; intros i0 Hno Hv; simpl.
  - rewrite Hv. f_equal. lia.
  - unfold present in Hno. simpl in Hno. apply orb_false_iff in Hno as [Hx Hno].
    rewrite Hx. rewrite IH by done. f_equal. lia.
Qed.

Lemma delete_last {A} (l : list A) x : delete (length l) (l ++ [x]) = l.
Proof. induction l as [|y l IH]; [done|]. simpl. by rewrite IH. Qed.

Lemma subscribe_returned w this s v w1 :
  instances w !! this = Some s ->
  subscribe this v w = (Return tt, w1) ->
  (exists l, v = VRef l) /\ capable (heap w) v = true /\
  present v (subscribers s) = false /\
  w1 = set_instances (<[this := set_subscribers (subscribers s ++ [v]) s]> (instances w)) w.
Proof.
  intros Hs. rewrite (subscribe_run _ _ _ _ Hs).
  destruct v as [| |b|n|str|l|f b]; try done;
    (destruct (isFunction _) eqn:Hf; [destruct (present _ _) eqn:Hp|]; try done).
  intros [= <-]. split; [by eexists|]. by split.
Qed.

(** X8.  When [subscribe(v)] has returned, [unsubscribe(v)] gives back
    the world as it was before the two calls. *)
Theorem subscribe_then_unsubscribe w this s v w1 :
  instances w !! this = Some s ->
  subscribe this v w = (Return tt, w1) ->
  unsubscribe this v w1 = (Return tt, w).
Proof.
  intros Hs Hsub.
  destruct (subscribe_returned _ _ _ _ _ Hs Hsub) as ([l ->] & _ & Hno & ->).
  assert (Hlt : this < length (instances w)) by (by eapply lookup_lt_Some).
  rewrite (unsubscribe_run _ this (set_subscribers (subscribers s ++ [VRef l]) s)).
  2: { simpl. by apply list_lookup_insert_eq. }
  simpl. rewrite (first_index_last _ _ 0 Hno) by (simpl; apply Nat.eqb_refl).
  simpl. rewrite delete_last, list_insert_insert_eq. f_equal.
  destruct w as [h i r c t]. unfold set_instances. simpl in *. f_equal.
  apply list_insert_id. rewrite Hs. by destruct s.
Qed.

Lemma subscribe_then_unsubscribe_witness :
  unsubscribe 0 (VRef 4) (subscribe 0 (VRef 4) counter_world).2
  = (Return tt, counter_world).
Proof.
  exact (subscribe_then_unsubscribe counter_world 0 counter_store (VRef 4) _
           eq_refl eq_refl).
Defined.

(** ** What a run keeps of the subscribers and of the configuration *)

(** What every step keeps of the store, a run keeps. *)
Lemma steps_keep (P : Store -> Prop) this :
  (forall w own w' own' s s',
      store_inv this w s -> step this (w, own) (w', own') ->
      instances w' !! this = Some s' -> P s -> P s') ->
  forall w own w' own' s N,
    rtc (step this) (w, own) (w', own') ->
    store_inv this w s -> apart N w s -> hidden N own w -> P s ->
    exists s', store_inv this w' s' /\ same_configuration s s' /\ P s'.
Proof.
  intros Hkeep w own w' own' s N Hsteps.
  remember (w, own) as a eqn:Ha. remember (w', own') as b eqn:Hb.
  revert w own s N Ha.
  induction Hsteps as [a|a [w1 own1] b Hstep Hsteps IH];
    intros w own s N -> Hinv Hapart Hhid HP.
  - injection Hb as -> ->. by exists s.
  - destruct (step_preserves this w own w1 own1 s N Hinv Hapart Hhid Hstep)
      as (s1 & N1 & Hinv1 & Hapart1 & Hhid1 & Hconf1 & _).
    assert (HP1 : P s1).
    { eapply Hkeep; [exact Hinv|exact Hstep|apply Hinv1|exact HP]. }
    destruct (IH Hb w1 own1 s1 N1 eq_refl Hinv1 Hapart1 Hhid1 HP1)
      as (s' & Hinv' & Hconf' & HP').
    exists s'. split; [done|]. split; [|done].
    destruct Hconf1 as (? & ? & ? & ?), Hconf' as (? & ? & ? & ?).
    unfold same_configuration. split; [congruence|]. split; [congruence|].
    split; congruence.
Qed.

Lemma delete_middle {A} (before : list A) x after :
  delete (length before) (before ++ x :: after) = before ++ after.
Proof. induction before as [|b before IH]; [done|]. simpl. by rewrite IH. Qed.

(** What [unsubscribe(v)] leaves of the subscribers: the list without
    one of its elements at most, and when the list had no duplicates,
    without [v]. *)
Lemma unsubscribed_subscribers w this s v :
  instances w !! this = Some s ->
  exists s',
    instances (unsubscribe this v w).2 !! this = Some s' /\
    heap (unsubscribe this v w).2 = heap w /\
    trace (unsubscribe this v w).2 = trace w /\
    state s' = state s /\
    sublist (subscribers s') (subscribers s) /\
    (forall l, v = VRef l -> NoDup (subscribers s) -> v ∉ subscribers s').
Proof.
  intros Hs. rewrite (unsubscribe_run _ _ _ _ Hs). simpl.
  pose proof (first_index_spec v (subscribers s) 0) as Hfirst.
  destruct (first_index v (subscribers s) 0) as [i|].
  - destruct Hfirst as (before & x & after & Hsubs & -> & Hx & Hb).
    eexists. split; [apply list_lookup_insert_eq; by eapply lookup_lt_Some|].
    simpl. do 3 (split; [done|]). rewrite Hsubs, delete_middle. split.
    + apply sublist_app; [done|]. by apply sublist_cons.
    + intros l -> Hnd. apply strict_equal_ref in Hx. subst x.
      apply NoDup_app in Hnd as (_ & Hdisj & Hnd).
      apply NoDup_cons in Hnd as [Hnot _].
      intros Hin. apply elem_of_app in Hin as [Hin|Hin]; [|done].
      apply (Hdisj _ Hin). left.
  - exists s. do 5 (split; [done|]).
    intros l -> _ Hin. apply present_elem_of in Hin. congruence.
Qed.

(** What [subscribe(v)] leaves of the subscribers: the list as it was,
    or with [v], a reference that was not in it, at its end. *)
Lemma subscribed_subscribers w this s v :
  instances w !! this = Some s ->
  exists s',
    instances (subscribe this v w).2 !! this = Some s' /\
    (subscribers s' = subscribers s \/
     subscribers s' = subscribers s ++ [v] /\ (exists l, v = VRef l) /\
     v ∉ subscribers s).
Proof.
  intros Hs. rewrite (subscribe_run _ _ _ _ Hs).
  assert (Hthrow : forall d (r : outcome unit),
    exists s',
      instances (r, if received d then emit (console_error d) w else w).2 !! this
      = Some s' /\
      (subscribers s' = subscribers s \/
       subscribers s' = subscribers s ++ [v] /\ (exists l, v = VRef l) /\
       v ∉ subscribers s)).
  { intros d r. exists s. simpl. split; [by destruct (received d)|by left]. }
  assert (Hlt : this < length (instances w)) by (by eapply lookup_lt_Some).
  destruct v as [| |b|n|str|l|f b];
    try (exists s; split; [done|by left]);
    try (change (property (heap w) _ "setState") with VUndef; cbn [isFunction];
         apply Hthrow).
  destruct (isFunction _); [destruct (present _ _) eqn:Hp|]; try apply Hthrow.
  eexists. split; [simpl; by apply list_lookup_insert_eq|]. right.
  split; [done|]. split; [by eexists|].
  intros Hin. apply present_elem_of in Hin. congruence.
Qed.

Lemma subscribers_step this w own w' own' s s' :
  store_inv this w s -> step this (w, own) (w', own') ->
  instances w' !! this = Some s' ->
  NoDup (subscribers s) /\ Forall (fun v => exists l, v = VRef l) (subscribers s) ->
  NoDup (subscribers s') /\ Forall (fun v => exists l, v = VRef l) (subscribers s').
Proof.
  intros (Hs & [old Hold] & _) Hstep Hs' [Hnd Hrefs].
  inversion Hstep as [? ? newState|? ? v|? ? v|? ? c Hcell|? ? l c c' Hown Hl Hkind Hcell];
    subst; clear Hstep.
  - destruct (setStoreState_configuration w this s old newState Hs Hold)
      as (s1 & Hs1 & _ & Hsubs).
    assert (s' = s1) as -> by congruence. by rewrite Hsubs.
  - destruct (subscribed_subscribers w this s v Hs) as (s1 & Hs1 & Hsubs).
    assert (s' = s1) as -> by congruence.
    destruct Hsubs as [->|(-> & Hv & Hnot)]; [done|]. split.
    + apply NoDup_app. split; [done|]. split; [|apply NoDup_singleton].
      intros x Hx Hin. apply list_elem_of_singleton in Hin. by subst.
    + apply Forall_app. split; [done|]. by constructor.
  - destruct (unsubscribed_subscribers w this s v Hs)
      as (s1 & Hs1 & _ & _ & _ & Hsub & _).
    assert (s' = s1) as -> by congruence. split.
    + by eapply sublist_NoDup.
    + rewrite Forall_forall in Hrefs |- *. intros x Hx. apply Hrefs.
      eapply elem_of_submseteq; [exact Hx|]. by apply sublist_submseteq.
  - simpl in Hs'. assert (s' = s) as -> by congruence. done.
  - simpl in Hs'. assert (s' = s) as -> by congruence. done.
Qed.

(** X9.  Let [this] be the store a construction returned, in a closed
    heap, and let the world go on by any calls of its operations,
    returning or not, any allocations, and any writes of the environment
    to objects that are its own.  At every time the subscribers are
    object references, and none comes twice. *)
Theorem subscribers_distinct S2N O2N name initialState logStateToConsole n
    w this w1 own1 w2 own2 :
  heap_closed (heap w) ->
  new_Store S2N O2N name initialState logStateToConsole n w = (Return this, w1) ->
  outside_history this w1 own1 ->
  rtc (step this) (w1, own1) (w2, own2) ->
  exists s2,
    instances w2 !! this = Some s2 /\
    NoDup (subscribers s2) /\
    Forall (fun v => exists l, v = VRef l) (subscribers s2).
Proof.
  intros Hc Hnew Hout Hsteps.
  destruct (run_begins _ _ _ _ _ _ _ _ _ _ Hc Hnew Hout)
    as (s1 & N & l' & Hinv1 & Hapart1 & Hhid1 & _).
  assert (Hnone : subscribers s1 = []).
  { pose proof (new_Store_valid _ _ _ _ _ _ _ _ _ Hnew) as Hvalid.
    destruct (new_Store_returns S2N O2N name initialState logStateToConsole n w Hc Hvalid)
      as (l1 & ext & N1 & _ & _ & _ & _ & _ & Hret).
    rewrite Hnew in Hret. injection Hret as -> ->.
    destruct Hinv1 as [Hs1 _]. simpl in Hs1.
    assert (Hinst : instances (with_default_state initialState w).2 = instances w)
      by (by destruct initialState).
    rewrite lookup_app_r in Hs1 by lia. rewrite Nat.sub_diag in Hs1.
    by injection Hs1 as <-. }
  destruct (steps_keep _ this (subscribers_step this) w1 own1 w2 own2 s1 N
              Hsteps Hinv1 Hapart1 Hhid1) as (s2 & Hinv2 & _ & Hnd & Hrefs).
  { rewrite Hnone. split; constructor. }
  exists s2. split; [apply Hinv2|done].
Qed.

Lemma counter_again_subscribed_steps :
  rtc (step 1) (counter_again.2, fun x => x < length (heap counter_world))
               ((unsubscribe 1 (VRef 2)
                   (subscribe 1 (VRef 1)
                      (subscribe 1 (VRef 2)
                         (subscribe 1 (VRef 1) counter_again.2).2).2).2).2,
                fun x => x < length (heap counter_world)).
Proof.
  eapply rtc_l; [apply step_subscribe|].
  eapply rtc_l; [apply step_subscribe|].
  eapply rtc_l; [apply step_subscribe|].
  eapply rtc_l; [apply step_unsubscribe|apply rtc_refl].
Qed.

Lemma subscribers_distinct_witness :
  exists s2,
    instances (unsubscribe 1 (VRef 2)
                 (subscribe 1 (VRef 1)
                    (subscribe 1 (VRef 2)
                       (subscribe 1 (VRef 1) counter_again.2).2).2).2).2 !! 1 = Some s2 /\
    NoDup (subscribers s2).
Proof.
  destruct (subscribers_distinct no_number no_number_of_object
              (VStr "again") (VRef 3) VUndef VUndef counter_world 1
              counter_again.2 (fun x => x < length (heap counter_world))
              _ (fun x => x < length (heap counter_world))
              counter_heap_closed counter_again_returns
              (construction_outside no_number no_number_of_object
                 (VStr "again") (VRef 3) VUndef VUndef counter_world 1 counter_again.2
                 counter_heap_closed counter_again_returns)
              counter_again_subscribed_steps)
    as (s2 & Hs2 & Hnd & _).
  by exists s2.
Defined.

(** X10.  Let [this] be the store a construction returned, in a closed
    heap, and let the world go on as above.  At every time the store has
    the name it was given, the logging flag it was given ([false] when
    none was), and the state object the constructor made for it, which
    is an object still: no operation ever puts another object in its
    place. *)
Theorem configuration_fixed S2N O2N storeName initialState logging n
    w this w1 own1 w2 own2 :
  heap_closed (heap w) ->
  new_Store S2N O2N storeName initialState logging n w = (Return this, w1) ->
  outside_history this w1 own1 ->
  rtc (step this) (w1, own1) (w2, own2) ->
  exists s2 props,
    instances w2 !! this = Some s2 /\
    name s2 = string_of storeName /\
    logStateToConsole s2 = bool_of (or_default logging (VBool false)) /\
    state s2 = length (heap (with_default_state initialState w).2) /\
    heap w2 !! state s2 = Some (CObj props).
Proof.
  intros Hc Hnew Hout Hsteps.
  destruct (run_begins _ _ _ _ _ _ _ _ _ _ Hc Hnew Hout)
    as (s1 & N & l' & Hinv1 & Hapart1 & Hhid1 & _).
  destruct (steps_preserve this w1 own1 w2 own2 s1 N Hsteps Hinv1 Hapart1 Hhid1)
    as (s2 & N2 & (Hs2 & [props Hprops] & _) & _ & _ & (Hname & Hstate & Hlog & _) & _).
  exists s2, props. split; [done|].
  pose proof (new_Store_valid _ _ _ _ _ _ _ _ _ Hnew) as Hvalid.
  destruct (new_Store_returns S2N O2N storeName initialState logging n w Hc Hvalid)
    as (l1 & ext & N1 & _ & _ & _ & _ & _ & Hret).
  rewrite Hnew in Hret. injection Hret as -> ->.
  destruct Hinv1 as [Hs1 _]. simpl in Hs1.
  assert (Hinst : instances (with_default_state initialState w).2 = instances w)
    by (by destruct initialState).
  rewrite lookup_app_r in Hs1 by lia. rewrite Nat.sub_diag in Hs1.
  injection Hs1 as <-. simpl in *.
  split; [done|]. split; [done|]. by split.
Qed.

Lemma configuration_fixed_witness :
  exists s2 props,
    instances counter_again_updated !! 1 = Some s2 /\
    name s2 = "again" /\ logStateToConsole s2 = false /\
    state s2 = 6 /\ heap counter_again_updated !! 6 = Some (CObj props).
Proof.
  destruct (configuration_fixed no_number no_number_of_object
              (VStr "again") (VRef 3) VUndef VUndef counter_world 1
              counter_again.2 (fun x => x < length (heap counter_world))
              counter_again_updated (fun x => x < length (heap counter_world))
              counter_heap_closed counter_again_returns
              (construction_outside no_number no_number_of_object
                 (VStr "again") (VRef 3) VUndef VUndef counter_world 1 counter_again.2
                 counter_heap_closed counter_again_returns)
              counter_again_steps)
    as (s2 & props & Hs2 & Hname & Hlog & Hstate & Hprops).
  exists s2, props. rewrite Hstate in Hprops. by repeat split.
Defined.

(** ** Who is called *)

Lemma own_calls_dumped this v : own_calls this (dumped v) = [].
Proof. unfold dumped. by case_bool_decide. Qed.

(** Whatever its outcome, a [setStoreState] whose callbacks leave the
    store alone calls subscribers of its store only. *)
Lemma live_setStoreState_calls run w this s old newState :
  undisturbed run this ->
  instances w !! this = Some s ->
  heap w !! state s = Some (CObj old) ->
  exists t,
    trace (Live.setStoreState run this newState w).2 = trace w ++ t /\
    Forall (fun e => forall v, calls v e -> v ∈ subscribers s /\ exists l, v = VRef l)
           (own_calls this t).
Proof.
  intros Hrun Hs Hst. destruct (isObject (heap w) newState) eqn:Hobj.
  - destruct (isObject_true _ _ Hobj) as (l & new & -> & Hl & _).
    destruct (clone_extends (heap w) (state s)) as (l' & ext & Hclone).
    rewrite (live_setStoreState_run run _ _ _ _ _ _ _ _ Hs Hst Hl Hclone).
    assert (Hthis : this < length (instances w)) by (by eapply lookup_lt_Some).
    assert (Hlt : state s < length (heap w ++ ext)).
    { rewrite length_app. apply lookup_lt_Some in Hst. lia. }
    pose proof (merged_world_settled w this s (heap w ++ ext) (new ∪ old)
                  (keep (numberOfPreviousStatesToKeep s) (VRef l' :: previousStates s))
                  Hthis Hlt) as Hsettled.
    destruct (live_notify_any run this Hrun _ _ _ _ Hsettled)
      as (r & w' & t & j & Hloop & _ & Htrace & Hown & Hrefs).
    simpl in Hloop. rewrite Hloop. exists t. split; [exact Htrace|].
    rewrite Hown. apply Forall_fmap, Forall_forall. intros x Hx v Hv.
    simpl in Hv. subst v. split.
    + apply elem_of_take in Hx as (i & Hi & _). by eapply list_elem_of_lookup_2.
    + rewrite Forall_forall in Hrefs. by apply Hrefs.
  - unfold Live.setStoreState.
    rewrite (bind_throw _ _ _ _ _ (validateNewState_rejects _ _ Hobj)).
    rewrite received_dumped.
    exists (dumped newState). split; [done|]. by rewrite own_calls_dumped.
Qed.



(** ** Publishing what is not an array of stores *)

Lemma first_not_instance (items : list item) :
  (forall l, items <> Instance <$> l) ->
  exists before x after,
    items = (Instance <$> before) ++ x :: after /\ instance_of x = None.
Proof.
  induction items as [|x items IH]; intros Hno.
  - by destruct (Hno []).
  - destruct x as [v|this|inner].
    + by exists [], (Value v), items.
    + destruct IH as (before & x & after & -> & Hx).
      { intros l ->. by apply (Hno (this :: l)). }
      by exists (this :: before), x, after.
    + by exists [], (ArrayOf inner), items.
Qed.

Lemma instance_check_fails w (before : list nat) x after :
  instance_of x = None ->
  forEach ((Instance <$> before) ++ x :: after) (fun store =>
    match store with
    | Instance _ => ret tt
    | _ => throwError "Invalid Store intance passed to makeStoresGloballyAvailable."
                      (DItem store)
    end) w
  = (Throw (Error "whitelodge | Invalid Store intance passed to makeStoresGloballyAvailable."),
     if received (DItem x) then emit (console_error (DItem x)) w else w).
Proof.
  intros Hx. induction before as [|b before IH]; simpl.
  - destruct x; try done;
      by rewrite (bind_throw _ _ _ _ _ (throwError_run _ _ _)).
  - by rewrite (bind_return _ _ w tt w).
Qed.

(** X12.  [makeStoresGloballyAvailable] with an argument that is not an
    array of Store instances throws before it touches the registry: the
    registry published before, the stores and the heap are as they
    were. *)
Theorem rejected_registry_kept w stores :
  (forall l, as_array (heap w) stores <> Some (Instance <$> l)) ->
  exists w',
    makeStoresGloballyAvailable stores w
    = (Throw (Error
         match as_array (heap w) stores with
         | Some _ => "whitelodge | Invalid Store intance passed to makeStoresGloballyAvailable."
         | None => "whitelodge | makeStoresGloballyAvailable expects an array of Store instances."
         end), w') /\
    same_but_trace w w'.
Proof.
  intros Hno. unfold makeStoresGloballyAvailable.
  rewrite (bind_return _ _ w (heap w) w) by done.
  destruct (as_array (heap w) stores) as [items|].
  - destruct (first_not_instance items) as (before & x & after & -> & Hx).
    { intros l ->. by apply (Hno l). }
    rewrite (bind_throw _ _ _ _ _ (instance_check_fails _ _ _ _ Hx)).
    eexists. split; [done|]. apply same_but_trace_received.
  - rewrite throwError_run. eexists. split; [done|]. apply same_but_trace_received.
Qed.

Lemma rejected_registry_kept_witness :
  exists w',
    makeStoresGloballyAvailable (ArrayOf [Instance 0; Value VNull]) registry_world
    = (Throw (Error "whitelodge | Invalid Store intance passed to makeStoresGloballyAvailable."),
       w') /\
    whitelodge w' = Some {[ "a" := 0 ]}.
Proof.
  destruct (rejected_registry_kept registry_world (ArrayOf [Instance 0; Value VNull]))
    as (w' & Hrun & _ & _ & Hreg & _).
  { intros l Hl. simpl in Hl. injection Hl as Hl.
    destruct l as [|a [|b l]]; done. }
  exists w'. split; [exact Hrun|]. exact Hreg.
Defined.

(** ** Mounting a component *)

Lemma attach_nil this w : attach this [] w = w.
Proof. by destruct w. Qed.

Lemma attach_cons this store targets w :
  attach this (store :: targets) w = attach this targets (attach this [store] w).
Proof. done. Qed.

Lemma attach_other this targets : forall w store,
  store ∉ targets -> instances (attach this targets w) !! store = instances w !! store.
Proof.
  induction targets as [|x targets IH]; intros w store Hnot; [done|].
  apply not_elem_of_cons in Hnot as [Hne Hnot].
  rewrite attach_cons, IH by done. simpl. by rewrite list_lookup_alter_ne.
Qed.

Lemma attach_target this targets : forall w store s,
  NoDup targets -> store ∈ targets -> instances w !! store = Some s ->
  instances (attach this targets w) !! store
  = Some (set_subscribers (subscribers s ++ [this]) s).
Proof.
  induction targets as [|x targets IH]; intros w store s Hnd Hin Hs.
  - by apply elem_of_nil in Hin.
  - apply NoDup_cons in Hnd as [Hnot Hnd]. rewrite attach_cons.
    apply elem_of_cons in Hin as [->|Hin].
    + rewrite attach_other by done. simpl. by rewrite list_lookup_alter_eq, Hs.
    + apply IH; [done..|]. simpl. rewrite list_lookup_alter_ne; [done|].
      intros ->. done.
Qed.

Lemma subscribe_attach w this store s :
  instances w !! store = Some s -> capable (heap w) this = true ->
  present this (subscribers s) = false ->
  subscribe store this w = (Return tt, attach this [store] w).
Proof.
  intros Hs Hcap Hno. rewrite (subscribe_run _ _ _ _ Hs).
  destruct (capable_ref _ _ Hcap) as [l ->]. simpl in Hcap. rewrite Hcap, Hno.
  unfold attach. simpl. by rewrite (alter_insert _ _ _ _ Hs).
Qed.

Lemma attachable_rest this store targets w :
  store ∉ targets -> attachable this targets w ->
  attachable this targets (attach this [store] w).
Proof.
  intros Hnot Hatt. unfold attachable in *. rewrite Forall_forall in Hatt |- *.
  intros x Hx. destruct (Hatt x Hx) as (s & Hs & Hno). exists s. split; [|done].
  rewrite attach_other; [done|]. intros Hin. apply list_elem_of_singleton in Hin.
  by subst.
Qed.

(** The names that lead to stores are gone through in order, each store
    being subscribed to; what is left of the list starts in the world in
    which [this] is attached to them all. *)
Lemma subscribe_each_run this names targets stores rest :
  stores !! "hasOwnProperty" = None -> named stores names targets ->
  forall w initialState,
    whitelodge w = Some stores -> NoDup targets ->
    capable (heap w) this = true -> attachable this targets w ->
    subscribe_each this ((VStr <$> names) ++ rest) initialState w
    = subscribe_each this rest
        (foldl (fun m p => <[p.1 := p.2]> m) initialState (zip names targets))
        (attach this targets w).
Proof.
  intros Hshadow Hnamed.
  induction Hnamed as [|storeName store names targets Hfound Hnamed IH];
    intros w initialState Hreg Hnd Hcap Hatt.
  - by rewrite attach_nil.
  - apply NoDup_cons in Hnd as [Hnot Hnd].
    inversion Hatt as [|? ? (s & Hs & Hno) Hrest]; subst.
    cbn [fmap list_fmap app subscribe_each].
    rewrite (bind_return _ _ w (whitelodge w) w) by done. rewrite Hreg.
    unfold own_store. rewrite Hshadow.
    rewrite (bind_return _ _ w (stores !! storeName) w) by done. rewrite Hfound.
    rewrite (bind_return _ _ _ _ _ (subscribe_attach _ _ _ _ Hs Hcap Hno)).
    rewrite IH; [done|done|done|done|]. by apply attachable_rest.
Qed.

Lemma seeded_lookup stores names targets :
  named stores names targets ->
  forall (initialState : gmap string nat) k,
    foldl (fun m p => <[p.1 := p.2]> m) initialState (zip names targets) !! k
    = if bool_decide (k ∈ names) then stores !! k else initialState !! k.
Proof.
  intros Hnamed.
  induction Hnamed as [|storeName store names targets Hfound Hnamed IH];
    intros initialState k; [done|].
  simpl. rewrite IH. destruct (decide (k ∈ names)) as [Hin|Hnot].
  - rewrite !bool_decide_eq_true_2; [done|by right|done].
  - rewrite (bool_decide_eq_false_2 (k ∈ names)) by done.
    destruct (decide (k = storeName)) as [->|Hne].
    + rewrite bool_decide_eq_true_2 by left. by rewrite lookup_insert_eq.
    + rewrite bool_decide_eq_false_2.
      * by rewrite lookup_insert_ne.
      * intros Hin. apply elem_of_cons in Hin as [?|?]; done.
Qed.

(** The whole of a mount that finds every store. *)
Lemma subscribeToStores_run w this storeNames names targets stores :
  elements (heap w) storeNames = Some (VStr <$> names) ->
  whitelodge w = Some stores -> stores !! "hasOwnProperty" = None ->
  named stores names targets -> NoDup targets ->
  capable (heap w) this = true -> attachable this targets w ->
  subscribeToStores this storeNames w
  = (Return tt,
     set_component_state
       ((this, foldl (fun m p => <[p.1 := p.2]> m) ∅ (zip names targets))
          :: component_state w)
       (attach this targets w)).
Proof.
  intros Helems Hreg Hshadow Hnamed Hnd Hcap Hatt. unfold subscribeToStores.
  rewrite (bind_return _ _ w (heap w) w) by done. rewrite Helems.
  rewrite <- (app_nil_r (VStr <$> names)).
  by rewrite (bind_return _ _ _ _ _
    (subscribe_each_run this names targets stores [] Hshadow Hnamed w ∅
       Hreg Hnd Hcap Hatt)).
Qed.

(** X13.  Let the array [storeNames] hold names that the registry leads
    to different stores, and let [this] have a callable [setState] and
    be a subscriber of none of them; the registry has no store called
    "hasOwnProperty".  Then [subscribeToStores] returns; [this] is now
    the last subscriber of each of these stores, every other store is as
    it was, and the local state of [this] leads from each of the names,
    and from nothing else, to its store.  Nothing is printed and the
    heap and the registry are untouched. *)
Theorem mount_attaches w this storeNames names targets stores :
  elements (heap w) storeNames = Some (VStr <$> names) ->
  whitelodge w = Some stores -> stores !! "hasOwnProperty" = None ->
  named stores names targets -> NoDup targets ->
  capable (heap w) this = true -> attachable this targets w ->
  exists w' seeded,
    subscribeToStores this storeNames w = (Return tt, w') /\
    component_state w' = (this, seeded) :: component_state w /\
    (forall k, seeded !! k = if bool_decide (k ∈ names) then stores !! k else None) /\
    (forall store s, store ∈ targets -> instances w !! store = Some s ->
       instances w' !! store = Some (set_subscribers (subscribers s ++ [this]) s)) /\
    (forall store, store ∉ targets -> instances w' !! store = instances w !! store) /\
    heap w' = heap w /\ whitelodge w' = whitelodge w /\ trace w' = trace w.
Proof.
  intros Helems Hreg Hshadow Hnamed Hnd Hcap Hatt.
  eexists _, _. split.
  { by apply (subscribeToStores_run w this storeNames names targets stores). }
  split; [done|]. split.
  { intros k. rewrite (seeded_lookup stores names targets Hnamed).
    by rewrite lookup_empty. }
  split. { intros store s Hin Hs. simpl. by apply attach_target. }
  split. { intros store Hnot. simpl. by apply attach_other. }
  done.
Qed.

Lemma test_world_named : named {[ "testStore" := 0 ]} ["testStore"] [0].
Proof. by repeat constructor. Qed.

Lemma test_world_attachable : attachable (VRef 1) [0] test_world.
Proof. repeat constructor. by eexists. Qed.

Lemma mount_attaches_witness :
  exists w' seeded,
    subscribeToStores (VRef 1) (VRef 2) test_world = (Return tt, w') /\
    component_state w' = [(VRef 1, seeded)] /\
    seeded !! "testStore" = Some 0 /\
    instances w' !! 0 = Some (mkStore "testStore" 0 [] [VRef 1] false (Fin 15)).
Proof.
  destruct (mount_attaches test_world (VRef 1) (VRef 2) ["testStore"] [0]
              {[ "testStore" := 0 ]} eq_refl eq_refl eq_refl test_world_named
              (NoDup_singleton 0) eq_refl test_world_attachable)
    as (w' & seeded & Hrun & Hstate & Hseeded & Htargets & _).
  exists w', seeded. split; [exact Hrun|]. split; [exact Hstate|].
  split; [exact (Hseeded "testStore")|].
  apply (Htargets 0 (mkStore "testStore" 0 [] [] false (Fin 15))); [left|done].
Defined.

(** ** A mount that fails half way *)

(** X14.  Let the array [storeNames] start with names that the registry
    leads to different stores, to which [this] can be subscribed, and go
    on with an element that is not a string, or names no store, or names
    one of the stores already gone through.  Then [subscribeToStores]
    throws the error of the library at that element, and leaves [this]
    subscribed to the stores gone through before it; the local state of
    [this] has not been set. *)
Theorem failed_mount_stays_attached w this storeNames before targets bad after stores :
  elements (heap w) storeNames = Some ((VStr <$> before) ++ bad :: after) ->
  whitelodge w = Some stores -> stores !! "hasOwnProperty" = None ->
  named stores before targets -> NoDup targets ->
  capable (heap w) this = true -> attachable this targets w ->
  (forall storeName, bad = VStr storeName ->
     stores !! storeName = None \/
     exists store, stores !! storeName = Some store /\ store ∈ targets) ->
  exists message w',
    subscribeToStores this storeNames w = (Throw (Error message), w') /\
    component_state w' = component_state w /\
    (forall store s, store ∈ targets -> instances w !! store = Some s ->
       instances w' !! store = Some (set_subscribers (subscribers s ++ [this]) s)) /\
    (forall store, store ∉ targets -> instances w' !! store = instances w !! store) /\
    heap w' = heap w /\ whitelodge w' = whitelodge w.
Proof.
  intros Helems Hreg Hshadow Hnamed Hnd Hcap Hatt Hbad.
  set (w1 := attach this targets w).
  set (seeded := foldl (fun (m : gmap string nat) p => <[p.1 := p.2]> m) ∅
                       (zip before targets)).
  assert (Hfail : exists message w',
    subscribe_each this (bad :: after) seeded w1 = (Throw (Error message), w') /\
    same_but_trace w1 w').
  { destruct bad as [| |b|n|storeName|l|f b];
      try (simpl; rewrite throwError_run; eexists _, _; split; [done|];
           apply same_but_trace_received).
    cbn [subscribe_each].
    rewrite (bind_return _ _ w1 (whitelodge w1) w1) by done.
    change (whitelodge w1) with (whitelodge w). rewrite Hreg.
    unfold own_store. rewrite Hshadow.
    rewrite (bind_return _ _ w1 (stores !! storeName) w1) by done.
    destruct (Hbad storeName eq_refl) as [Hnone|(store & Hsome & Hin)].
    - rewrite Hnone, throwError_run. eexists _, _. split; [done|].
      apply same_but_trace_received.
    - rewrite Hsome.
      unfold attachable in Hatt. rewrite Forall_forall in Hatt.
      destruct (Hatt store Hin) as (s & Hs & Hno).
      pose proof (attach_target this targets w store s Hnd Hin Hs) as Hs1.
      fold w1 in Hs1.
      destruct (capable_ref _ _ Hcap) as [l ->].
      rewrite (bind_throw _ _ w1
        (Error (logPrefix +:+ "Component is already subscribed to the store "
                  +:+ dquote +:+ name s +:+ dquote +:+ "."))
        (if received (DItem (Value (VRef l)))
         then emit (console_error (DItem (Value (VRef l)))) w1 else w1)).
      + eexists _, _. split; [done|]. apply same_but_trace_received.
      + rewrite (subscribe_run _ _ _ _ Hs1). simpl in Hcap.
        change (heap w1) with (heap w). rewrite Hcap.
        assert (present (VRef l) (subscribers s ++ [VRef l]) = true) as Hp.
        { apply present_elem_of. apply elem_of_app. right. left. }
        simpl. by rewrite Hp. }
  destruct Hfail as (message & w' & Hrun & Hh & Hi & Hr & Hc).
  exists message, w'. split.
  { unfold subscribeToStores.
    rewrite (bind_return _ _ w (heap w) w) by done. rewrite Helems.
    rewrite (bind_throw _ _ w (Error message) w'); [done|].
    by rewrite (subscribe_each_run this before targets stores (bad :: after)
                  Hshadow Hnamed w ∅ Hreg Hnd Hcap Hatt). }
  split; [by rewrite Hc|]. split.
  { intros store s Hin Hs. rewrite Hi. by apply attach_target. }
  split. { intros store Hnot. rewrite Hi. by apply attach_other. }
  split; [by rewrite Hh|by rewrite Hr].
Qed.

Lemma two_names_named : named {[ "a" := 0; "b" := 1 ]} ["a"] [0].
Proof. by repeat constructor. Qed.

Lemma listing_attachable : attachable (VRef 2) [0] listing_world.
Proof. repeat constructor. by eexists. Qed.

Lemma failed_mount_stays_attached_witness :
  exists message w',
    subscribeToStores (VRef 2) (VRef 3) listing_world = (Throw (Error message), w') /\
    component_state w' = [] /\
    instances w' !! 0 = Some (mkStore "a" 0 [] [VRef 2] false (Fin 15)).
Proof.
  destruct (failed_mount_stays_attached listing_world (VRef 2) (VRef 3)
              ["a"] [0] (VStr "c") [VStr "b"] {[ "a" := 0; "b" := 1 ]}
              eq_refl eq_refl eq_refl two_names_named (NoDup_singleton 0)
              eq_refl listing_attachable)
    as (message & w' & Hrun & Hstate & Htargets & _).
  { intros storeName [= <-]. by left. }
  exists message, w'. split; [exact Hrun|]. split; [exact Hstate|].
  apply (Htargets 0 (mkStore "a" 0 [] [] false (Fin 15))); [left|done].
Defined.

(** ** Mounting without a usable registry *)

(** X15.  While no registry is published, [subscribeToStores] with an
    empty array returns and sets the local state to the empty object;
    with an array that starts with a string it throws a TypeError, not
    the error of the library, and with one that starts with anything
    else it throws the error of the library for a name that is not a
    string.  In both failures nothing has changed but for what was
    printed. *)
Theorem mount_without_registry w this storeNames names :
  whitelodge w = None ->
  elements (heap w) storeNames = Some names ->
  subscribeToStores this storeNames w
  = match names with
    | [] => (Return tt, set_component_state ((this, ∅) :: component_state w) w)
    | VStr _ :: _ => (Throw TypeError, w)
    | v :: _ =>
        (Throw (Error "whitelodge | Each store name passed to AddStoreSubscriptions should be a string."),
         add_trace (dumped v) w)
    end.
Proof.
  intros Hreg Helems. unfold subscribeToStores.
  rewrite (bind_return _ _ w (heap w) w) by done. rewrite Helems.
  destruct names as [|v rest]; [done|].
  assert (Hbad : forall v,
    (forall storeName, v <> VStr storeName) ->
    subscribe_each this (v :: rest) ∅ w
    = (Throw (Error "whitelodge | Each store name passed to AddStoreSubscriptions should be a string."),
       add_trace (dumped v) w)).
  { intros v' Hv. destruct v' as [| |b|n|storeName|l|f b];
      try (by destruct (Hv storeName));
      simpl; rewrite throwError_run; by rewrite received_dumped. }
  destruct v as [| |b|n|storeName|l|f b];
    try (match goal with
         | |- context [subscribe_each this (?v :: rest)] =>
             by rewrite (bind_throw _ _ _ _ _ (Hbad v ltac:(done)))
         end).
  rewrite (bind_throw _ _ w TypeError w); [done|].
  cbn [subscribe_each]. rewrite (bind_return _ _ w (whitelodge w) w) by done.
  by rewrite Hreg.
Qed.

Lemma mount_without_registry_witness :
  subscribeToStores (VRef 2) (VRef 3) (set_whitelodge None listing_world)
  = (Throw TypeError, set_whitelodge None listing_world).
Proof.
  exact (mount_without_registry (set_whitelodge None listing_world) (VRef 2) (VRef 3)
           [VStr "a"; VStr "c"; VStr "b"] eq_refl eq_refl).
Defined.

(** X16.  When a store called "hasOwnProperty" is in the registry, it
    stands where the method of that name is looked for: every
    [subscribeToStores] with an array that starts with a string throws a
    TypeError, and nothing has changed. *)
Theorem mount_with_shadowed_method w this storeNames stores storeName rest :
  whitelodge w = Some stores ->
  is_Some (stores !! "hasOwnProperty") ->
  elements (heap w) storeNames = Some (VStr storeName :: rest) ->
  subscribeToStores this storeNames w = (Throw TypeError, w).
Proof.
  intros Hreg [store Hshadow] Helems. unfold subscribeToStores.
  rewrite (bind_return _ _ w (heap w) w) by done. rewrite Helems.
  rewrite (bind_throw _ _ w TypeError w); [done|].
  cbn [subscribe_each]. rewrite (bind_return _ _ w (whitelodge w) w) by done.
  rewrite Hreg. unfold own_store. by rewrite Hshadow.
Qed.

Lemma mount_with_shadowed_method_witness :
  subscribeToStores (VRef 2) (VRef 3)
    (set_whitelodge (Some {[ "a" := 0; "hasOwnProperty" := 1 ]}) listing_world)
  = (Throw TypeError,
     set_whitelodge (Some {[ "a" := 0; "hasOwnProperty" := 1 ]}) listing_world).
Proof.
  apply (mount_with_shadowed_method
           (set_whitelodge (Some {[ "a" := 0; "hasOwnProperty" := 1 ]}) listing_world)
           (VRef 2) (VRef 3)
           {[ "a" := 0; "hasOwnProperty" := 1 ]} "a" [VStr "c"; VStr "b"]);
    [done|by eexists|done].
Defined.

(** ** Publishing and then mounting *)

Lemma names_of_named w published stores :
  Forall (fun store => is_Some (instances w !! store)) stores ->
  (forall store s, store ∈ stores -> instances w !! store = Some s ->
                   published !! name s = Some store) ->
  named published (names_of w stores) stores.
Proof.
  intros Hall. induction Hall as [|x stores [sx Hx] Hall IH]; intros Hfound.
  - constructor.
  - rewrite (names_of_cons _ _ _ _ Hx). constructor.
    + apply Hfound; [left|done].
    + apply IH. intros store s Hin. apply Hfound. by right.
Qed.

Lemma names_of_NoDup w stores :
  Forall (fun store => is_Some (instances w !! store)) stores ->
  NoDup (names_of w stores) -> NoDup stores.
Proof.
  intros Hall. induction Hall as [|x stores [sx Hx] Hall IH]; intros Hnd.
  - constructor.
  - rewrite (names_of_cons _ _ _ _ Hx) in Hnd. apply NoDup_cons in Hnd as [Hnot Hnd].
    constructor; [|by apply IH]. intros Hin. apply Hnot.
    by apply (elem_of_names_of w stores x sx).
Qed.

(** X19.  Publishing stores whose names are all different, none of them
    "hasOwnProperty" (nor "__proto__", the key that an assignment does
    not make a property of), and then mounting a component on the array
    of their names, the component having a callable [setState] and being
    a subscriber of none of them: both calls return, the component is
    the last subscriber of every one of the stores, and its local state
    leads from each store's name to that store. *)
Theorem published_stores_mount w stores this storeNames :
  Forall (fun store => is_Some (instances w !! store)) stores ->
  NoDup (names_of w stores) ->
  "hasOwnProperty" ∉ names_of w stores ->
  "__proto__" ∉ names_of w stores ->
  elements (heap w) storeNames = Some (VStr <$> names_of w stores) ->
  capable (heap w) this = true -> attachable this stores w ->
  exists w' seeded,
    (makeStoresGloballyAvailable (ArrayOf (Instance <$> stores)) ;;;
     subscribeToStores this storeNames) w = (Return tt, w') /\
    component_state w' = (this, seeded) :: component_state w /\
    (forall store s, store ∈ stores -> instances w !! store = Some s ->
       seeded !! name s = Some store /\
       instances w' !! store = Some (set_subscribers (subscribers s ++ [this]) s)).
Proof.
  intros Hall Hnd Hshadow _ Helems Hcap Hatt.
  destruct (reduce_stores_distinct (set_whitelodge None w) stores [] ∅ Hall Hnd)
    as (published & Hrun & Hfound & _ & Hback).
  set (w1 := set_whitelodge (Some published) w).
  assert (Hpublish : makeStoresGloballyAvailable (ArrayOf (Instance <$> stores)) w
                     = (Return tt, w1)).
  { unfold makeStoresGloballyAvailable.
    rewrite (bind_return _ _ w (heap w) w) by done. cbn [as_array].
    rewrite (bind_return _ _ _ _ _ (instances_pass_check _ _)).
    rewrite (bind_return _ _ w tt (set_whitelodge None w)) by done.
    rewrite omap_instance_of.
    by rewrite (bind_return _ _ _ _ _ Hrun). }
  assert (Hno : published !! "hasOwnProperty" = None).
  { destruct (published !! "hasOwnProperty") as [store|] eqn:Hp; [|done].
    destruct (Hback _ _ Hp) as [Hempty|(Hin & s & Hs & Hname)].
    - by rewrite lookup_empty in Hempty.
    - exfalso. apply Hshadow. rewrite <- Hname.
      by apply (elem_of_names_of w stores store s). }
  assert (Hnamed : named published (names_of w stores) stores).
  { by apply (names_of_named (set_whitelodge None w)). }
  pose proof (names_of_NoDup w stores Hall Hnd) as Hdistinct.
  eexists _, _. split.
  { rewrite (bind_return _ _ _ _ _ Hpublish).
    by apply (subscribeToStores_run w1 this storeNames (names_of w stores) stores
                published). }
  split; [done|]. intros store s Hin Hs. split.
  - rewrite (seeded_lookup published _ _ Hnamed).
    rewrite bool_decide_eq_true_2 by (by apply (elem_of_names_of w stores store s)).
    by apply Hfound.
  - simpl. by apply (attach_target this stores w1).
Qed.

Lemma published_stores_mount_witness :
  exists w' seeded,
    (makeStoresGloballyAvailable (ArrayOf [Instance 0; Instance 1]) ;;;
     subscribeToStores (VRef 2) (VRef 4)) listing_world = (Return tt, w') /\
    component_state w' = [(VRef 2, seeded)] /\
    seeded !! "b" = Some 1 /\
    instances w' !! 1 = Some (mkStore "b" 1 [] [VRef 2] false (Fin 15)).
Proof.
  destruct (published_stores_mount listing_world [0; 1] (VRef 2) (VRef 4))
    as (w' & seeded & Hrun & Hstate & Hstores).
  { repeat constructor; by eexists. }
  { apply (bool_decide_unpack _). by vm_compute. }
  { apply (bool_decide_unpack _). by vm_compute. }
  { apply (bool_decide_unpack _). by vm_compute. }
  { done. }
  { done. }
  { repeat constructor; by eexists. }
  exists w', seeded. split; [exact Hrun|]. split; [exact Hstate|].
  apply (Hstores 1 (mkStore "b" 1 [] [] false (Fin 15))); [right; left|done].
Defined.

(** ** Subscribing and then setting the state *)

(** The last of the subscribers is called last, once, when every
    callback returns and leaves the store alone. *)
Lemma live_last_subscriber_called run w this s old l new subs v :
  undisturbed run this ->
  instances w !! this = Some s ->
  subscribers s = subs ++ [v] ->
  heap w !! state s = Some (CObj old) ->
  heap w !! l = Some (CObj new) ->
  Forall (responds (<[state s := CObj (new ∪ old)]> (heap w))) (subs ++ [v]) ->
  exists w2 t before s',
    Live.setStoreState run this (VRef l) w = (Return tt, w2) /\
    trace w2 = trace w ++ t ++ log_entry s /\
    own_calls this t
    = before ++ [setState_call v (name s) this s' (Some (CObj (new ∪ old)))] /\
    before = (fun x => setState_call x (name s) this s' (Some (CObj (new ∪ old)))) <$> subs /\
    instances w2 !! this = Some s' /\
    heap w2 !! state s = Some (CObj (new ∪ old)) /\
    subscribers s' = subs ++ [v].
Proof.
  intros Hrun Hs Hsubs Hst Hl Hall.
  destruct (clone_extends (heap w) (state s)) as (l' & ext & Hclone).
  rewrite <- Hsubs in Hall.
  destruct (live_setStoreState_returns run w this s old l new _ _ Hrun Hs Hst Hl Hclone Hall)
    as (w2 & t & Hret & Hs2 & Hst2 & Htrace & Hown).
  eexists w2, t, _, _. split; [exact Hret|]. split; [exact Htrace|].
  split; [|split; [reflexivity|]].
  { rewrite Hown, Hsubs, fmap_app. reflexivity. }
  split; [exact Hs2|]. split; [exact Hst2|]. exact Hsubs.
Qed.



(** ** What a construction prints *)

(** X22.  A construction that returns, in a closed heap, has called no
    subscriber, and has printed one thing at most: the log line of the
    new store, with its name and its state object, exactly when logging
    was asked for. *)
Theorem construction_trace S2N O2N storeName initialState logging n w this w' :
  heap_closed (heap w) ->
  new_Store S2N O2N storeName initialState logging n w = (Return this, w') ->
  exists s,
    instances w' !! this = Some s /\
    trace w'
    = trace w ++ (if bool_of (or_default logging (VBool false))
                  then [console_log (logPrefix +:+ string_of storeName +:+ " | ")
                                    (VRef (state s))]
                  else []).
Proof.
  intros Hc Hnew.
  pose proof (new_Store_valid _ _ _ _ _ _ _ _ _ Hnew) as Hvalid.
  destruct (new_Store_returns S2N O2N storeName initialState logging n w Hc Hvalid)
    as (l1 & ext & N1 & _ & _ & _ & _ & _ & Hret).
  rewrite Hnew in Hret. injection Hret as -> ->.
  assert (Hinst : instances (with_default_state initialState w).2 = instances w)
    by (by destruct initialState).
  assert (Htrace : trace (with_default_state initialState w).2 = trace w)
    by (by destruct initialState).
  eexists. split.
  { simpl. rewrite lookup_app_r by lia. by rewrite Nat.sub_diag. }
  simpl. by rewrite Htrace.
Qed.

Lemma construction_trace_witness :
  exists s, instances counter_again.2 !! 1 = Some s /\ trace counter_again.2 = [].
Proof.
  destruct (construction_trace no_number no_number_of_object
              (VStr "again") (VRef 3) VUndef VUndef counter_world 1 counter_again.2
              counter_heap_closed counter_again_returns) as (s & Hs & Htrace).
  exists s. split; [exact Hs|]. exact Htrace.
Defined.

(** ** After a publication that failed *)

(** X23.  When [makeStoresGloballyAvailable] has thrown for a name that
    comes twice, no registry is left, whatever was published before:
    from then on every [subscribeToStores] with an array that starts
    with a string throws a TypeError and changes nothing. *)
Theorem failed_publication_unmounts w before store s after this storeNames storeName rest :
  Forall (fun store => is_Some (instances w !! store)) before ->
  NoDup (names_of w before) ->
  instances w !! store = Some s ->
  name s ∈ names_of w before ->
  elements (heap w) storeNames = Some (VStr storeName :: rest) ->
  exists message w1,
    makeStoresGloballyAvailable (ArrayOf (Instance <$> (before ++ store :: after))) w
    = (Throw (Error message), w1) /\
    whitelodge w1 = None /\
    subscribeToStores this storeNames w1 = (Throw TypeError, w1).
Proof.
  intros Hall Hnd Hs Hin Helems.
  set (w1 := emit (console_error (DNames (names_of w before))) (set_whitelodge None w)).
  eexists _, w1. split.
  { by apply (makeStoresGloballyAvailable_duplicate w before store s after). }
  split; [done|].
  unfold subscribeToStores.
  rewrite (bind_return _ _ w1 (heap w1) w1) by done.
  change (heap w1) with (heap w). rewrite Helems.
  by rewrite (bind_throw _ _ w1 TypeError w1).
Qed.

Lemma failed_publication_unmounts_witness :
  exists message w1,
    makeStoresGloballyAvailable (ArrayOf [Instance 0; Instance 1]) twice_world
    = (Throw (Error message), w1) /\
    whitelodge w1 = None /\
    subscribeToStores (VRef 2) (VRef 3) w1 = (Throw TypeError, w1).
Proof.
  apply (failed_publication_unmounts twice_world [0] 1
           (mkStore "a" 1 [] [] false (Fin 15)) [] (VRef 2) (VRef 3) "a" []).
  - repeat constructor. by eexists.
  - apply NoDup_singleton.
  - done.
  - apply list_elem_of_singleton. done.
  - done.
Defined.

(** ** A mounted component is told of updates *)



(** ** The counter, end to end *)

(** The component is called exactly twice: with [count] 1, the history
    starting with [{count: 0}], then with [count] 2, the history starting
    with [{count: 1}].  After it has unsubscribed it is not called, and
    the state ends as [{count: 3}]. *)
Theorem counter_scenario :
  exists w',
    scenario scenario_world = (Return 0, w') /\
    omap (seen_by (heap w')) (trace w')
    = [ (VRef 1, "counter", 0, Some (CObj {[ "count" := VNum (Fin 1) ]}),
         Some (TObj {[ "count" := TNum (Fin 0) ]}));
        (VRef 1, "counter", 0, Some (CObj {[ "count" := VNum (Fin 2) ]}),
         Some (TObj {[ "count" := TNum (Fin 1) ]})) ] /\
    length (trace w') = 2 /\
    (s ← instances w' !! 0; heap w' !! state s)
    = Some (CObj {[ "count" := VNum (Fin 3) ]}) /\
    (s ← instances w' !! 0; Some (subscribers s)) = Some [].
Proof.
  exists (scenario scenario_world).2.
  split; [by vm_compute|]. split; [by vm_compute|]. split; by vm_compute.
Qed.
